(** * Schnorr signing utilities of the oracle node (src/utils.js)

    A shallow embedding of [src/utils.js] and the properties of its
    signature codec, Schnorr engine and signing pipeline.

    The JavaScript file leans on three libraries: [bn.js] (big numbers),
    [elliptic] (short Weierstrass curves) and [web3-utils] (keccak256,
    toBN, toChecksumAddress, soliditySha3).  Big numbers are [Z]; buffers
    are [list byte]; strings are [string], sequences of 8-bit characters
    with the ASCII rules of case; the curve arithmetic follows
    elliptic's affine [Point]; the hash functions are parameters of the
    development, and a bit-level Keccak-256 is given further down to run
    the code on concrete inputs. *)

From Stdlib Require Import ZArith List String Ascii Bool Lia.
From Stdlib.Strings Require Import Byte.
From Stdlib Require Import DecimalString.
From Bignums Require Import BigZ.
Import ListNotations.

Local Open Scope string_scope.
Local Open Scope Z_scope.

(** ** Exceptions

    Every function that can [throw] returns a [result]. *)

Inductive exn : Type :=
| ThrowString (s : string)        (* throw `...` with a string value *)
| ThrowObject (message : string)  (* throw { message: ... } *)
| TypeError (what : string)       (* property access on null / undefined *)
| ReferenceError (name : string)  (* use of an undeclared identifier *)
| LibError (what : string).       (* an Error raised inside a library *)

Inductive result (A : Type) : Type :=
| Ret (a : A)
| Throw (e : exn).
Arguments Ret {A} a.
Arguments Throw {A} e.

Definition bind {A B} (m : result A) (k : A -> result B) : result B :=
  match m with
  | Ret a => k a
  | Throw e => Throw e
  end.

Declare Scope js_scope.
Delimit Scope js_scope with js.
Notation "x <- m ;; k" := (bind m (fun x => k))
  (at level 61, m at next level, right associativity) : js_scope.
Local Open Scope js_scope.

(** ** JavaScript strings *)

Module Str.

Fixpoint drop (k : nat) (s : string) : string :=
  match k, s with
  | O, _ => s
  | S _, EmptyString => EmptyString
  | S k', String _ s' => drop k' s'
  end.

(** [s.replace(pat, empty)] with a string pattern: the first occurrence
    of [pat], wherever it is, is removed. *)
Fixpoint replace_first (pat s : string) : string :=
  if String.prefix pat s then drop (String.length pat) s
  else match s with
       | EmptyString => EmptyString
       | String c s' => String c (replace_first pat s')
       end.

(** [s.replace(/^0x/i, empty)]: an anchored, case-insensitive [0x]. *)
Definition strip_0x (s : string) : string :=
  match s with
  | String "0" (String c s') =>
      if (Ascii.eqb c "x" || Ascii.eqb c "X")%bool then s' else s
  | _ => s
  end.

(** [s.substr(start)] and [s.substr(start, len)] for [start >= 0]. *)
Definition substr_from (start : nat) (s : string) : string := drop start s.
Definition substr (start len : nat) (s : string) : string :=
  String.substring start len s.

(** [s.substr(-k)]: the last [k] characters. *)
Definition substr_last (k : nat) (s : string) : string :=
  drop (String.length s - k) s.

Definition lower (c : ascii) : ascii :=
  let k := nat_of_ascii c in
  if (Nat.leb 65 k && Nat.leb k 90)%bool then ascii_of_nat (k + 32) else c.
Definition upper (c : ascii) : ascii :=
  let k := nat_of_ascii c in
  if (Nat.leb 97 k && Nat.leb k 122)%bool then ascii_of_nat (k - 32) else c.

Fixpoint map (f : ascii -> ascii) (s : string) : string :=
  match s with
  | EmptyString => EmptyString
  | String c s' => String (f c) (map f s')
  end.

Definition toLowerCase : string -> string := map lower.

(** White space removed by [trim], within the 8-bit characters. *)
Definition is_space (c : ascii) : bool :=
  let k := nat_of_ascii c in
  ((Nat.leb 9 k && Nat.leb k 13) || Nat.eqb k 32 || Nat.eqb k 160)%bool.

Fixpoint trim_start (s : string) : string :=
  match s with
  | String c s' => if is_space c then trim_start s' else s
  | EmptyString => EmptyString
  end.

Fixpoint trim_end (s : string) : string :=
  match s with
  | EmptyString => EmptyString
  | String c s' =>
      match trim_end s' with
      | EmptyString => if is_space c then EmptyString else String c EmptyString
      | t => String c t
      end
  end.

Definition trim (s : string) : string := trim_end (trim_start s).

Fixpoint forallb (f : ascii -> bool) (s : string) : bool :=
  match s with
  | EmptyString => true
  | String c s' => f c && forallb f s'
  end.

End Str.

(** ** Hexadecimal text and buffers *)

Module Hex.

(** The character of a digit value, [0-9a-f]. *)
Definition digit (d : Z) : ascii :=
  ascii_of_nat (Z.to_nat (if d <? 10 then 48 + d else 87 + d)).

(** The value of a digit character, [0-9], [a-f] or [A-F]. *)
Definition value (c : ascii) : option Z :=
  let k := Z.of_nat (nat_of_ascii c) in
  if (48 <=? k) && (k <=? 57) then Some (k - 48)
  else if (97 <=? k) && (k <=? 102) then Some (k - 87)
  else if (65 <=? k) && (k <=? 70) then Some (k - 55)
  else None.

Definition is_digit (c : ascii) : bool :=
  match value c with Some _ => true | None => false end.

(** The [len] low hexadecimal digits of [z], most significant first,
    in front of [acc]. *)
Fixpoint fixed (len : nat) (z : Z) (acc : string) : string :=
  match len with
  | O => acc
  | S l => fixed l (z / 16) (String (digit (z mod 16)) acc)
  end.

(** Base-16 reading of a digit string, from the accumulator [a]. *)
Fixpoint parse_from (a : Z) (s : string) : option Z :=
  match s with
  | EmptyString => Some a
  | String c s' =>
      match value c with
      | Some d => parse_from (16 * a + d) s'
      | None => None
      end
  end.

Definition parse (s : string) : option Z := parse_from 0 s.

Definition byte_of_Z (z : Z) : byte :=
  match Byte.of_N (Z.to_N (z mod 256)) with
  | Some b => b
  | None => x00
  end.
Definition Z_of_byte (b : byte) : Z := Z.of_N (Byte.to_N b).

(** [Buffer.from(s, "hex")]: pairs of digits are decoded until the first
    pair that is not hexadecimal; a trailing odd digit is dropped. *)
Fixpoint to_buffer (s : string) : list byte :=
  match s with
  | String c1 (String c2 s') =>
      match value c1, value c2 with
      | Some h, Some l => byte_of_Z (16 * h + l) :: to_buffer s'
      | _, _ => []
      end
  | _ => []
  end.

(** [buf.toString("hex")]. *)
Fixpoint of_buffer (buf : list byte) : string :=
  match buf with
  | [] => EmptyString
  | b :: buf' =>
      String (digit (Z_of_byte b / 16))
        (String (digit (Z_of_byte b mod 16)) (of_buffer buf'))
  end.

(** [Buffer.from(s, "utf-8")] on 8-bit text below 128. *)
Fixpoint utf8 (s : string) : list byte :=
  match s with
  | EmptyString => []
  | String c s' => byte_of_Z (Z.of_nat (nat_of_ascii c)) :: utf8 s'
  end.

End Hex.

(** ** bn.js *)

Module BN.

(** Number of hexadecimal digits of the magnitude, at least one. *)
Definition hexLength (z : Z) : nat :=
  if Z.abs z =? 0 then 1%nat else Z.to_nat (Z.log2 (Z.abs z) / 4 + 1).

(** [byteLength()]: [ceil(bitLength / 8)], zero for zero. *)
Definition byteLength (z : Z) : nat :=
  if Z.abs z =? 0 then 0%nat else Z.to_nat (Z.log2 (Z.abs z) / 8 + 1).

(** Smallest multiple of [padding] that is at least [len]. *)
Definition round_up (len padding : nat) : nat :=
  match padding with
  | O => len
  | _ => (((len + padding - 1) / padding) * padding)%nat
  end.

(** [num.toString(16, padding)] (also [toString("hex", padding)]): the
    digits are zero-padded on the left to a multiple of [padding]. *)
Definition toString16 (z : Z) (padding : nat) : string :=
  let body := Hex.fixed (round_up (hexLength z) padding) (Z.abs z) EmptyString in
  if z <? 0 then String "-" body else body.

(** The [len] low bytes of [z], most significant first. *)
Fixpoint be_bytes (len : nat) (z : Z) (acc : list byte) : list byte :=
  match len with
  | O => acc
  | S l => be_bytes l (z / 256) (Hex.byte_of_Z (z mod 256) :: acc)
  end.

(** [num.toBuffer("be", length)]: the requested length is
    [length || Math.max(1, byteLength)], so without [length] (or with 0)
    the buffer has [max(1, byteLength)] bytes; otherwise the number must
    fit. *)
Definition toBuffer (z : Z) (length : option nat) : result (list byte) :=
  let reqLength :=
    match length with
    | Some (S l) => S l
    | _ => Nat.max 1 (byteLength z)
    end in
  if (Nat.leb (byteLength z) reqLength && Nat.ltb 0 reqLength)%bool
  then Ret (be_bytes reqLength (Z.abs z) [])
  else Throw (LibError "byte array longer than desired length").

(** [a.umod(m)] for a positive modulus. *)
Definition umod (a m : Z) : Z := a mod m.

End BN.

(** ** web3-utils: toBN (number-to-bn on a string argument) *)

Definition stripHexPrefix (s : string) : string :=
  if String.prefix "0x" s then Str.drop 2 s else s.

(** Base-10 reading, for [new BN(text, 10)]. *)
Fixpoint parse_dec_from (a : Z) (s : string) : option Z :=
  match s with
  | EmptyString => Some a
  | String c s' =>
      match Hex.value c with
      | Some d => if d <? 10 then parse_dec_from (10 * a + d) s' else None
      | None => None
      end
  end.

Definition is_dec (c : ascii) : bool :=
  match Hex.value c with Some d => d <? 10 | None => false end.

(** [/^-?[0-9]+$/] and [/^[0-9A-Fa-f]+$/]. *)
Definition match_decimal (s : string) : bool :=
  match s with
  | String "-" (String c r) => Str.forallb is_dec (String c r)
  | String c r => Str.forallb is_dec (String c r)
  | EmptyString => false
  end.
Definition match_hex (s : string) : bool :=
  match s with
  | EmptyString => false
  | _ => Str.forallb Hex.is_digit s
  end.

Definition toBN (arg : string) : result Z :=
  let formatted := Str.trim (Str.toLowerCase arg) in
  let isHexPrefixed :=
    (String.prefix "0x" formatted || String.prefix "-0x" formatted)%bool in
  let stripped := stripHexPrefix formatted in
  let '(stringArg, multiplier) :=
    if String.prefix "-" stripped
    then (stripHexPrefix (Str.drop 1 stripped), -1)
    else (stripped, 1) in
  let stringArg := if String.eqb stringArg EmptyString then "0" else stringArg in
  if (match_hex stringArg && (negb (match_decimal stringArg) || isHexPrefixed))%bool
  then
    match Hex.parse stringArg with
    | Some v => Ret (v * multiplier)
    | None => Throw (LibError "invalid number value")
    end
  else if (match_decimal stringArg && negb isHexPrefixed)%bool then
    let negative := String.prefix "-" stringArg in
    let digits := if negative then Str.drop 1 stringArg else stringArg in
    match parse_dec_from 0 digits with
    | Some v => Ret ((if negative then - v else v) * multiplier)
    | None => Throw (LibError "invalid number value")
    end
  else Throw (LibError "invalid number value").

(** ** elliptic: short Weierstrass curves, affine points

    A point object is either the point at infinity ([inf], with null
    coordinates) or carries two coordinates reduced modulo [p]. *)

Inductive point : Type :=
| Inf
| Aff (x y : Z).

Module EC.

(** The preset behind [new EC(name)]: field prime, whether the
    reduction context is the pseudo-Mersenne one of [prime: "k256"],
    curve coefficients, group order and generator. *)
Record t : Type :=
  mk { p : Z; k256 : bool; a : Z; b : Z; n : Z; g : point }.

(** *** bn.js reduction contexts *)

Definition bitLength (z : Z) : Z := if z =? 0 then 0 else Z.log2 z + 1.

(** [MPrime.prototype.ireduce] for [k256]: with
    [p = 2^256 - 0x1000003d1], the part above bit 256 is multiplied by
    the constant and added to the low part, until 256 bits are left. *)
Definition K256_k : Z := 0x1000003d1.

Fixpoint ireduce_loop (m : Z) (fuel : nat) (r : Z) : Z :=
  let hi := Z.shiftr r 256 in
  let lo := Z.land r (Z.ones 256) in
  let r' := hi * K256_k + lo in
  if 256 <? bitLength r' then
    match fuel with
    | S fuel' => ireduce_loop m fuel' r'
    | O => r' mod m
    end
  else r'.

Definition ireduce (m : Z) (num : Z) : Z :=
  let r := ireduce_loop m 8 num in
  if r =? m then 0 else if m <? r then r - m else r.

(** [BN.prototype._invmp]: the binary extended Euclidean algorithm.
    bn.js strips up to 26 trailing zero bits of [a], then of [b], in
    one round; here one bit is stripped per round. *)
Definition half (delta x : Z) : Z :=
  Z.div2 (if Z.odd x then x + delta else x).

Fixpoint invmp_loop (fuel : nat) (delta a b x1 x2 : Z) : Z :=
  match fuel with
  | O => x1
  | S fuel' =>
      if (1 <? a) && (1 <? b) then
        if Z.even a then invmp_loop fuel' delta (Z.div2 a) b (half delta x1) x2
        else if Z.even b then invmp_loop fuel' delta a (Z.div2 b) x1 (half delta x2)
        else if b <=? a then invmp_loop fuel' delta (a - b) b (x1 - x2) x2
        else invmp_loop fuel' delta a (b - a) x1 (x2 - x1)
      else if a =? 1 then x1 else x2
  end.

Definition invmp_fuel (m : Z) : nat := Z.to_nat (4 * Z.log2 m + 8).

Definition invmp (x m : Z) : Z :=
  let a := if x <? 0 then x mod m else x in
  let res := invmp_loop (invmp_fuel m) m a m 1 0 in
  if res <? 0 then res + m else res.

Section Curve.
Variable c : t.

(** [Red.prototype.imod]. *)
Definition imod (z : Z) : Z :=
  if k256 c then ireduce (p c) z else z mod p c.

Definition redAdd (x y : Z) : Z :=
  let res := x + y in if p c <=? res then res - p c else res.
Definition redSub (x y : Z) : Z :=
  let res := x - y in if res <? 0 then res + p c else res.
Definition redNeg (x : Z) : Z := if x =? 0 then 0 else p c - x.
Definition redMul (x y : Z) : Z := imod (x * y).
Definition redSqr (x : Z) : Z := imod (x * x).
Definition redInvm (x : Z) : Z :=
  let inv := invmp x (p c) in
  if inv <? 0 then redNeg (imod (- inv)) else imod inv.

(** [curve.point(x, y)]: the coordinates are brought into the field. *)
Definition mkpoint (x y : Z) : point := Aff (x mod p c) (y mod p c).


Definition isInfinity (P : point) : bool :=
  match P with Inf => true | Aff _ _ => false end.

(** [Point.prototype.eq]. *)
Definition eq (P Q : point) : bool :=
  match P, Q with
  | Inf, Inf => true
  | Aff x1 y1, Aff x2 y2 => (x1 =? x2) && (y1 =? y2)
  | _, _ => false
  end.

(** [Point.prototype.neg]. *)
Definition neg (P : point) : point :=
  match P with
  | Inf => Inf
  | Aff x y => Aff x (redNeg y)
  end.

(** [Point.prototype.dbl]. *)
Definition dbl (P : point) : point :=
  match P with
  | Inf => Inf
  | Aff x y =>
      let ys1 := redAdd y y in
      if ys1 =? 0 then Inf
      else
        let x2 := redSqr x in
        let dyinv := redInvm ys1 in
        let c' := redMul (redAdd (redAdd (redAdd x2 x2) x2) (a c)) dyinv in
        let nx := redSub (redSqr c') (redAdd x x) in
        let ny := redSub (redMul c' (redSub x nx)) y in
        Aff nx ny
  end.

(** [Point.prototype.add]. *)
Definition add (P Q : point) : point :=
  match P, Q with
  | Inf, _ => Q
  | _, Inf => P
  | Aff x1 y1, Aff x2 y2 =>
      if eq P Q then dbl P
      else if eq (neg P) Q then Inf
      else if x1 =? x2 then Inf
      else
        let c0 := redSub y1 y2 in
        let c' := if negb (c0 =? 0)
                  then redMul c0 (redInvm (redSub x1 x2)) else c0 in
        let nx := redSub (redSub (redSqr c') x1) x2 in
        let ny := redSub (redMul c' (redSub x1 nx)) y1 in
        Aff nx ny
  end.

(** [ShortCurve.prototype.validate]: the curve equation; the point at
    infinity passes. *)
Definition validate (P : point) : bool :=
  match P with
  | Inf => true
  | Aff x y =>
      let ax := redMul (a c) x in
      let rhs := redAdd (redAdd (redMul (redSqr x) x) ax) (b c) in
      redSub (redSqr y) rhs =? 0
  end.

(** [Point.prototype.mul]: the scalar multiple.  elliptic computes it
    with windowed non-adjacent forms (and the endomorphism of
    secp256k1); for a multiplier that is not negative its value is the
    one of binary double-and-add.  The multipliers that this file
    computes itself are digests and residues, never negative.  A
    negative multiplier can only come in as the challenge of a signature
    handed to [schnorrVerify]; there elliptic runs its windowed
    algorithms on a signed number, and what comes out (it depends on the
    tables the point object carries) is in general not the opposite of
    the positive multiple.  That value is not modelled: the definition
    puts the opposite of the positive multiple in its place, and what is
    stated below for every signature holds whichever point stands
    there. *)
Fixpoint pmul (P : point) (k : positive) : point :=
  match k with
  | xH => P
  | xO k' => pmul (dbl P) k'
  | xI k' => add P (pmul (dbl P) k')
  end.

Definition mul (P : point) (k : Z) : point :=
  match P with
  | Inf => Inf
  | _ =>
      match k with
      | Z0 => Inf
      | Zpos q => pmul P q
      | Zneg q => neg (pmul P q)
      end
  end.

(** [getX()] and [getY()] read a coordinate out of the reduction
    context; on the point at infinity the coordinate is null. *)
Definition getX (P : point) : result Z :=
  match P with
  | Inf => Throw (TypeError "Cannot read properties of null (reading 'fromRed')")
  | Aff x _ => Ret x
  end.
Definition getY (P : point) : result Z :=
  match P with
  | Inf => Throw (TypeError "Cannot read properties of null (reading 'fromRed')")
  | Aff _ y => Ret y
  end.

(** Coordinates of a point object lie in [0, p). *)
Definition reduced (P : point) : bool :=
  match P with
  | Inf => true
  | Aff x y => (0 <=? x) && (x <? p c) && (0 <=? y) && (y <? p c)
  end.

End Curve.

(** The preset [secp256k1]: [y^2 = x^3 + 7] over the prime
    [2^256 - 2^32 - 977]. *)
Definition secp256k1 : t :=
  {| p := 0xfffffffffffffffffffffffffffffffffffffffffffffffffffffffefffffc2f;
     k256 := true;
     a := 0;
     b := 7;
     n := 0xfffffffffffffffffffffffffffffffebaaedce6af48a03bbfd25e8cd0364141;
     g := Aff 0x79be667ef9dcbbac55a06295ce870b07029bfcdb2dce28d959f2815b16f81798
              0x483ada7726a3c4655da4fbfc0e1108a8fd17b448a68554199c47d08ffb10d4b8 |}.

(** A curve of the same shape over the field of 13 elements; its group
    has 7 points. *)
Definition tiny : t :=
  {| p := 13; k256 := false; a := 0; b := 7; n := 7; g := Aff 7 5 |}.

End EC.

(** ** The same arithmetic on machine-word integers

    [Z] is a list of bits, too slow for 256-bit scalar multiplications.
    [Fast] repeats the arithmetic of [EC] on Bignums' [bigZ], operation
    by operation; the theorems [Fast*.mul_correct] further down show that
    it computes the very same points, so it serves to evaluate [EC.mul]
    on secp256k1. *)

Module Fast.

Inductive fpoint : Type :=
| FInf
| FAff (x y : bigZ).

Definition to_point (P : fpoint) : point :=
  match P with
  | FInf => Inf
  | FAff x y => Aff (BigZ.to_Z x) (BigZ.to_Z y)
  end.

Definition of_point (P : point) : fpoint :=
  match P with
  | Inf => FInf
  | Aff x y => FAff (BigZ.of_Z x) (BigZ.of_Z y)
  end.

Definition bitLength (z : bigZ) : bigZ :=
  if BigZ.eqb z (BigZ.of_Z 0) then BigZ.of_Z 0
  else BigZ.add (BigZ.log2 z) (BigZ.of_Z 1).

Fixpoint ireduce_loop (m : bigZ) (fuel : nat) (r : bigZ) : bigZ :=
  let hi := BigZ.shiftr r (BigZ.of_Z 256) in
  let lo := BigZ.land r (BigZ.of_Z (Z.ones 256)) in
  let r' := BigZ.add (BigZ.mul hi (BigZ.of_Z EC.K256_k)) lo in
  if BigZ.ltb (BigZ.of_Z 256) (bitLength r') then
    match fuel with
    | S fuel' => ireduce_loop m fuel' r'
    | O => BigZ.modulo r' m
    end
  else r'.

Definition ireduce (m num : bigZ) : bigZ :=
  let r := ireduce_loop m 8 num in
  if BigZ.eqb r m then BigZ.of_Z 0
  else if BigZ.ltb m r then BigZ.sub r m else r.

Definition half (delta x : bigZ) : bigZ :=
  BigZ.div2 (if BigZ.odd x then BigZ.add x delta else x).

Fixpoint invmp_loop (fuel : nat) (delta a b x1 x2 : bigZ) : bigZ :=
  match fuel with
  | O => x1
  | S fuel' =>
      if BigZ.ltb (BigZ.of_Z 1) a && BigZ.ltb (BigZ.of_Z 1) b then
        if BigZ.even a
        then invmp_loop fuel' delta (BigZ.div2 a) b (half delta x1) x2
        else if BigZ.even b
        then invmp_loop fuel' delta a (BigZ.div2 b) x1 (half delta x2)
        else if BigZ.leb b a
        then invmp_loop fuel' delta (BigZ.sub a b) b (BigZ.sub x1 x2) x2
        else invmp_loop fuel' delta a (BigZ.sub b a) x1 (BigZ.sub x2 x1)
      else if BigZ.eqb a (BigZ.of_Z 1) then x1 else x2
  end.

Definition invmp (fuel : nat) (x m : bigZ) : bigZ :=
  let a := if BigZ.ltb x (BigZ.of_Z 0) then BigZ.modulo x m else x in
  let res := invmp_loop fuel m a m (BigZ.of_Z 1) (BigZ.of_Z 0) in
  if BigZ.ltb res (BigZ.of_Z 0) then BigZ.add res m else res.

Section Curve.
Variable c : EC.t.

Definition p : bigZ := BigZ.of_Z (EC.p c).
Definition a : bigZ := BigZ.of_Z (EC.a c).

Definition imod (z : bigZ) : bigZ :=
  if EC.k256 c then ireduce p z else BigZ.modulo z p.

Definition redAdd (x y : bigZ) : bigZ :=
  let res := BigZ.add x y in
  if BigZ.leb p res then BigZ.sub res p else res.
Definition redSub (x y : bigZ) : bigZ :=
  let res := BigZ.sub x y in
  if BigZ.ltb res (BigZ.of_Z 0) then BigZ.add res p else res.
Definition redNeg (x : bigZ) : bigZ :=
  if BigZ.eqb x (BigZ.of_Z 0) then BigZ.of_Z 0 else BigZ.sub p x.
Definition redMul (x y : bigZ) : bigZ := imod (BigZ.mul x y).
Definition redSqr (x : bigZ) : bigZ := imod (BigZ.mul x x).
Definition redInvm (x : bigZ) : bigZ :=
  let inv := invmp (EC.invmp_fuel (EC.p c)) x p in
  if BigZ.ltb inv (BigZ.of_Z 0)
  then redNeg (imod (BigZ.opp inv)) else imod inv.

Definition eq (P Q : fpoint) : bool :=
  match P, Q with
  | FInf, FInf => true
  | FAff x1 y1, FAff x2 y2 => BigZ.eqb x1 x2 && BigZ.eqb y1 y2
  | _, _ => false
  end.

Definition neg (P : fpoint) : fpoint :=
  match P with
  | FInf => FInf
  | FAff x y => FAff x (redNeg y)
  end.

Definition dbl (P : fpoint) : fpoint :=
  match P with
  | FInf => FInf
  | FAff x y =>
      let ys1 := redAdd y y in
      if BigZ.eqb ys1 (BigZ.of_Z 0) then FInf
      else
        let x2 := redSqr x in
        let dyinv := redInvm ys1 in
        let c' := redMul (redAdd (redAdd (redAdd x2 x2) x2) a) dyinv in
        let nx := redSub (redSqr c') (redAdd x x) in
        let ny := redSub (redMul c' (redSub x nx)) y in
        FAff nx ny
  end.

Definition add (P Q : fpoint) : fpoint :=
  match P, Q with
  | FInf, _ => Q
  | _, FInf => P
  | FAff x1 y1, FAff x2 y2 =>
      if eq P Q then dbl P
      else if eq (neg P) Q then FInf
      else if BigZ.eqb x1 x2 then FInf
      else
        let c0 := redSub y1 y2 in
        let c' := if negb (BigZ.eqb c0 (BigZ.of_Z 0))
                  then redMul c0 (redInvm (redSub x1 x2)) else c0 in
        let nx := redSub (redSub (redSqr c') x1) x2 in
        let ny := redSub (redMul c' (redSub x1 nx)) y1 in
        FAff nx ny
  end.

Fixpoint pmul (P : fpoint) (k : positive) : fpoint :=
  match k with
  | xH => P
  | xO k' => pmul (dbl P) k'
  | xI k' => add P (pmul (dbl P) k')
  end.

Definition mul (P : fpoint) (k : Z) : fpoint :=
  match P with
  | FInf => FInf
  | _ =>
      match k with
      | Z0 => FInf
      | Zpos q => pmul P q
      | Zneg q => neg (pmul P q)
      end
  end.

End Curve.

End Fast.

(** ** Keccak-256

    The hash behind [web3.utils.keccak256]: Keccak-f[1600] on 25 lanes of
    64 bits, rate 136 bytes, the original [pad10*1] padding, 32 bytes of
    output. *)

Module Keccak.

Local Open Scope list_scope.

Definition w64 (z : Z) : Z := Z.land z (Z.ones 64).

Definition rotl (z : Z) (r : Z) : Z :=
  w64 (Z.lor (Z.shiftl z r) (Z.shiftr z (64 - r))).

Definition lane (st : list Z) (x y : nat) : Z :=
  nth (x mod 5 + 5 * (y mod 5)) st 0.

Definition rotation_offsets : list Z :=
  [ 0;  1; 62; 28; 27;
   36; 44;  6; 55; 20;
    3; 10; 43; 25; 39;
   41; 45; 15; 21;  8;
   18;  2; 61; 56; 14].

Definition round_constants : list Z :=
  [0x0000000000000001; 0x0000000000008082; 0x800000000000808a;
   0x8000000080008000; 0x000000000000808b; 0x0000000080000001;
   0x8000000080008081; 0x8000000000008009; 0x000000000000008a;
   0x0000000000000088; 0x0000000080008009; 0x000000008000000a;
   0x000000008000808b; 0x800000000000008b; 0x8000000000008089;
   0x8000000000008003; 0x8000000000008002; 0x8000000000000080;
   0x000000000000800a; 0x800000008000000a; 0x8000000080008081;
   0x8000000000008080; 0x0000000080000001; 0x8000000080008008].

Definition positions : list (nat * nat) :=
  flat_map (fun y => List.map (fun x => (x, y)) (seq 0 5)) (seq 0 5).

Definition theta (st : list Z) : list Z :=
  let C := fun x =>
    Z.lxor (lane st x 0) (Z.lxor (lane st x 1) (Z.lxor (lane st x 2)
      (Z.lxor (lane st x 3) (lane st x 4)))) in
  let D := fun x => Z.lxor (C (x + 4)%nat) (rotl (C (x + 1)%nat) 1) in
  List.map (fun '(x, y) => Z.lxor (lane st x y) (D x)) positions.

(** [rho] and [pi] together: lane [(x, y)] of the result is the rotated
    lane [(x + 3y, x)] of the argument. *)
Definition rho_pi (st : list Z) : list Z :=
  List.map (fun '(x, y) =>
              let x0 := ((x + 3 * y) mod 5)%nat in
              let y0 := x in
              rotl (lane st x0 y0) (nth (x0 + 5 * y0) rotation_offsets 0))
           positions.

Definition chi (st : list Z) : list Z :=
  List.map (fun '(x, y) =>
              Z.lxor (lane st x y)
                (Z.land (Z.lxor (lane st (x + 1) y) (Z.ones 64))
                        (lane st (x + 2) y)))
           positions.

Definition iota (rc : Z) (st : list Z) : list Z :=
  match st with
  | l0 :: rest => Z.lxor l0 rc :: rest
  | [] => []
  end.

Definition round (st : list Z) (rc : Z) : list Z :=
  iota rc (chi (rho_pi (theta st))).

Definition keccak_f (st : list Z) : list Z :=
  fold_left round round_constants st.

(** Little-endian lanes. *)
Fixpoint le_value (bs : list byte) : Z :=
  match bs with
  | [] => 0
  | b :: bs' => Hex.Z_of_byte b + 256 * le_value bs'
  end.

Fixpoint le_bytes (k : nat) (z : Z) : list byte :=
  match k with
  | O => []
  | S k' => Hex.byte_of_Z (z mod 256) :: le_bytes k' (z / 256)
  end.

Fixpoint lanes_of (k : nat) (bs : list byte) : list Z :=
  match k with
  | O => []
  | S k' => le_value (firstn 8 bs) :: lanes_of k' (skipn 8 bs)
  end.

Fixpoint xor_lanes (st blk : list Z) : list Z :=
  match st, blk with
  | s :: st', b :: blk' => Z.lxor s b :: xor_lanes st' blk'
  | _, [] => st
  | [], _ => []
  end.

Definition rate : nat := 136.

Definition x80 : byte := Hex.byte_of_Z 128.
Definition x81 : byte := Hex.byte_of_Z 129.
Definition x01 : byte := Hex.byte_of_Z 1.

(** [pad10*1] at the byte level. *)
Definition pad (len : nat) : list byte :=
  let q := (rate - len mod rate)%nat in
  match q with
  | 1%nat => [x81]
  | _ => x01 :: repeat x00 (q - 2) ++ [x80]
  end.

Fixpoint absorb (blocks : nat) (st : list Z) (msg : list byte) : list Z :=
  match blocks with
  | O => st
  | S blocks' =>
      let st' := keccak_f (xor_lanes st (lanes_of 17 (firstn rate msg))) in
      absorb blocks' st' (skipn rate msg)
  end.

Definition keccak256 (msg : list byte) : list byte :=
  let padded := msg ++ pad (List.length msg) in
  let st := absorb (List.length padded / rate) (repeat 0 25) padded in
  le_bytes 8 (nth 0 st 0) ++ le_bytes 8 (nth 1 st 0)
    ++ le_bytes 8 (nth 2 st 0) ++ le_bytes 8 (nth 3 st 0).

End Keccak.

(** ** JSON-like values carried through the pipeline *)

#[local] Unset Elimination Schemes.
Inductive jsval : Type :=
| JNull
| JStr (s : string)
| JNum (z : Z)
| JBool (b : bool)
| JArr (items : list jsval)
| JObj (members : list (string * jsval)).
#[local] Set Elimination Schemes.

(** A typed field [{ name, type, value }] of the signed payload. *)
Module Field.
Record t : Type := mk { name : string; type : string; value : jsval }.
End Field.

(** An argument of [soliditySha3]: a bare string or a typed field. *)
Inductive sha3_arg : Type :=
| ArgString (s : string)
| ArgField (f : Field.t).

(** The signature object [{ s, e }]. *)
Module Sig.
Record t : Type := mk { s : Z; e : Z }.
End Sig.

(** [sig] as [schnorrVerify] receives it: text or object. *)
Inductive sig_arg : Type :=
| SigString (text : string)
| SigObject (sg : Sig.t).

(** [publicKey] as [validatePublicKey] receives it: text or point. *)
Inductive key_arg : Type :=
| KeyString (text : string)
| KeyPoint (P : point).

(** [pub2json]'s object; [address] and [encoded] are absent in the
    minimal view. *)
Module PubJson.
Record t : Type :=
  mk { address : option string; encoded : option string;
       x : string; yParity : string }.
End PubJson.

Module SignatureEntry.
Record t : Type :=
  mk { owner : string; ownerPubKey : PubJson.t; signature : string }.
End SignatureEntry.

Module Data.
Record t : Type :=
  mk { params : jsval; timestamp : Z; signParams : option (list Field.t) }.
End Data.

(** The response object of [runMuonApp]; [reqId] starts as null, and
    [data.signParams] and [signatures] are added at the end. *)
Module Response.
Record t : Type :=
  mk { reqId : option string; app : string; appId : string;
       method : jsval; data : Data.t;
       signatures : option (list SignatureEntry.t) }.
End Response.

Module Request.
Record t : Type :=
  mk { app : string; method : jsval; params : option jsval }.
End Request.

(** A computation module under [./muon-apps/].  Its callbacks are handed
    the response object itself and may write to it: each one returns its
    value together with the contents it leaves in the object.  (A module
    is taken to keep the shape of the object: every field stays of its
    type.) *)
Module MuonApp.
Record t : Type :=
  mk { onRequest : Response.t -> result (jsval * Response.t);
       signParams : Response.t -> jsval
                    -> result (list Field.t * Response.t) }.
End MuonApp.

(** What [runMuonApp] reads from outside: the modules that resolve, the
    clock in milliseconds, the private scalar parsed from
    [process.env.PRIVATE_KEY], and the successive private scalars drawn by
    [curve.genKeyPair()]. *)
Module Env.
Record t : Type :=
  mk { modules : string -> option MuonApp.t;
       now : Z;
       PRIVATE_KEY : Z;
       random : nat -> Z }.
End Env.

(** [BigInt(text).toString(10)] for hexadecimal or decimal text (the
    binary and octal prefixes are left out). *)
Definition decimal (z : Z) : string :=
  DecimalString.NilZero.string_of_int (Z.to_int z).

Definition BigInt_syntax : exn :=
  LibError "SyntaxError: Cannot convert to a BigInt".

Definition BigInt_decimal (digits : string) (sign : Z) : result Z :=
  if match_decimal digits && Str.forallb is_dec digits then
    match parse_dec_from 0 digits with
    | Some v => Ret (sign * v)
    | None => Throw BigInt_syntax
    end
  else Throw BigInt_syntax.

Definition BigInt (text : string) : result Z :=
  let t := Str.trim text in
  match t with
  | EmptyString => Ret 0
  | String "0" (String c r) =>
      if (Ascii.eqb c "x" || Ascii.eqb c "X")%bool then
        if match_hex r then
          match Hex.parse r with
          | Some v => Ret v
          | None => Throw BigInt_syntax
          end
        else Throw BigInt_syntax
      else BigInt_decimal t 1
  | String "-" r => BigInt_decimal r (-1)
  | String "+" r => BigInt_decimal r 1
  | _ => BigInt_decimal t 1
  end.

(** * src/utils.js *)

Section Utils.

(** [const curve = new EC("secp256k1")], kept as a parameter so that the
    same code can also be run on a small curve. *)
Variable curve : EC.t.

(** The Keccak-256 digest behind [keccak256]. *)
Variable keccak : list byte -> list byte.

(** [soliditySha3(...args)]: tightly packed encoding, then Keccak-256;
    it raises on a value that does not fit its type. *)
Variable soliditySha3 : list sha3_arg -> result string.

(** [keccak256(buffer)] and [sha3(text)] of web3-utils return the digest
    as 0x-prefixed lower-case hexadecimal text.  (web3 1.x answers null
    for the digest of the empty input; the buffers hashed in this file
    are never empty, and the model takes the digest as always present.) *)
Definition keccak256 (buf : list byte) : string :=
  "0x" ++ Hex.of_buffer (keccak buf).

Definition sha3_text (text : string) : string :=
  keccak256 (Hex.utf8 text).

(** [toChecksumAddress]: EIP-55 casing. *)
Fixpoint checksum_case (address addressHash : string) : string :=
  match address, addressHash with
  | String c a', String h h' =>
      let c' := match Hex.value h with
                | Some v => if v >? 7 then Str.upper c else c
                | None => c
                end in
      String c' (checksum_case a' h')
  | _, _ => address
  end.

Definition toChecksumAddress (address : string) : result string :=
  let body := Str.strip_0x address in
  if (Nat.eqb (String.length body) 40 && Str.forallb Hex.is_digit body)%bool
  then
    let address := Str.toLowerCase body in
    let addressHash := Str.strip_0x (sha3_text address) in
    Ret ("0x" ++ checksum_case address addressHash)
  else Throw (LibError "Given address is not a valid Ethereum address.").

(** [point.encode("hex", compact)] of elliptic. *)
Definition encode (P : point) (compact : bool) : result string :=
  let len := BN.byteLength (EC.p curve) in
  x <- EC.getX P ;;
  xb <- BN.toBuffer x (Some len) ;;
  y <- EC.getY P ;;
  if compact then
    Ret (Hex.of_buffer
           (Hex.byte_of_Z (if Z.even y then 2 else 3) :: xb))
  else
    yb <- BN.toBuffer y (Some len) ;;
    Ret (Hex.of_buffer ((Hex.byte_of_Z 4 :: xb) ++ yb)%list).

(** Lines 9-12. [keyFromPublic] is not declared anywhere in the file, so
    the string branch ends in a ReferenceError. *)
Definition validatePublicKey (publicKey : key_arg) : result bool :=
  match publicKey with
  | KeyString _ => Throw (ReferenceError "keyFromPublic")
  | KeyPoint P => Ret (EC.validate curve P)
  end.

(** Lines 14-16. *)
Definition bn2hex (num : Z) (byteLength : option nat) : result string :=
  buf <- BN.toBuffer num byteLength ;;
  Ret ("0x" ++ Hex.of_buffer buf).

(** Lines 18-22. *)
Definition pub2addr (publicKey : point) : result string :=
  enc <- encode publicKey false ;;
  let pubKeyHex := Str.substr_from 2 enc in
  let pub_hash := keccak256 (Hex.to_buffer pubKeyHex) in
  toChecksumAddress ("0x" ++ Str.substr_last 40 pub_hash).

(** Lines 24-36. *)
Definition pub2json (pubkey : point) (minimal : bool) : result PubJson.t :=
  extra <- (if minimal then Ret (None, None)
            else
              address <- pub2addr pubkey ;;
              encoded <- encode pubkey true ;;
              Ret (Some address, Some encoded)) ;;
  x <- EC.getX pubkey ;;
  xb <- BN.toBuffer x (Some 32%nat) ;;
  y <- EC.getY pubkey ;;
  Ret {| PubJson.address := fst extra;
         PubJson.encoded := snd extra;
         PubJson.x := "0x" ++ Hex.of_buffer xb;
         PubJson.yParity := decimal (y mod 2) |}.

(** Lines 61-73. *)
Definition schnorrHash (signingPublicKey : point)
    (nonceTimesGeneratorAddress msg : string) : result string :=
  x <- EC.getX signingPublicKey ;;
  signingPubKeyX <- BN.toBuffer x (Some 32%nat) ;;
  y <- EC.getY signingPublicKey ;;
  let pubKeyYParity := Hex.to_buffer (if Z.even y then "00" else "01") in
  let msgHash := Hex.to_buffer (Str.strip_0x msg) in
  let nonceGeneratorAddress :=
    Hex.to_buffer (Str.strip_0x nonceTimesGeneratorAddress) in
  let totalBuff :=
    (signingPubKeyX ++ pubKeyYParity ++ msgHash ++ nonceGeneratorAddress)%list in
  Ret (keccak256 totalBuff).

(** Lines 38-49. *)
Definition schnorrSign (signingShare : Z) (signingPubKey : point)
    (nonceShare : Z) (noncePublicKey : point) (msg : string)
    : result Sig.t :=
  nonceTimesGeneratorAddress <- pub2addr noncePublicKey ;;
  h <- schnorrHash signingPubKey nonceTimesGeneratorAddress msg ;;
  e <- toBN h ;;
  let s := BN.umod (nonceShare - signingShare * e) (EC.n curve) in
  Ret {| Sig.s := s; Sig.e := e |}.

(** Lines 75-83. *)
Definition pointAdd (point1 point2 : point) : point :=
  let result := EC.add curve point1 point2 in
  if Bool.eqb (EC.validate curve point1 && EC.validate curve point2) false
  then EC.g curve
  else result.

(** Lines 85-87. *)
Definition stringifySignature (sign : Sig.t) : string :=
  "0x" ++ BN.toString16 (Sig.e sign) 64 ++ BN.toString16 (Sig.s sign) 64.

(** Lines 89-96. *)
Definition splitSignature (signature : string) : result Sig.t :=
  let bytes := Str.replace_first "0x" signature in
  if negb (Nat.eqb (String.length bytes) 128)
  then Throw (ThrowString "invalid schnorr signature string")
  else
    e <- toBN ("0x" ++ Str.substr 0 64 bytes) ;;
    s <- toBN ("0x" ++ Str.substr 64 64 bytes) ;;
    Ret {| Sig.s := s; Sig.e := e |}.

(** Lines 51-59. *)
Definition schnorrVerify (signingPublicKey : key_arg) (msg : string)
    (sig : sig_arg) : result bool :=
  sig <- match sig with
         | SigString text => splitSignature text
         | SigObject sg => Ret sg
         end ;;
  valid <- validatePublicKey signingPublicKey ;;
  if negb valid then Ret false
  else
    match signingPublicKey with
    | KeyString _ => Throw (TypeError "signingPublicKey.mul is not a function")
    | KeyPoint P =>
        let s := BN.umod (Sig.s sig) (EC.n curve) in
        let r_v := pointAdd (EC.mul curve (EC.g curve) s)
                            (EC.mul curve P (Sig.e sig)) in
        nonceTimesGeneratorAddress <- pub2addr r_v ;;
        e_v <- schnorrHash P nonceTimesGeneratorAddress msg ;;
        e_v' <- toBN e_v ;;
        Ret (e_v' =? Sig.e sig)
    end.

(** [curve.genKeyPair()] and [curve.keyFromPrivate(text)]: a key pair
    is its private scalar; [getPublic()] multiplies the generator. *)
Definition getPublic (priv : Z) : point :=
  EC.mul curve (EC.g curve) priv.

Definition keyFromPrivate (key : Z) : Z := BN.umod key (EC.n curve).

(** [getPrivate("hex")]. *)
Definition getPrivate_hex (priv : Z) : string := BN.toString16 priv 2.

(** Lines 98-105, against the modules of the environment. *)
Definition moduleIsAvailable (env : Env.t) (path : string) : bool :=
  match Env.modules env path with
  | Some _ => true
  | None => false
  end.

(** [require(path)] of a module of the environment. *)
Definition require (env : Env.t) (path : string) : result MuonApp.t :=
  match Env.modules env path with
  | Some muonApp => Ret muonApp
  | None => Throw (LibError "Cannot find module")
  end.

(** Lines 107-157. The two [genKeyPair()] calls take the draws 0 and 1
    of the environment.  [response] is one object from line 117 to the
    [return]: the module's callbacks may have written to it, so line 134
    reads [appId] from what they left, and the returned object keeps
    [app], [appId], [method] and [data] as they left them, with
    [reqId], [data.signParams] and [signatures] set by lines 132-155. *)
Definition runMuonApp (env : Env.t) (request : Request.t)
    : result Response.t :=
  let app := Request.app request in
  let method := Request.method request in
  let params := match Request.params request with
                | Some v => v
                | None => JObj []
                end in
  let appPath := "./muon-apps/" ++ app ++ ".js" in
  if negb (moduleIsAvailable env appPath)
  then Throw (ThrowObject "App not found on optimistic node")
  else
    idHash <- soliditySha3 [ArgString (app ++ ".js")] ;;
    idNumber <- BigInt idHash ;;
    let appId := decimal idNumber in
    let response :=
      {| Response.reqId := None;
         Response.app := app;
         Response.appId := appId;
         Response.method := method;
         Response.data :=
           {| Data.params := params;
              Data.timestamp := Env.now env / 1000;
              Data.signParams := None |};
         Response.signatures := None |} in
    muonApp <- require env appPath ;;
    called <- MuonApp.onRequest muonApp response ;;
    let onRequestResult := fst called in
    let response := snd called in
    asked <- MuonApp.signParams muonApp response onRequestResult ;;
    let appSignParams := fst asked in
    let response := snd asked in
    hashSecurityParams <- soliditySha3 (List.map ArgField appSignParams) ;;
    let reqId := "0x" ++ getPrivate_hex (Env.random env 0%nat) in
    let signParams :=
      ({| Field.name := "appId"; Field.type := "uint256";
          Field.value := JStr (Response.appId response) |}
       :: {| Field.name := "reqId"; Field.type := "uint256";
             Field.value := JStr reqId |}
       :: appSignParams)%list in
    hashToBeSigned <- soliditySha3 (List.map ArgField signParams) ;;
    let nonce := Env.random env 1%nat in
    let account := keyFromPrivate (Env.PRIVATE_KEY env) in
    let verifyingPubKey := getPublic account in
    sig <- schnorrSign account (getPublic account)
             nonce (getPublic nonce) hashToBeSigned ;;
    owner <- pub2addr verifyingPubKey ;;
    ownerPubKey <- pub2json verifyingPubKey true ;;
    signature <- bn2hex (Sig.s sig) None ;;
    Ret {| Response.reqId := Some reqId;
           Response.app := Response.app response;
           Response.appId := Response.appId response;
           Response.method := Response.method response;
           Response.data :=
             {| Data.params := Data.params (Response.data response);
                Data.timestamp := Data.timestamp (Response.data response);
                Data.signParams := Some signParams |};
           Response.signatures :=
             Some [ {| SignatureEntry.owner := owner;
                       SignatureEntry.ownerPubKey := ownerPubKey;
                       SignatureEntry.signature := signature |} ] |}.

(** The challenge that [schnorrVerify] recomputes (lines 54-57). *)
Definition recomputedChallenge (P : point) (msg : string) (sig : Sig.t)
    : result Z :=
  let s := BN.umod (Sig.s sig) (EC.n curve) in
  let r_v := pointAdd (EC.mul curve (EC.g curve) s)
                      (EC.mul curve P (Sig.e sig)) in
  nonceTimesGeneratorAddress <- pub2addr r_v ;;
  e_v <- schnorrHash P nonceTimesGeneratorAddress msg ;;
  toBN e_v.

End Utils.

(** ** The group behind a curve preset

    What sign-then-verify needs from the curve: the points that satisfy
    the equation, with reduced coordinates, are closed under an
    associative addition, and the generator has order [n].  These facts
    are checked by enumeration on [EC.tiny]. *)

Definition on_curve (c : EC.t) (P : point) : bool :=
  EC.reduced c P && EC.validate c P.

Record GroupLaws (c : EC.t) : Prop :=
  { p_range : 1 < EC.p c <= 2 ^ 256;
    n_pos : 0 < EC.n c;
    g_on_curve : on_curve c (EC.g c) = true;
    add_on_curve : forall P Q,
      on_curve c P = true -> on_curve c Q = true ->
      on_curve c (EC.add c P Q) = true;
    add_assoc : forall P Q R,
      on_curve c P = true -> on_curve c Q = true -> on_curve c R = true ->
      EC.add c (EC.add c P Q) R = EC.add c P (EC.add c Q R);
    g_order : EC.mul c (EC.g c) (EC.n c) = Inf;
    g_order_min : forall k, 0 < k < EC.n c -> EC.mul c (EC.g c) k <> Inf }.

(** The scalar multiple as repeated addition. *)
Fixpoint nmul (c : EC.t) (k : nat) (P : point) : point :=
  match k with
  | O => Inf
  | S k' => EC.add c P (nmul c k' P)
  end.

(** ** Concrete inputs *)

(** A digest of 32 zero bytes. *)
Definition zero_digest : string :=
  "0x0000000000000000000000000000000000000000000000000000000000000000".

(** [soliditySha3] on the argument kinds this file produces: bare
    strings, and fields of type [string], [uint256] (decimal or 0x text)
    and [bytes].  A bare string is packed as its UTF-8 text, which is
    what web3 does with a string that is neither numeric nor starts with
    [0x] or [-0x] (such a string web3 reads as a number or as bytes, and
    raises on an odd number of characters after [0x]); the bare string of
    [runMuonApp] ends in [.js], and the definition is used at
    application names outside those cases only. *)
Definition pack_arg (a : sha3_arg) : result (list byte) :=
  match a with
  | ArgString s => Ret (Hex.utf8 s)
  | ArgField f =>
      match Field.value f with
      | JStr v =>
          if String.eqb (Field.type f) "string" then Ret (Hex.utf8 v)
          else if String.eqb (Field.type f) "uint256" then
            z <- BigInt v ;; BN.toBuffer z (Some 32%nat)
          else if String.eqb (Field.type f) "bytes" then
            Ret (Hex.to_buffer (Str.strip_0x v))
          else Throw (LibError "unsupported type")
      | JNum z =>
          if String.eqb (Field.type f) "uint256"
          then BN.toBuffer z (Some 32%nat)
          else Throw (LibError "unsupported type")
      | _ => Throw (LibError "unsupported value")
      end
  end.

Fixpoint pack_args (args : list sha3_arg) : result (list byte) :=
  match args with
  | [] => Ret []
  | a :: rest =>
      b <- pack_arg a ;;
      bs <- pack_args rest ;;
      Ret (b ++ bs)%list
  end.

Definition soliditySha3_packed (args : list sha3_arg) : result string :=
  packed <- pack_args args ;;
  Ret (keccak256 Keccak.keccak256 packed).

(** A computation module that answers a fixed price and leaves the
    response object as it is. *)
Definition price_app : MuonApp.t :=
  {| MuonApp.onRequest := fun response =>
       Ret (JObj [("price", JStr "1250")], response);
     MuonApp.signParams := fun response _ =>
       Ret ([ {| Field.name := "price"; Field.type := "uint256";
                 Field.value := JStr "1250" |} ], response) |}.

Definition demo_env : Env.t :=
  {| Env.modules := fun path =>
       if String.eqb path "./muon-apps/price.js" then Some price_app else None;
     Env.now := 1700000000123;
     Env.PRIVATE_KEY := 1;
     Env.random := fun i => match i with O => 0xabcdef | _ => 2 end |}.

Definition demo_request : Request.t :=
  {| Request.app := "price"; Request.method := JStr "get";
     Request.params := None |}.

(** ** Vocabulary of the statements *)

(** Lower-case hexadecimal digits, as [toString(16)] and
    [toString("hex")] print them. *)
Definition is_lowhex (c : ascii) : bool :=
  match Hex.value c with
  | Some d => Ascii.eqb (Hex.digit d) c
  | None => false
  end.

Definition lowhex (s : string) : bool := Str.forallb is_lowhex s.

(** The number a buffer holds, big-endian. *)
Definition be_value (bs : list byte) : Z :=
  fold_left (fun a b => 256 * a + Hex.Z_of_byte b) bs 0.

(** Text of a signature with or without the [0x] prefix. *)
Definition with_prefix (prefixed : bool) (body : string) : string :=
  if prefixed then "0x" ++ body else body.

(** The points of [EC.tiny], by enumeration of the field. *)
Definition field_range (c : EC.t) : list Z :=
  List.map Z.of_nat (seq 0 (Z.to_nat (EC.p c))).

Definition curve_points (c : EC.t) : list point :=
  Inf :: flat_map (fun x =>
           flat_map (fun y => if on_curve c (Aff x y) then [Aff x y] else [])
                    (field_range c))
         (field_range c).

Definition closed_on (c : EC.t) (pts : list point) : bool :=
  forallb (fun P => forallb (fun Q => on_curve c (EC.add c P Q)) pts) pts.

Definition associative_on (c : EC.t) (pts : list point) : bool :=
  forallb (fun P => forallb (fun Q => forallb (fun R =>
    EC.eq (EC.add c (EC.add c P Q) R) (EC.add c P (EC.add c Q R)))
    pts) pts) pts.

Definition order_minimal (c : EC.t) : bool :=
  forallb (fun k => negb (EC.isInfinity (EC.mul c (EC.g c) (Z.of_nat k))))
          (seq 1 (Z.to_nat (EC.n c) - 1)).

(** The scenario of the specification: private scalar 1 (public key
    [G]), nonce 2, a digest of zero bytes.  [scenario_e] is the challenge
    and [scenario_s] the response that [schnorrSign] returns for it on
    secp256k1 with Keccak-256. *)
Definition scenario_e : Z :=
  0x3a219636aa1ef4d4784779b2916cfd17f1e3f1d1293c9611fb383b13aaf05cd9.
Definition scenario_s : Z :=
  0xc5de69c955e10b2b87b8864d6e9302e6c8caeb15860c0a29c49a23792545e46a.

Definition scenario_sig : Sig.t :=
  {| Sig.s := scenario_s; Sig.e := scenario_e |}.

(** The same signature with the challenge moved by the group order. *)
Definition shifted_e : Z := scenario_e + EC.n EC.secp256k1.
Definition shifted_sig : Sig.t :=
  {| Sig.s := scenario_s; Sig.e := shifted_e |}.

(** A digest function whose every output is 32 bytes [ff]. *)
Definition ones_digest (buf : list byte) : list byte :=
  repeat (Hex.byte_of_Z 255) 32.

(** Signature texts: one that is too short, and one of 130 characters
    with [0x] between two blocks of 64 digits. *)
Definition short_text : string := "0x1234".
Definition inner_0x_text : string :=
  "aaaaaaaaaaaaaaaaaaaaaaaaaaaaaaaaaaaaaaaaaaaaaaaaaaaaaaaaaaaaaaaa" ++ "0x" ++
  "bbbbbbbbbbbbbbbbbbbbbbbbbbbbbbbbbbbbbbbbbbbbbbbbbbbbbbbbbbbbbbbb".

(** A body of 128 digits, and a text whose 128 characters after the
    prefix are no digits. *)
Definition ab_body : string :=
  "aaaaaaaaaaaaaaaaaaaaaaaaaaaaaaaaaaaaaaaaaaaaaaaaaaaaaaaaaaaaaaaa" ++
  "bbbbbbbbbbbbbbbbbbbbbbbbbbbbbbbbbbbbbbbbbbbbbbbbbbbbbbbbbbbbbbbb".
Definition z_text : string :=
  "0x" ++
  "zzzzzzzzzzzzzzzzzzzzzzzzzzzzzzzzzzzzzzzzzzzzzzzzzzzzzzzzzzzzzzzz" ++
  "zzzzzzzzzzzzzzzzzzzzzzzzzzzzzzzzzzzzzzzzzzzzzzzzzzzzzzzzzzzzzzzz".

(** A point that does not satisfy the curve equation. *)
Definition off_curve : point := Aff 1 1.

Definition result_or {A : Type} (default : A) (m : result A) : A :=
  match m with
  | Ret a => a
  | Throw _ => default
  end.

Definition blank_response : Response.t :=
  {| Response.reqId := None; Response.app := EmptyString; Response.appId := EmptyString;
     Response.method := JNull;
     Response.data := {| Data.params := JNull; Data.timestamp := 0;
                         Data.signParams := None |};
     Response.signatures := None |}.

(** The response to [demo_request] on secp256k1. *)
Definition demo_response : Response.t :=
  Eval vm_compute in
    result_or blank_response
      (runMuonApp EC.secp256k1 Keccak.keccak256 soliditySha3_packed
                  demo_env demo_request).

(** An environment whose nonce draw leads to a response scalar below
    [2^248]. *)
Definition short_env : Env.t :=
  {| Env.modules := Env.modules demo_env;
     Env.now := Env.now demo_env;
     Env.PRIVATE_KEY := 1;
     Env.random := fun i => match i with O => 0xabcdef | _ => 177 end |}.

Definition short_response : Response.t :=
  Eval vm_compute in
    result_or blank_response
      (runMuonApp EC.secp256k1 Keccak.keccak256 soliditySha3_packed
                  short_env demo_request).

(** The two typed fields that [runMuonApp] puts in front. *)
Definition appId_field (appId : string) : Field.t :=
  {| Field.name := "appId"; Field.type := "uint256";
     Field.value := JStr appId |}.
Definition reqId_field (reqId : string) : Field.t :=
  {| Field.name := "reqId"; Field.type := "uint256";
     Field.value := JStr reqId |}.

(** A signature made on the small curve: private scalar 3, nonce 5. *)
Definition tiny_sig : Sig.t :=
  Eval vm_compute in
    result_or {| Sig.s := 0; Sig.e := 0 |}
      (schnorrSign EC.tiny Keccak.keccak256
         3 (EC.mul EC.tiny (EC.g EC.tiny) 3)
         5 (EC.mul EC.tiny (EC.g EC.tiny) 5) zero_digest).

(** ** Vocabulary of the further properties *)

(** The digit values of a text, character by character. *)
Fixpoint digit_values (s : string) : list (option Z) :=
  match s with
  | EmptyString => []
  | String c s' => Hex.value c :: digit_values s'
  end.

(** A text at which [Buffer.from(text, "hex")] stops at once: fewer than
    two characters, or two first characters that are not both digits. *)
Definition stops_hex (s : string) : bool :=
  match s with
  | String c1 (String c2 _) => negb (Hex.is_digit c1 && Hex.is_digit c2)
  | _ => true
  end.


(** The reduction context of a curve computes modulo [p], and [redInvm]
    inverts what is not zero (so [p] is a prime). *)
Record FieldLaws (c : EC.t) : Prop :=
  { field_p : 1 < EC.p c;
    field_a : 0 <= EC.a c < EC.p c;
    field_b : 0 <= EC.b c < EC.p c;
    field_mul : forall x y,
      0 <= x < EC.p c -> 0 <= y < EC.p c ->
      EC.redMul c x y = (x * y) mod EC.p c;
    field_inv : forall x,
      0 < x < EC.p c ->
      0 <= EC.redInvm c x < EC.p c /\ (x * EC.redInvm c x) mod EC.p c = 1 }.

(** A module that does not write to the response object it is handed. *)
Definition keeps_response (muonApp : MuonApp.t) : Prop :=
  (forall response v response',
      MuonApp.onRequest muonApp response = Ret (v, response') ->
      response' = response)
  /\ (forall response v fields response',
        MuonApp.signParams muonApp response v = Ret (fields, response') ->
        response' = response).

(** The environment of [demo_env] with a private key that is a multiple
    of the order of the small curve, and the response to [demo_request]
    on the small curve. *)
Definition zero_key_env : Env.t :=
  {| Env.modules := Env.modules demo_env;
     Env.now := Env.now demo_env;
     Env.PRIVATE_KEY := 14;
     Env.random := Env.random demo_env |}.

Definition tiny_response : Response.t :=
  Eval vm_compute in
    result_or blank_response
      (runMuonApp EC.tiny Keccak.keccak256 soliditySha3_packed
                  demo_env demo_request).

(** * Properties *)

Lemma bind_Ret {A B} (m : result A) (k : A -> result B) (b : B) :
  bind m k = Ret b -> exists a, m = Ret a /\ k a = Ret b.
Proof. destruct m as [a|e]; simpl; intros H; [eauto | discriminate]. Qed.


(** ** Strings *)

Module StrFacts.

Lemma length_append (a b : string) :
  String.length (a ++ b) = (String.length a + String.length b)%nat.
Proof. induction a; simpl; congruence. Qed.

Lemma substring_whole (b : string) :
  String.substring 0 (String.length b) b = b.
Proof. induction b; simpl; congruence. Qed.

Lemma substring_head (a b : string) :
  String.substring 0 (String.length a) (a ++ b) = a.
Proof.
  induction a as [|c a IH]; simpl.
  - destruct b; reflexivity.
  - now rewrite IH.
Qed.

Lemma substring_tail (a b : string) :
  String.substring (String.length a) (String.length b) (a ++ b) = b.
Proof.
  induction a as [|c a IH]; simpl.
  - apply substring_whole.
  - exact IH.
Qed.

Lemma substring_split (k m : nat) (s : string) :
  String.length s = (k + m)%nat ->
  s = String.substring 0 k s ++ String.substring k m s
  /\ String.length (String.substring 0 k s) = k
  /\ String.length (String.substring k m s) = m.
Proof.
  revert s; induction k as [|k IH]; intros s H.
  - cbn [Nat.add] in H. rewrite <- H, substring_whole.
    destruct s; auto.
  - destruct s as [|c s]; [discriminate H|]. cbn in H. injection H as H.
    destruct (IH s H) as (E & Hk & Hm). cbn [String.substring String.length].
    cbn [append]. rewrite <- E. auto.
Qed.

Lemma drop_append (a b : string) : Str.drop (String.length a) (a ++ b) = b.
Proof. induction a; simpl; [destruct b|]; auto. Qed.

Lemma prefix_append (a b : string) : String.prefix a (a ++ b) = true.
Proof.
  induction a as [|c a IH]; simpl; [destruct b; reflexivity|].
  destruct (ascii_dec c c); [exact IH | congruence].
Qed.

Lemma prefix_head_neq (c1 c2 : ascii) (a b : string) :
  c1 <> c2 -> String.prefix (String c1 a) (String c2 b) = false.
Proof.
  intros H. simpl. destruct (ascii_dec c1 c2); [contradiction | reflexivity].
Qed.

Lemma prefix_head_eq (c : ascii) (a b : string) :
  String.prefix (String c a) (String c b) = String.prefix a b.
Proof. simpl. destruct (ascii_dec c c); [reflexivity | congruence]. Qed.

Lemma forallb_append (f : ascii -> bool) (a b : string) :
  Str.forallb f (a ++ b) = Str.forallb f a && Str.forallb f b.
Proof. induction a; simpl; [reflexivity | now rewrite IHa, andb_assoc]. Qed.

Lemma forallb_drop (f : ascii -> bool) (k : nat) (s : string) :
  Str.forallb f s = true -> Str.forallb f (Str.drop k s) = true.
Proof.
  revert s; induction k as [|k IH]; intros [|c s]; simpl; auto.
  intros H; apply andb_prop in H; apply IH, H.
Qed.

Lemma length_drop (k : nat) (s : string) :
  String.length (Str.drop k s) = (String.length s - k)%nat.
Proof. revert s; induction k as [|k IH]; intros [|c s]; simpl; auto. Qed.

Lemma forallb_impl (f g : ascii -> bool) (s : string) :
  (forall c, f c = true -> g c = true) ->
  Str.forallb f s = true -> Str.forallb g s = true.
Proof.
  intros Hfg; induction s as [|c s IH]; simpl; auto.
  intros H; apply andb_prop in H; destruct H as [Hc Hs].
  now rewrite (Hfg _ Hc), IH.
Qed.

Lemma trim_end_id (s : string) :
  Str.forallb (fun c => negb (Str.is_space c)) s = true -> Str.trim_end s = s.
Proof.
  induction s as [|c s IH]; simpl; auto.
  intros H; apply andb_prop in H; destruct H as [Hc Hs].
  rewrite (IH Hs). apply negb_true_iff in Hc. rewrite Hc.
  destruct s; reflexivity.
Qed.

Lemma map_id (f : ascii -> ascii) (s : string) :
  Str.forallb (fun c => Ascii.eqb (f c) c) s = true -> Str.map f s = s.
Proof.
  induction s as [|c s IH]; simpl; auto.
  intros H; apply andb_prop in H; destruct H as [Hc Hs].
  apply Ascii.eqb_eq in Hc. now rewrite Hc, IH.
Qed.

End StrFacts.

(** ** Hexadecimal text *)

Module HexFacts.

Lemma value_digit (d : Z) : 0 <= d < 16 -> Hex.value (Hex.digit d) = Some d.
Proof.
  intros H.
  assert (d = 0 \/ d = 1 \/ d = 2 \/ d = 3 \/ d = 4 \/ d = 5 \/ d = 6
          \/ d = 7 \/ d = 8 \/ d = 9 \/ d = 10 \/ d = 11 \/ d = 12
          \/ d = 13 \/ d = 14 \/ d = 15) as Hd by lia.
  repeat (destruct Hd as [-> | Hd]; [reflexivity|]). subst; reflexivity.
Qed.

Lemma digit_lowhex (d : Z) : 0 <= d < 16 -> is_lowhex (Hex.digit d) = true.
Proof.
  intros H. unfold is_lowhex. rewrite (value_digit d H). apply Ascii.eqb_refl.
Qed.

(** What the parsers rely on for a lower-case digit. *)
Lemma lowhex_char (c : ascii) :
  is_lowhex c = true ->
  Ascii.eqb (Str.lower c) c = true /\ negb (Str.is_space c) = true
  /\ Hex.is_digit c = true /\ c <> "-"%char /\ c <> "x"%char.
Proof.
  destruct c as [[] [] [] [] [] [] [] []]; vm_compute;
    intros H; try discriminate H; repeat split; discriminate.
Qed.

Lemma lowhex_is_digit (s : string) :
  lowhex s = true -> Str.forallb Hex.is_digit s = true.
Proof. apply StrFacts.forallb_impl; intros c H; apply (lowhex_char c H). Qed.

Lemma length_fixed (len : nat) (z : Z) (acc : string) :
  String.length (Hex.fixed len z acc) = (len + String.length acc)%nat.
Proof.
  revert z acc; induction len as [|l IH]; intros z acc; simpl; auto.
  rewrite IH; simpl; lia.
Qed.

Lemma lowhex_fixed (len : nat) (z : Z) (acc : string) :
  lowhex acc = true -> lowhex (Hex.fixed len z acc) = true.
Proof.
  revert z acc; induction len as [|l IH]; intros z acc H; simpl; auto.
  apply IH. unfold lowhex; simpl. rewrite digit_lowhex.
  - exact H.
  - apply Z.mod_pos_bound; lia.
Qed.

Lemma parse_fixed (len : nat) (z a : Z) (acc : string) :
  Hex.parse_from a (Hex.fixed len z acc)
  = Hex.parse_from (a * 16 ^ Z.of_nat len + z mod 16 ^ Z.of_nat len) acc.
Proof.
  revert z a acc; induction len as [|l IH]; intros z a acc.
  - simpl. rewrite Z.mod_1_r. f_equal; lia.
  - cbn [Hex.fixed]. rewrite IH. cbn [Hex.parse_from].
    rewrite value_digit by (apply Z.mod_pos_bound; lia).
    f_equal. rewrite Nat2Z.inj_succ, Z.pow_succ_r by lia.
    rewrite (Z.rem_mul_r z 16 (16 ^ Z.of_nat l)) by lia. lia.
Qed.

Lemma parse_fixed_small (len : nat) (z : Z) :
  0 <= z < 16 ^ Z.of_nat len ->
  Hex.parse (Hex.fixed len z EmptyString) = Some z.
Proof.
  intros H. unfold Hex.parse. rewrite parse_fixed. cbn [Hex.parse_from].
  rewrite Z.mod_small by exact H. f_equal; lia.
Qed.

Lemma Z_of_byte_range (b : byte) : 0 <= Hex.Z_of_byte b < 256.
Proof.
  unfold Hex.Z_of_byte. pose proof (Byte.to_N_bounded b). lia.
Qed.

Lemma length_of_buffer (bs : list byte) :
  String.length (Hex.of_buffer bs) = (2 * List.length bs)%nat.
Proof. induction bs; simpl; [reflexivity | rewrite IHbs; lia]. Qed.

Lemma lowhex_of_buffer (bs : list byte) : lowhex (Hex.of_buffer bs) = true.
Proof.
  induction bs as [|b bs IH]; [reflexivity|].
  pose proof (Z_of_byte_range b) as Hb.
  unfold lowhex in *; cbn [Hex.of_buffer Str.forallb].
  rewrite !digit_lowhex, IH; auto.
  - apply Z.mod_pos_bound; lia.
  - split; [apply Z.div_pos; lia | apply Z.div_lt_upper_bound; lia].
Qed.

Lemma parse_of_buffer (bs : list byte) (a : Z) :
  Hex.parse_from a (Hex.of_buffer bs)
  = Some (fold_left (fun a b => 256 * a + Hex.Z_of_byte b) bs a).
Proof.
  revert a; induction bs as [|b bs IH]; intros a; [reflexivity|].
  pose proof (Z_of_byte_range b) as Hb.
  cbn [Hex.of_buffer Hex.parse_from fold_left].
  rewrite !value_digit.
  - rewrite IH. do 2 f_equal.
    pose proof (Z.div_mod (Hex.Z_of_byte b) 16). lia.
  - apply Z.mod_pos_bound; lia.
  - split; [apply Z.div_pos; lia | apply Z.div_lt_upper_bound; lia].
Qed.

Lemma be_value_range (bs : list byte) :
  0 <= be_value bs < 256 ^ Z.of_nat (List.length bs).
Proof.
  unfold be_value.
  assert (forall a, 0 <= a ->
            0 <= fold_left (fun a b => 256 * a + Hex.Z_of_byte b) bs a
            < (a + 1) * 256 ^ Z.of_nat (List.length bs)) as H.
  { induction bs as [|b bs IH]; intros a Ha.
    - simpl. lia.
    - cbn [fold_left List.length]. pose proof (Z_of_byte_range b) as Hb.
      specialize (IH (256 * a + Hex.Z_of_byte b) ltac:(lia)).
      rewrite Nat2Z.inj_succ, Z.pow_succ_r by lia.
      assert (0 < 256 ^ Z.of_nat (List.length bs)) by (apply Z.pow_pos_nonneg; lia).
      nia. }
  specialize (H 0 ltac:(lia)). lia.
Qed.

End HexFacts.

(** ** toBN on hexadecimal text *)

Module BNFacts.

Lemma toBN_hex (h : string) (v : Z) :
  lowhex h = true -> Hex.parse h = Some v -> toBN ("0x" ++ h) = Ret v.
Proof.
  intros Hh Hv.
  assert (Hlow : Str.toLowerCase ("0x" ++ h) = "0x" ++ h).
  { apply StrFacts.map_id. cbn.
    revert Hh; apply StrFacts.forallb_impl.
    intros c Hc; apply (HexFacts.lowhex_char c Hc). }
  assert (Htrim : Str.trim ("0x" ++ h) = "0x" ++ h).
  { unfold Str.trim. cbn [append Str.trim_start]. cbn.
    change (Str.trim_end (String "0" (String "x" h))
            = String "0" (String "x" h)).
    apply StrFacts.trim_end_id. cbn.
    revert Hh; apply StrFacts.forallb_impl.
    intros c Hc; apply (HexFacts.lowhex_char c Hc). }
  unfold toBN. rewrite Hlow, Htrim.
  assert (Hpre : String.prefix "0x" ("0x" ++ h) = true)
    by apply StrFacts.prefix_append.
  assert (Hstrip : stripHexPrefix ("0x" ++ h) = h).
  { unfold stripHexPrefix. now rewrite Hpre. }
  rewrite Hpre, Hstrip. cbn [orb].
  destruct h as [|c h'].
  - cbn in Hv. injection Hv as <-. reflexivity.
  - assert (Hc : is_lowhex c = true).
    { unfold lowhex in Hh; cbn in Hh. now apply andb_prop in Hh. }
    assert (Hminus : String.prefix "-" (String c h') = false).
    { apply StrFacts.prefix_head_neq. intros E. subst c. discriminate Hc. }
    rewrite Hminus.
    change (String.eqb (String c h') EmptyString) with false. cbv iota.
    assert (Hmh : match_hex (String c h') = true).
    { unfold match_hex. now apply HexFacts.lowhex_is_digit. }
    rewrite Hmh, orb_true_r. cbn [andb]. rewrite Hv. now rewrite Z.mul_1_r.
Qed.

(** [toBN] lowers its argument first: the case of the digits does not
    matter. *)
Lemma lower_idempotent (c : ascii) : Str.lower (Str.lower c) = Str.lower c.
Proof. destruct c as [[] [] [] [] [] [] [] []]; reflexivity. Qed.

Lemma lower_digit (c : ascii) :
  Hex.is_digit c = true ->
  is_lowhex (Str.lower c) = true /\ Hex.value (Str.lower c) = Hex.value c.
Proof.
  destruct c as [[] [] [] [] [] [] [] []]; vm_compute;
    intros H; try discriminate H; split; reflexivity.
Qed.

Lemma toLowerCase_idempotent (s : string) :
  Str.toLowerCase (Str.toLowerCase s) = Str.toLowerCase s.
Proof.
  induction s as [|c s IH]; [reflexivity|].
  cbn. fold (Str.toLowerCase s). fold (Str.toLowerCase (Str.toLowerCase s)).
  now rewrite lower_idempotent, IH.
Qed.

Lemma toBN_lower (arg : string) : toBN (Str.toLowerCase arg) = toBN arg.
Proof. unfold toBN. now rewrite toLowerCase_idempotent. Qed.

Lemma lowhex_lower (h : string) :
  Str.forallb Hex.is_digit h = true -> lowhex (Str.toLowerCase h) = true.
Proof.
  induction h as [|c h IH]; [reflexivity|]. cbn. intros H.
  apply andb_prop in H. destruct H as [Hc Hh].
  fold (Str.toLowerCase h). fold (lowhex (Str.toLowerCase h)).
  now rewrite (proj1 (lower_digit c Hc)), IH.
Qed.

Lemma parse_lower (h : string) (a : Z) :
  Str.forallb Hex.is_digit h = true ->
  Hex.parse_from a (Str.toLowerCase h) = Hex.parse_from a h.
Proof.
  revert a; induction h as [|c h IH]; intros a; [reflexivity|]. cbn.
  intros H. apply andb_prop in H. destruct H as [Hc Hh].
  fold (Str.toLowerCase h).
  rewrite (proj2 (lower_digit c Hc)).
  destruct (Hex.value c); [now apply IH | reflexivity].
Qed.

Lemma toBN_digits (h : string) (v : Z) :
  Str.forallb Hex.is_digit h = true -> Hex.parse h = Some v ->
  toBN ("0x" ++ h) = Ret v.
Proof.
  intros Hh Hv. rewrite <- toBN_lower.
  change (Str.toLowerCase ("0x" ++ h)) with ("0x" ++ Str.toLowerCase h).
  apply toBN_hex; [now apply lowhex_lower|].
  unfold Hex.parse. now rewrite parse_lower.
Qed.

(** A string of digits always reads as a number, below [16^length]. *)
Lemma parse_digits (h : string) (a : Z) :
  Str.forallb Hex.is_digit h = true -> 0 <= a ->
  exists v, Hex.parse_from a h = Some v
            /\ 0 <= v < (a + 1) * 16 ^ Z.of_nat (String.length h).
Proof.
  revert a; induction h as [|c h IH]; intros a H Ha.
  - exists a. split; [reflexivity|]. cbn. lia.
  - cbn in H. apply andb_prop in H. destruct H as [Hc Hh].
    assert (Hd : exists d, Hex.value c = Some d /\ 0 <= d < 16).
    { revert Hc. clear.
      destruct c as [[] [] [] [] [] [] [] []]; vm_compute;
        intros H; try discriminate H; eexists; (split; [reflexivity|]);
        split; congruence. }
    destruct Hd as (d & Hd & Hr).
    destruct (IH (16 * a + d) Hh ltac:(lia)) as (v & Hv & Hb).
    exists v. cbn [Hex.parse_from]. rewrite Hd. split; [exact Hv|].
    cbn [String.length]. rewrite Nat2Z.inj_succ, Z.pow_succ_r by lia.
    assert (0 < 16 ^ Z.of_nat (String.length h))
      by (apply Z.pow_pos_nonneg; lia).
    nia.
Qed.

Lemma toBN_error (arg : string) (x : exn) :
  toBN arg = Throw x -> x = LibError "invalid number value".
Proof.
  unfold toBN.
  repeat match goal with
         | |- context [if ?b then _ else _] => destruct b
         | |- context [match ?o with Some _ => _ | None => _ end] => destruct o
         end; intros H; inversion H; reflexivity.
Qed.

Lemma toBN_keccak (bs : list byte) :
  toBN ("0x" ++ Hex.of_buffer bs) = Ret (be_value bs).
Proof.
  apply toBN_hex.
  - apply HexFacts.lowhex_of_buffer.
  - unfold Hex.parse. apply HexFacts.parse_of_buffer.
Qed.

Lemma hexLength_bound (z : Z) :
  0 <= z < 2 ^ 256 -> (1 <= BN.hexLength z <= 64)%nat.
Proof.
  intros H. unfold BN.hexLength. rewrite Z.abs_eq by lia.
  destruct (Z.eqb_spec z 0) as [->|Hz]; [lia|].
  assert (Z.log2 z < 256) by (apply Z.log2_lt_pow2; lia).
  pose proof (Z.log2_nonneg z).
  assert (0 <= Z.log2 z / 4 <= 63).
  { split; [apply Z.div_pos; lia|].
    apply Z.lt_succ_r. apply Z.div_lt_upper_bound; lia. }
  lia.
Qed.

Lemma toString16_64 (z : Z) :
  0 <= z < 2 ^ 256 -> BN.toString16 z 64 = Hex.fixed 64 z EmptyString.
Proof.
  intros H. unfold BN.toString16.
  destruct (Z.ltb_spec z 0) as [Hneg|_]; [lia|].
  rewrite Z.abs_eq by lia.
  pose proof (hexLength_bound z H) as Hl.
  assert (BN.round_up (BN.hexLength z) 64 = 64%nat) as ->; [|reflexivity].
  unfold BN.round_up.
  assert (((BN.hexLength z + 64 - 1) / 64 = 1)%nat) as ->; [|reflexivity].
  symmetry. apply (Nat.div_unique _ 64 1 (BN.hexLength z - 1)); lia.
Qed.

End BNFacts.

(** ** The signature codec *)

Module Codec.

Lemma replace_first_prefixed (body : string) :
  Str.replace_first "0x" ("0x" ++ body) = body.
Proof.
  change ("0x" ++ body) with (String "0" (String "x" body)).
  cbn [Str.replace_first].
  change (String "0" (String "x" body)) with ("0x" ++ body).
  now rewrite StrFacts.prefix_append.
Qed.

(** Hexadecimal digits contain no [x]: nothing is removed from them. *)
Lemma replace_first_digits (body : string) :
  Str.forallb Hex.is_digit body = true ->
  Str.replace_first "0x" body = body.
Proof.
  induction body as [|c body IH]; [reflexivity|].
  intros H. cbn in H. apply andb_prop in H. destruct H as [Hc Hb].
  cbn [Str.replace_first].
  assert (String.prefix "0x" (String c body) = false) as ->.
  { destruct (ascii_dec "0" c) as [E|E];
      [|now apply StrFacts.prefix_head_neq].
    subst c. rewrite StrFacts.prefix_head_eq.
    destruct body as [|c' body]; [reflexivity|].
    apply StrFacts.prefix_head_neq. intros E'. subst c'.
    cbn in Hb. discriminate Hb. }
  now rewrite IH.
Qed.

Lemma replace_first_with_prefix (prefixed : bool) (body : string) :
  Str.forallb Hex.is_digit body = true ->
  Str.replace_first "0x" (with_prefix prefixed body) = body.
Proof.
  destruct prefixed; intros H.
  - apply replace_first_prefixed.
  - now apply replace_first_digits.
Qed.

(** The length check is the only source of the decoder's own error. *)
Lemma splitSignature_malformed (signature : string) :
  splitSignature signature
    = Throw (ThrowString "invalid schnorr signature string")
  <-> String.length (Str.replace_first "0x" signature) <> 128%nat.
Proof.
  unfold splitSignature.
  destruct (Nat.eqb_spec (String.length (Str.replace_first "0x" signature)) 128)
    as [E|E]; cbn [negb].
  - split; [|congruence]. intros H. exfalso.
    destruct (toBN ("0x" ++ Str.substr 0 64 (Str.replace_first "0x" signature)))
      as [e|x] eqn:He; unfold bind in H.
    + destruct (toBN ("0x" ++ Str.substr 64 64 (Str.replace_first "0x" signature)))
        as [s|y] eqn:Hs; [discriminate H|].
      apply BNFacts.toBN_error in Hs. congruence.
    + apply BNFacts.toBN_error in He. congruence.
  - split; [intros _; exact E | reflexivity].
Qed.

(** Decoding two blocks of 64 digits. *)
Lemma splitSignature_blocks (prefixed : bool) (A B : string) (a b : Z) :
  String.length A = 64%nat -> String.length B = 64%nat ->
  Str.forallb Hex.is_digit A = true -> Str.forallb Hex.is_digit B = true ->
  Hex.parse A = Some a -> Hex.parse B = Some b ->
  splitSignature (with_prefix prefixed (A ++ B))
    = Ret {| Sig.s := b; Sig.e := a |}.
Proof.
  intros HlA HlB HA HB Ha Hb. unfold splitSignature.
  rewrite replace_first_with_prefix.
  2:{ rewrite StrFacts.forallb_append. now rewrite HA, HB. }
  rewrite StrFacts.length_append, HlA, HlB. cbn [Nat.add Nat.eqb negb].
  unfold Str.substr.
  replace (String.substring 0 64 (A ++ B)) with A
    by (now rewrite <- HlA, StrFacts.substring_head).
  replace (String.substring 64 64 (A ++ B)) with B.
  2:{ rewrite <- (StrFacts.substring_tail A B) at 1. now rewrite HlA, HlB. }
  rewrite (BNFacts.toBN_digits A a HA Ha), (BNFacts.toBN_digits B b HB Hb).
  reflexivity.
Qed.

Lemma stringifySignature_blocks (e s : Z) :
  0 <= e < 2 ^ 256 -> 0 <= s < 2 ^ 256 ->
  stringifySignature {| Sig.s := s; Sig.e := e |}
    = with_prefix true (Hex.fixed 64 e EmptyString ++ Hex.fixed 64 s EmptyString).
Proof.
  intros He Hs. unfold stringifySignature, with_prefix. cbn [Sig.e Sig.s].
  now rewrite !BNFacts.toString16_64.
Qed.

Lemma roundtrip_256 (e s : Z) :
  0 <= e < 2 ^ 256 -> 0 <= s < 2 ^ 256 ->
  splitSignature (stringifySignature {| Sig.s := s; Sig.e := e |})
    = Ret {| Sig.s := s; Sig.e := e |}.
Proof.
  intros He Hs. rewrite stringifySignature_blocks by assumption.
  apply splitSignature_blocks.
  - now rewrite HexFacts.length_fixed.
  - now rewrite HexFacts.length_fixed.
  - now apply HexFacts.lowhex_is_digit, HexFacts.lowhex_fixed.
  - now apply HexFacts.lowhex_is_digit, HexFacts.lowhex_fixed.
  - apply HexFacts.parse_fixed_small. change (16 ^ Z.of_nat 64) with (2 ^ 256). lia.
  - apply HexFacts.parse_fixed_small. change (16 ^ Z.of_nat 64) with (2 ^ 256). lia.
Qed.

End Codec.

(** ** The Schnorr engine, for any curve preset and digest function *)

Section Engine.

Variable curve : EC.t.
Variable keccak : list byte -> list byte.

Lemma schnorrVerify_object (P : point) (msg : string) (sg : Sig.t) :
  schnorrVerify curve keccak (KeyPoint P) msg (SigObject sg)
  = if negb (EC.validate curve P) then Ret false
    else e_v <- recomputedChallenge curve keccak P msg sg ;;
         Ret (e_v =? Sig.e sg).
Proof.
  unfold schnorrVerify, recomputedChallenge, validatePublicKey.
  cbn [bind]. destruct (EC.validate curve P); cbn [negb]; [|reflexivity].
  destruct (pub2addr curve keccak _) as [addr|x]; cbn [bind]; [|reflexivity].
  destruct (schnorrHash keccak P addr msg) as [h|x]; cbn [bind]; [|reflexivity].
  destruct (toBN h); reflexivity.
Qed.

(** The decode error leaves [schnorrVerify] as it is: nothing catches
    it. *)
Lemma schnorrVerify_decode_error (pk : key_arg) (msg text : string) (x : exn) :
  splitSignature text = Throw x ->
  schnorrVerify curve keccak pk msg (SigString text) = Throw x.
Proof. intros H. unfold schnorrVerify. now rewrite H. Qed.

Lemma schnorrHash_digest (P : point) (addr msg h : string) :
  schnorrHash keccak P addr msg = Ret h ->
  exists buf, h = keccak256 keccak buf.
Proof.
  unfold schnorrHash. intros H.
  destruct (EC.getX P) as [x|]; cbn [bind] in H; [|discriminate H].
  destruct (BN.toBuffer x (Some 32%nat)) as [xb|]; cbn [bind] in H;
    [|discriminate H].
  destruct (EC.getY P) as [y|]; cbn [bind] in H; [|discriminate H].
  injection H as <-. eauto.
Qed.

Lemma schnorrSign_inv (d : Z) (P : point) (k : Z) (R : point)
    (msg : string) (sg : Sig.t) :
  schnorrSign curve keccak d P k R msg = Ret sg ->
  exists addr h,
    pub2addr curve keccak R = Ret addr
    /\ schnorrHash keccak P addr msg = Ret h
    /\ toBN h = Ret (Sig.e sg)
    /\ Sig.s sg = (k - d * Sig.e sg) mod EC.n curve.
Proof.
  unfold schnorrSign. intros H.
  destruct (pub2addr curve keccak R) as [addr|]; cbn [bind] in H;
    [|discriminate H].
  destruct (schnorrHash keccak P addr msg) as [h|] eqn:Hh; cbn [bind] in H;
    [|discriminate H].
  destruct (toBN h) as [e|] eqn:He; cbn [bind] in H; [|discriminate H].
  injection H as <-. exists addr, h. cbn [Sig.e Sig.s]. auto.
Qed.

Lemma umod_shift (s : Z) :
  BN.umod (s + EC.n curve) (EC.n curve) = BN.umod s (EC.n curve).
Proof.
  unfold BN.umod. destruct (Z.eq_dec (EC.n curve) 0) as [E|E].
  - rewrite E, Z.add_0_r. reflexivity.
  - rewrite <- (Z.mul_1_l (EC.n curve)) at 1. now apply Z.mod_add.
Qed.

End Engine.

(** ** Scalar multiples under the group laws *)

Section Group.

Variable c : EC.t.
Hypothesis laws : GroupLaws c.

Let G : point := EC.g c.

Lemma add_Inf_r (P : point) : EC.add c P Inf = P.
Proof. destruct P; reflexivity. Qed.

Lemma dbl_add (P : point) : EC.dbl c P = EC.add c P P.
Proof.
  destruct P as [|x y]; [reflexivity|].
  unfold EC.add, EC.eq. now rewrite !Z.eqb_refl.
Qed.

Lemma on_curve_validate (P : point) :
  on_curve c P = true -> EC.validate c P = true.
Proof. unfold on_curve. intros H. now apply andb_prop in H. Qed.

Lemma nmul_on_curve (k : nat) (P : point) :
  on_curve c P = true -> on_curve c (nmul c k P) = true.
Proof.
  intros HP. induction k as [|k IH]; [reflexivity|].
  cbn [nmul]. now apply (add_on_curve c laws).
Qed.

Lemma nmul_Inf (k : nat) : nmul c k Inf = Inf.
Proof. induction k as [|k IH]; [reflexivity | exact IH]. Qed.

Lemma nmul_add (a b : nat) (P : point) :
  on_curve c P = true ->
  nmul c (a + b) P = EC.add c (nmul c a P) (nmul c b P).
Proof.
  intros HP. induction a as [|a IH]; [reflexivity|].
  cbn [Nat.add nmul]. rewrite IH.
  symmetry. apply (add_assoc c laws); auto using nmul_on_curve.
Qed.

Lemma nmul_mul (a b : nat) (P : point) :
  on_curve c P = true ->
  nmul c (a * b) P = nmul c a (nmul c b P).
Proof.
  intros HP. induction a as [|a IH]; [reflexivity|].
  cbn [Nat.mul nmul]. now rewrite nmul_add, IH.
Qed.

Lemma nmul_twice (m : nat) (P : point) :
  on_curve c P = true ->
  nmul c m (EC.add c P P) = nmul c (m + m) P.
Proof.
  intros HP.
  replace (EC.add c P P) with (nmul c 2 P)
    by (cbn [nmul]; now rewrite add_Inf_r).
  rewrite <- nmul_mul by assumption. f_equal. lia.
Qed.

Lemma pmul_nmul (k : positive) (P : point) :
  on_curve c P = true -> EC.pmul c P k = nmul c (Pos.to_nat k) P.
Proof.
  revert P; induction k as [k IH|k IH|]; intros P HP; cbn [EC.pmul].
  - assert (Hd : on_curve c (EC.dbl c P) = true)
      by (rewrite dbl_add; now apply (add_on_curve c laws)).
    rewrite (IH _ Hd), dbl_add, nmul_twice by assumption.
    rewrite Pos2Nat.inj_xI. cbn [nmul]. do 2 f_equal. lia.
  - assert (Hd : on_curve c (EC.dbl c P) = true)
      by (rewrite dbl_add; now apply (add_on_curve c laws)).
    rewrite (IH _ Hd), dbl_add, nmul_twice by assumption.
    rewrite Pos2Nat.inj_xO. f_equal. lia.
  - change (Pos.to_nat 1) with 1%nat. cbn [nmul]. now rewrite add_Inf_r.
Qed.

Lemma mul_nmul (k : Z) (P : point) :
  on_curve c P = true -> 0 <= k ->
  EC.mul c P k = nmul c (Z.to_nat k) P.
Proof.
  intros HP Hk. destruct P as [|x y].
  - cbn [EC.mul]. now rewrite nmul_Inf.
  - destruct k as [|q|q]; [reflexivity| |lia].
    cbn [EC.mul]. rewrite pmul_nmul by assumption.
    now rewrite Z2Nat.inj_pos.
Qed.

Lemma mul_on_curve (k : Z) (P : point) :
  on_curve c P = true -> 0 <= k -> on_curve c (EC.mul c P k) = true.
Proof.
  intros HP Hk. rewrite mul_nmul by assumption. now apply nmul_on_curve.
Qed.

Lemma nmul_order (t : nat) : nmul c (t * Z.to_nat (EC.n c)) G = Inf.
Proof.
  pose proof (n_pos c laws) as Hn.
  rewrite nmul_mul by apply (g_on_curve c laws).
  rewrite <- mul_nmul by (try apply (g_on_curve c laws); lia).
  unfold G. rewrite (g_order c laws). apply nmul_Inf.
Qed.

(** The point that verification rebuilds from a signature made with
    the private scalar [d] and the nonce [k]. *)
Lemma rebuild_nonce_point (d k e : Z) :
  0 <= d -> 0 <= k < EC.n c -> 0 <= e ->
  EC.add c (EC.mul c G ((k - d * e) mod EC.n c))
           (EC.mul c (EC.mul c G d) e)
  = EC.mul c G k.
Proof.
  intros Hd Hk He.
  pose proof (n_pos c laws) as Hn.
  pose proof (g_on_curve c laws) as HG. fold G in HG.
  pose proof (Z.mod_pos_bound (k - d * e) (EC.n c) Hn) as Hs.
  set (s := (k - d * e) mod EC.n c) in *.
  set (q := (k - d * e) / EC.n c).
  assert (Hdiv : k - d * e = EC.n c * q + s)
    by (apply Z.div_mod; lia).
  assert (Hde : 0 <= d * e) by (apply Z.mul_nonneg_nonneg; lia).
  assert (Hq : q <= 0).
  { destruct (Z_le_gt_dec q 0) as [|Hpos]; [assumption|].
    assert (EC.n c * 1 <= EC.n c * q) by (apply Z.mul_le_mono_nonneg_l; lia).
    lia. }
  rewrite (mul_nmul s G), (mul_nmul d G), (mul_nmul k G) by (auto; lia).
  rewrite (mul_nmul e) by (auto using nmul_on_curve).
  rewrite <- nmul_mul, <- nmul_add by assumption.
  replace (Z.to_nat s + Z.to_nat e * Z.to_nat d)%nat
    with (Z.to_nat k + Z.to_nat (- q) * Z.to_nat (EC.n c))%nat.
  - rewrite nmul_add, nmul_order by assumption. apply add_Inf_r.
  - rewrite <- !Z2Nat.inj_mul, <- !Z2Nat.inj_add by lia.
    f_equal. lia.
Qed.

Lemma mul_G_affine (k : Z) :
  0 < k < EC.n c ->
  exists x y, EC.mul c G k = Aff x y
              /\ 0 <= x < EC.p c /\ 0 <= y < EC.p c.
Proof.
  intros Hk.
  pose proof (g_order_min c laws k Hk) as Hne. fold G in Hne.
  pose proof (mul_on_curve k G (g_on_curve c laws) ltac:(lia)) as Hon.
  destruct (EC.mul c G k) as [|x y]; [congruence|].
  exists x, y. split; [reflexivity|].
  unfold on_curve in Hon. apply andb_prop in Hon. destruct Hon as [Hr _].
  cbn [EC.reduced] in Hr.
  repeat (apply andb_prop in Hr; destruct Hr as [Hr ?]).
  lia.
Qed.

End Group.

(** ** Buffers of big numbers *)

Module BufFacts.

Lemma byteLength_le (z : Z) (len : nat) :
  0 <= z < 256 ^ Z.of_nat len -> (BN.byteLength z <= len)%nat.
Proof.
  intros H. unfold BN.byteLength. rewrite Z.abs_eq by lia.
  destruct (Z.eqb_spec z 0) as [->|Hz]; [lia|].
  assert (Z.log2 z < 8 * Z.of_nat len).
  { apply Z.log2_lt_pow2; [lia|].
    rewrite Z.pow_mul_r by lia. change (2 ^ 8) with 256. lia. }
  pose proof (Z.log2_nonneg z).
  assert (0 <= Z.log2 z / 8 < Z.of_nat len).
  { split; [apply Z.div_pos; lia | apply Z.div_lt_upper_bound; lia]. }
  lia.
Qed.

Lemma byteLength_mono (x y : Z) :
  0 <= x <= y -> (BN.byteLength x <= BN.byteLength y)%nat.
Proof.
  intros H. unfold BN.byteLength. rewrite !Z.abs_eq by lia.
  destruct (Z.eqb_spec x 0) as [->|Hx]; [lia|].
  destruct (Z.eqb_spec y 0) as [->|Hy]; [lia|].
  pose proof (Z.log2_le_mono x y ltac:(lia)).
  pose proof (Z.div_le_mono (Z.log2 x) (Z.log2 y) 8 ltac:(lia) ltac:(lia)).
  pose proof (Z.log2_nonneg x).
  pose proof (Z.div_pos (Z.log2 x) 8 ltac:(lia) ltac:(lia)).
  lia.
Qed.

Lemma byteLength_pos (z : Z) : 0 < z -> (0 < BN.byteLength z)%nat.
Proof.
  intros H. unfold BN.byteLength. rewrite Z.abs_eq by lia.
  destruct (Z.eqb_spec z 0) as [->|Hz]; [lia|].
  pose proof (Z.log2_nonneg z).
  pose proof (Z.div_pos (Z.log2 z) 8 ltac:(lia) ltac:(lia)).
  lia.
Qed.

Lemma toBuffer_fits (z : Z) (len : nat) :
  0 <= z -> (BN.byteLength z <= len)%nat -> (0 < len)%nat ->
  BN.toBuffer z (Some len) = Ret (BN.be_bytes len z []).
Proof.
  intros Hz Hl Hpos. unfold BN.toBuffer.
  destruct len as [|l]; [lia|].
  rewrite (proj2 (Nat.leb_le _ _) Hl), (proj2 (Nat.ltb_lt _ _) Hpos).
  cbn [andb]. now rewrite Z.abs_eq.
Qed.

Lemma toBuffer_32 (z : Z) :
  0 <= z < 2 ^ 256 ->
  BN.toBuffer z (Some 32%nat) = Ret (BN.be_bytes 32 z []).
Proof.
  intros H. apply toBuffer_fits; [lia| |lia].
  apply byteLength_le. change (256 ^ Z.of_nat 32) with (2 ^ 256). lia.
Qed.

Lemma length_be_bytes (len : nat) (z : Z) (acc : list byte) :
  List.length (BN.be_bytes len z acc) = (len + List.length acc)%nat.
Proof.
  revert z acc; induction len as [|l IH]; intros z acc; [reflexivity|].
  cbn [BN.be_bytes]. rewrite IH. cbn [List.length]. lia.
Qed.

End BufFacts.

(** ** Addresses and challenges of affine points *)

Section Addresses.

Variable curve : EC.t.
Variable keccak : list byte -> list byte.
Hypothesis keccak_length : forall buf, List.length (keccak buf) = 32%nat.
Hypothesis p_range : 1 < EC.p curve <= 2 ^ 256.

Lemma toChecksumAddress_ok (body : string) :
  String.length body = 40%nat -> Str.forallb Hex.is_digit body = true ->
  exists addr, toChecksumAddress keccak ("0x" ++ body) = Ret addr.
Proof.
  intros Hl Hd. unfold toChecksumAddress.
  change (Str.strip_0x ("0x" ++ body)) with body.
  rewrite Hl, Hd. cbn [Nat.eqb andb]. eauto.
Qed.

Lemma address_digits (buf : list byte) :
  let body := Str.substr_last 40 (keccak256 keccak buf) in
  String.length body = 40%nat /\ Str.forallb Hex.is_digit body = true.
Proof.
  cbv zeta. unfold Str.substr_last, keccak256.
  rewrite StrFacts.length_append, HexFacts.length_of_buffer, keccak_length.
  change (String.length "0x" + 2 * 32 - 40)%nat with 26%nat.
  change (Str.drop 26 ("0x" ++ Hex.of_buffer (keccak buf)))
    with (Str.drop 24 (Hex.of_buffer (keccak buf))).
  split.
  - rewrite StrFacts.length_drop, HexFacts.length_of_buffer, keccak_length.
    reflexivity.
  - apply StrFacts.forallb_drop, HexFacts.lowhex_is_digit,
      HexFacts.lowhex_of_buffer.
Qed.

Lemma encode_affine (x y : Z) :
  0 <= x < EC.p curve -> 0 <= y < EC.p curve ->
  exists enc, encode curve (Aff x y) false = Ret enc.
Proof.
  intros Hx Hy. unfold encode. cbn [EC.getX EC.getY bind].
  rewrite !BufFacts.toBuffer_fits;
    try (apply BufFacts.byteLength_mono; lia);
    try (apply BufFacts.byteLength_pos; lia); try lia.
  cbn [bind]. eauto.
Qed.

Lemma pub2addr_affine (x y : Z) :
  0 <= x < EC.p curve -> 0 <= y < EC.p curve ->
  exists addr, pub2addr curve keccak (Aff x y) = Ret addr.
Proof.
  intros Hx Hy. unfold pub2addr.
  destruct (encode_affine x y Hx Hy) as [enc ->]. cbn [bind].
  destruct (address_digits (Hex.to_buffer (Str.substr_from 2 enc)))
    as [Hl Hd].
  now apply toChecksumAddress_ok.
Qed.

Lemma schnorrHash_affine (x y : Z) (addr msg : string) :
  0 <= x < EC.p curve ->
  exists buf,
    schnorrHash keccak (Aff x y) addr msg = Ret (keccak256 keccak buf).
Proof.
  intros Hx. unfold schnorrHash. cbn [EC.getX EC.getY bind].
  rewrite BufFacts.toBuffer_32 by lia. cbn [bind]. eauto.
Qed.

End Addresses.

(** ** Sign, then verify *)

Section SignVerify.

Variable curve : EC.t.
Variable keccak : list byte -> list byte.
Hypothesis laws : GroupLaws curve.
Hypothesis keccak_length : forall buf, List.length (keccak buf) = 32%nat.

(** C1. On a curve whose points form a group in which the generator has
    order [n], and with a digest of 32 bytes: for every private scalar
    [d] in [1, n) with public point [d.G], every nonce [k] in [1, n) with
    nonce point [k.G] and every message digest, [schnorrSign] returns a
    signature and [schnorrVerify] returns [true] on it. *)
Theorem schnorr_sign_then_verify (d k : Z) (msg : string) :
  1 <= d < EC.n curve -> 1 <= k < EC.n curve ->
  exists sg,
    schnorrSign curve keccak d (EC.mul curve (EC.g curve) d)
                k (EC.mul curve (EC.g curve) k) msg = Ret sg
    /\ schnorrVerify curve keccak
         (KeyPoint (EC.mul curve (EC.g curve) d)) msg (SigObject sg)
       = Ret true.
Proof.
  intros Hd Hk.
  pose proof (p_range curve laws) as Hp.
  pose proof (n_pos curve laws) as Hn.
  destruct (mul_G_affine curve laws d ltac:(lia)) as (px & py & HP & Hpx & Hpy).
  destruct (mul_G_affine curve laws k ltac:(lia)) as (rx & ry & HR & Hrx & Hry).
  destruct (pub2addr_affine curve keccak keccak_length Hp rx ry Hrx Hry)
    as [addr Haddr].
  destruct (schnorrHash_affine curve keccak Hp px py addr msg Hpx)
    as [buf Hhash].
  set (e := be_value (keccak buf)).
  assert (He : toBN (keccak256 keccak buf) = Ret e)
    by apply BNFacts.toBN_keccak.
  assert (He0 : 0 <= e) by apply HexFacts.be_value_range.
  set (s := (k - d * e) mod EC.n curve).
  exists {| Sig.s := s; Sig.e := e |}. split.
  - unfold schnorrSign. rewrite HP, HR, Haddr. cbn [bind].
    rewrite Hhash. cbn [bind]. rewrite He. reflexivity.
  - rewrite schnorrVerify_object.
    assert (Hval : EC.validate curve (EC.mul curve (EC.g curve) d) = true).
    { apply on_curve_validate, mul_on_curve;
        [assumption | apply (g_on_curve curve laws) | lia]. }
    rewrite Hval. cbn [negb].
    unfold recomputedChallenge, pointAdd. cbn [Sig.s Sig.e].
    assert (Hs : BN.umod s (EC.n curve) = s)
      by (unfold BN.umod, s; apply Z.mod_mod; lia).
    rewrite Hs.
    assert (Hv1 : EC.validate curve (EC.mul curve (EC.g curve) s) = true).
    { apply on_curve_validate, mul_on_curve;
        [assumption | apply (g_on_curve curve laws) |].
      apply Z.mod_pos_bound; lia. }
    assert (Hv2 : EC.validate curve
                    (EC.mul curve (EC.mul curve (EC.g curve) d) e) = true).
    { apply on_curve_validate, mul_on_curve; [assumption| |assumption].
      apply mul_on_curve; [assumption | apply (g_on_curve curve laws) | lia]. }
    rewrite Hv1, Hv2. cbn [andb Bool.eqb].
    unfold s. rewrite (rebuild_nonce_point curve laws d k e) by lia.
    rewrite HR, Haddr. cbn [bind]. rewrite HP, Hhash. cbn [bind].
    rewrite He. cbn [bind]. now rewrite Z.eqb_refl.
Qed.

End SignVerify.

(** ** The group laws of the small curve, by enumeration *)

Module Tiny.

Lemma eq_true (P Q : point) : EC.eq P Q = true -> P = Q.
Proof.
  destruct P as [|x1 y1], Q as [|x2 y2]; cbn; try discriminate; auto.
  intros H. apply andb_prop in H. destruct H as [Hx Hy].
  apply Z.eqb_eq in Hx, Hy. congruence.
Qed.

Lemma in_field_range (c : EC.t) (x : Z) :
  0 <= x < EC.p c -> In x (field_range c).
Proof.
  intros H. unfold field_range.
  rewrite <- (Z2Nat.id x) by lia. apply in_map, in_seq. lia.
Qed.

Lemma curve_points_complete (c : EC.t) (P : point) :
  on_curve c P = true -> In P (curve_points c).
Proof.
  intros H. destruct P as [|x y]; [now left|]. right.
  assert (Hr : EC.reduced c (Aff x y) = true)
    by (unfold on_curve in H; now apply andb_prop in H).
  cbn [EC.reduced] in Hr.
  repeat (apply andb_prop in Hr; destruct Hr as [Hr ?]).
  apply in_flat_map. exists x. split; [apply in_field_range; lia|].
  apply in_flat_map. exists y. split; [apply in_field_range; lia|].
  rewrite H. now left.
Qed.

Lemma closed_on_sound (c : EC.t) :
  closed_on c (curve_points c) = true ->
  forall P Q, on_curve c P = true -> on_curve c Q = true ->
              on_curve c (EC.add c P Q) = true.
Proof.
  unfold closed_on. intros H P Q HP HQ.
  rewrite forallb_forall in H.
  specialize (H P (curve_points_complete c P HP)).
  rewrite forallb_forall in H.
  exact (H Q (curve_points_complete c Q HQ)).
Qed.

Lemma associative_on_sound (c : EC.t) :
  associative_on c (curve_points c) = true ->
  forall P Q R,
    on_curve c P = true -> on_curve c Q = true -> on_curve c R = true ->
    EC.add c (EC.add c P Q) R = EC.add c P (EC.add c Q R).
Proof.
  unfold associative_on. intros H P Q R HP HQ HR.
  rewrite forallb_forall in H.
  specialize (H P (curve_points_complete c P HP)).
  rewrite forallb_forall in H.
  specialize (H Q (curve_points_complete c Q HQ)).
  rewrite forallb_forall in H.
  apply eq_true, (H R (curve_points_complete c R HR)).
Qed.

Lemma order_minimal_sound (c : EC.t) :
  order_minimal c = true ->
  forall k, 0 < k < EC.n c -> EC.mul c (EC.g c) k <> Inf.
Proof.
  unfold order_minimal. intros H k Hk E.
  rewrite forallb_forall in H.
  specialize (H (Z.to_nat k)).
  rewrite Z2Nat.id, E in H by lia.
  assert (In (Z.to_nat k) (seq 1 (Z.to_nat (EC.n c) - 1)))
    by (apply in_seq; lia).
  specialize (H ltac:(assumption)). discriminate H.
Qed.

Lemma laws : GroupLaws EC.tiny.
Proof.
  constructor.
  - cbn. lia.
  - cbn. lia.
  - reflexivity.
  - apply closed_on_sound. vm_compute. reflexivity.
  - apply associative_on_sound. vm_compute. reflexivity.
  - vm_compute. reflexivity.
  - apply order_minimal_sound. vm_compute. reflexivity.
Qed.

End Tiny.

(** ** The digest has 32 bytes *)

Module KeccakFacts.

Lemma length_le_bytes (k : nat) (z : Z) :
  List.length (Keccak.le_bytes k z) = k.
Proof.
  revert z; induction k as [|k IH]; intros z; [reflexivity|].
  cbn [Keccak.le_bytes List.length]. now rewrite IH.
Qed.

Lemma length_keccak256 (msg : list byte) :
  List.length (Keccak.keccak256 msg) = 32%nat.
Proof.
  unfold Keccak.keccak256. now rewrite !length_app, !length_le_bytes.
Qed.

End KeccakFacts.

(** ** The machine-word arithmetic computes the same points *)

Module FastFacts.

Local Abbreviation tz := BigZ.to_Z.

Ltac bz :=
  repeat (progress rewrite
    ?BigZ.spec_add, ?BigZ.spec_sub, ?BigZ.spec_mul, ?BigZ.spec_modulo,
    ?BigZ.spec_shiftr, ?BigZ.spec_land, ?BigZ.spec_log2, ?BigZ.spec_div2,
    ?BigZ.spec_even, ?BigZ.spec_odd, ?BigZ.spec_eqb, ?BigZ.spec_ltb,
    ?BigZ.spec_leb, ?BigZ.spec_opp, ?BigZ.spec_of_Z).

Lemma bitLength_spec (z : bigZ) :
  tz (Fast.bitLength z) = EC.bitLength (tz z).
Proof.
  unfold Fast.bitLength, EC.bitLength. bz.
  destruct (tz z =? 0); bz; reflexivity.
Qed.

Lemma ireduce_loop_spec (m : bigZ) (fuel : nat) (r : bigZ) :
  tz (Fast.ireduce_loop m fuel r) = EC.ireduce_loop (tz m) fuel (tz r).
Proof.
  revert r; induction fuel as [|fuel IH]; intros r;
    cbn [Fast.ireduce_loop EC.ireduce_loop]; cbv zeta;
    bz; rewrite bitLength_spec; bz;
    destruct (256 <? _); bz; auto.
  rewrite IH. bz. reflexivity.
Qed.

Lemma ireduce_spec (m num : bigZ) :
  tz (Fast.ireduce m num) = EC.ireduce (tz m) (tz num).
Proof.
  unfold Fast.ireduce, EC.ireduce. cbv zeta. bz.
  rewrite !ireduce_loop_spec.
  destruct (_ =? tz m); bz; [reflexivity|].
  destruct (tz m <? _); bz; now rewrite ?ireduce_loop_spec.
Qed.

Lemma half_spec (delta x : bigZ) :
  tz (Fast.half delta x) = EC.half (tz delta) (tz x).
Proof.
  unfold Fast.half, EC.half. bz. destruct (Z.odd (tz x)); bz; reflexivity.
Qed.

Lemma invmp_loop_spec (fuel : nat) (delta a b x1 x2 : bigZ) :
  tz (Fast.invmp_loop fuel delta a b x1 x2)
  = EC.invmp_loop fuel (tz delta) (tz a) (tz b) (tz x1) (tz x2).
Proof.
  revert a b x1 x2; induction fuel as [|fuel IH]; intros a b x1 x2;
    [reflexivity|].
  cbn [Fast.invmp_loop EC.invmp_loop]. bz.
  destruct ((1 <? tz a) && (1 <? tz b)).
  - destruct (Z.even (tz a)); [rewrite IH, half_spec; bz; reflexivity|].
    destruct (Z.even (tz b)); [rewrite IH, half_spec; bz; reflexivity|].
    destruct (tz b <=? tz a); rewrite IH; bz; reflexivity.
  - destruct (tz a =? 1); reflexivity.
Qed.

Lemma invmp_spec (fuel : nat) (x m : bigZ) :
  tz (Fast.invmp fuel x m)
  = (let a := if tz x <? 0 then tz x mod tz m else tz x in
     let res := EC.invmp_loop fuel (tz m) a (tz m) 1 0 in
     if res <? 0 then res + tz m else res).
Proof.
  unfold Fast.invmp. cbv zeta. bz. rewrite !invmp_loop_spec. bz.
  destruct (tz x <? 0); bz;
    match goal with |- context [if ?b then _ else _] => destruct b end;
    bz; rewrite ?invmp_loop_spec; bz; reflexivity.
Qed.

Section Curve.
Variable c : EC.t.

Lemma p_spec : tz (Fast.p c) = EC.p c.
Proof. unfold Fast.p. now bz. Qed.

Lemma a_spec : tz (Fast.a c) = EC.a c.
Proof. unfold Fast.a. now bz. Qed.

Lemma imod_spec (z : bigZ) : tz (Fast.imod c z) = EC.imod c (tz z).
Proof.
  unfold Fast.imod, EC.imod. destruct (EC.k256 c).
  - now rewrite ireduce_spec, p_spec.
  - bz. now rewrite p_spec.
Qed.

Lemma redAdd_spec (x y : bigZ) :
  tz (Fast.redAdd c x y) = EC.redAdd c (tz x) (tz y).
Proof.
  unfold Fast.redAdd, EC.redAdd. cbv zeta. bz. rewrite p_spec.
  destruct (EC.p c <=? _); bz; now rewrite ?p_spec.
Qed.

Lemma redSub_spec (x y : bigZ) :
  tz (Fast.redSub c x y) = EC.redSub c (tz x) (tz y).
Proof.
  unfold Fast.redSub, EC.redSub. cbv zeta. bz.
  destruct (_ <? 0); bz; now rewrite ?p_spec.
Qed.

Lemma redNeg_spec (x : bigZ) :
  tz (Fast.redNeg c x) = EC.redNeg c (tz x).
Proof.
  unfold Fast.redNeg, EC.redNeg. bz.
  destruct (tz x =? 0); bz; now rewrite ?p_spec.
Qed.

Lemma redMul_spec (x y : bigZ) :
  tz (Fast.redMul c x y) = EC.redMul c (tz x) (tz y).
Proof. unfold Fast.redMul, EC.redMul. rewrite imod_spec. now bz. Qed.

Lemma redSqr_spec (x : bigZ) :
  tz (Fast.redSqr c x) = EC.redSqr c (tz x).
Proof. unfold Fast.redSqr, EC.redSqr. rewrite imod_spec. now bz. Qed.

Lemma redInvm_spec (x : bigZ) :
  tz (Fast.redInvm c x) = EC.redInvm c (tz x).
Proof.
  unfold Fast.redInvm, EC.redInvm, EC.invmp. cbv zeta. bz.
  rewrite !invmp_spec, !p_spec. cbv zeta.
  match goal with |- context [if ?b then _ else _] => destruct b end.
  - rewrite redNeg_spec, imod_spec. bz.
    now rewrite invmp_spec, p_spec.
  - rewrite imod_spec. now rewrite invmp_spec, p_spec.
Qed.

Ltac red_spec :=
  repeat (progress rewrite
    ?redAdd_spec, ?redSub_spec, ?redNeg_spec, ?redMul_spec,
    ?redSqr_spec, ?redInvm_spec, ?a_spec).

Lemma eq_spec (P Q : Fast.fpoint) :
  Fast.eq P Q = EC.eq (Fast.to_point P) (Fast.to_point Q).
Proof. destruct P, Q; cbn; bz; reflexivity. Qed.

Lemma neg_spec (P : Fast.fpoint) :
  Fast.to_point (Fast.neg c P) = EC.neg c (Fast.to_point P).
Proof. destruct P; cbn; now rewrite ?redNeg_spec. Qed.

Lemma dbl_spec (P : Fast.fpoint) :
  Fast.to_point (Fast.dbl c P) = EC.dbl c (Fast.to_point P).
Proof.
  destruct P as [|x y]; [reflexivity|].
  cbn [Fast.dbl EC.dbl Fast.to_point]. cbv zeta. bz. red_spec.
  destruct (_ =? 0); [reflexivity|].
  cbn [Fast.to_point]. red_spec. reflexivity.
Qed.

Lemma add_spec (P Q : Fast.fpoint) :
  Fast.to_point (Fast.add c P Q)
  = EC.add c (Fast.to_point P) (Fast.to_point Q).
Proof.
  destruct P as [|x1 y1], Q as [|x2 y2]; try reflexivity.
  unfold Fast.add, EC.add. cbn [Fast.to_point].
  rewrite !eq_spec, neg_spec. cbn [Fast.to_point].
  destruct (EC.eq (Aff (tz x1) (tz y1)) (Aff (tz x2) (tz y2)));
    [apply (dbl_spec (Fast.FAff x1 y1))|].
  destruct (EC.eq _ _); [reflexivity|].
  bz. destruct (tz x1 =? tz x2); [reflexivity|].
  cbv zeta. cbn [Fast.to_point]. bz. red_spec.
  destruct (_ =? 0); cbn [negb]; red_spec; reflexivity.
Qed.

Lemma pmul_spec (k : positive) (P : Fast.fpoint) :
  Fast.to_point (Fast.pmul c P k) = EC.pmul c (Fast.to_point P) k.
Proof.
  revert P; induction k as [k IH|k IH|]; intros P;
    cbn [Fast.pmul EC.pmul]; rewrite ?add_spec, ?IH, ?dbl_spec;
    reflexivity.
Qed.

Lemma mul_spec (k : Z) (P : Fast.fpoint) :
  Fast.to_point (Fast.mul c P k) = EC.mul c (Fast.to_point P) k.
Proof.
  destruct P as [|x y]; [reflexivity|].
  destruct k as [|q|q]; cbn [Fast.mul EC.mul Fast.to_point];
    rewrite ?neg_spec; [reflexivity| |f_equal];
    apply (pmul_spec q (Fast.FAff x y)).
Qed.

Lemma of_point_spec (P : point) : Fast.to_point (Fast.of_point P) = P.
Proof. destruct P; cbn; now bz. Qed.

(** [EC.mul] may be evaluated on machine words. *)
Lemma mul_correct (P : point) (k : Z) :
  EC.mul c P k = Fast.to_point (Fast.mul c (Fast.of_point P) k).
Proof. now rewrite mul_spec, of_point_spec. Qed.

End Curve.

End FastFacts.

(** ** The signing pipeline *)

Section Pipeline.

Variable curve : EC.t.
Variable keccak : list byte -> list byte.
Variable soliditySha3 : list sha3_arg -> result string.

Lemma bn2hex_minimal (z : Z) :
  bn2hex z None
  = Ret ("0x" ++ Hex.of_buffer
                   (BN.be_bytes (Nat.max 1 (BN.byteLength z)) (Z.abs z) [])).
Proof.
  unfold bn2hex, BN.toBuffer.
  rewrite (proj2 (Nat.leb_le _ _) (Nat.le_max_r 1 (BN.byteLength z))).
  rewrite (proj2 (Nat.ltb_lt 0 (Nat.max 1 (BN.byteLength z))))
    by (pose proof (Nat.le_max_l 1 (BN.byteLength z)); lia).
  reflexivity.
Qed.

Lemma length_bn2hex (z : Z) (text : string) :
  bn2hex z None = Ret text ->
  String.length text = (2 + 2 * Nat.max 1 (BN.byteLength z))%nat.
Proof.
  rewrite bn2hex_minimal. intros H. injection H as <-.
  cbn [append String.length].
  rewrite HexFacts.length_of_buffer, BufFacts.length_be_bytes.
  cbn [List.length]. destruct (BN.byteLength z); simpl; lia.
Qed.

(** What a returned response is made of. *)
Lemma runMuonApp_inv (env : Env.t) (request : Request.t) (r : Response.t) :
  runMuonApp curve keccak soliditySha3 env request = Ret r ->
  exists muonApp response0 response1 response2 onRequestResult appSignParams
         reqId hashToBeSigned sg entry,
    Env.modules env ("./muon-apps/" ++ Request.app request ++ ".js")
      = Some muonApp
    /\ Response.reqId response0 = None
    /\ Response.appId response2 = Response.appId r
    /\ MuonApp.onRequest muonApp response0
       = Ret (onRequestResult, response1)
    /\ MuonApp.signParams muonApp response1 onRequestResult
       = Ret (appSignParams, response2)
    /\ Response.reqId r = Some reqId
    /\ Data.signParams (Response.data r)
       = Some (appId_field (Response.appId r) :: reqId_field reqId
               :: appSignParams)
    /\ soliditySha3
         (List.map ArgField
            (appId_field (Response.appId r) :: reqId_field reqId
             :: appSignParams))
       = Ret hashToBeSigned
    /\ schnorrSign curve keccak
         (keyFromPrivate curve (Env.PRIVATE_KEY env))
         (getPublic curve (keyFromPrivate curve (Env.PRIVATE_KEY env)))
         (Env.random env 1%nat) (getPublic curve (Env.random env 1%nat))
         hashToBeSigned
       = Ret sg
    /\ Response.signatures r = Some [entry]
    /\ bn2hex (Sig.s sg) None = Ret (SignatureEntry.signature entry).
Proof.
  unfold runMuonApp, moduleIsAvailable, require. intros H.
  destruct (Env.modules env _) as [muonApp|] eqn:Hmod; cbn [negb] in H;
    [|discriminate H].
  destruct (soliditySha3 [ArgString _]) as [idHash|]; cbn [bind] in H;
    [|discriminate H].
  destruct (BigInt idHash) as [idNumber|]; cbn [bind] in H; [|discriminate H].
  match type of H with
  | context [MuonApp.onRequest muonApp ?resp] => set (response0 := resp) in *
  end.
  destruct (MuonApp.onRequest muonApp response0) as [[v response1]|] eqn:Hreq;
    cbn [bind fst snd] in H; [|discriminate H].
  destruct (MuonApp.signParams muonApp response1 v) as [[own response2]|]
    eqn:Hown; cbn [bind fst snd] in H; [|discriminate H].
  destruct (soliditySha3 (List.map ArgField own)) as [h0|]; cbn [bind] in H;
    [|discriminate H].
  match type of H with
  | context [soliditySha3 (List.map ArgField ?fs)] =>
      destruct (soliditySha3 (List.map ArgField fs)) as [h|] eqn:Hh;
      cbn [bind] in H; [|discriminate H]
  end.
  destruct (schnorrSign curve keccak _ _ _ _ h) as [sg|] eqn:Hsg;
    cbn [bind] in H; [|discriminate H].
  destruct (pub2addr curve keccak _) as [owner|]; cbn [bind] in H;
    [|discriminate H].
  destruct (pub2json curve keccak _ true) as [view|]; cbn [bind] in H;
    [|discriminate H].
  destruct (bn2hex (Sig.s sg) None) as [text|] eqn:Htext; cbn [bind] in H;
    [|discriminate H].
  injection H as <-.
  exists muonApp, response0, response1, response2, v, own,
    ("0x" ++ getPrivate_hex (Env.random env 0%nat)), h, sg,
    {| SignatureEntry.owner := owner;
       SignatureEntry.ownerPubKey := view;
       SignatureEntry.signature := text |}.
  cbn [Response.reqId Response.appId Response.data Response.signatures
       Data.signParams SignatureEntry.signature].
  repeat split; auto.
Qed.

End Pipeline.

Lemma schnorr_sign_then_verify_witness :
  1 <= 3 < EC.n EC.tiny /\ 1 <= 5 < EC.n EC.tiny
  /\ exists sg,
       schnorrSign EC.tiny Keccak.keccak256
         3 (EC.mul EC.tiny (EC.g EC.tiny) 3)
         5 (EC.mul EC.tiny (EC.g EC.tiny) 5) zero_digest = Ret sg
       /\ schnorrVerify EC.tiny Keccak.keccak256
            (KeyPoint (EC.mul EC.tiny (EC.g EC.tiny) 3)) zero_digest
            (SigObject sg) = Ret true.
Proof.
  split; [cbn; lia|]. split; [cbn; lia|].
  apply (schnorr_sign_then_verify EC.tiny Keccak.keccak256
           Tiny.laws KeccakFacts.length_keccak256); cbn; lia.
Defined.

(** ** secp256k1: the reduction context and the constants of the preset *)

Module Secp256k1.

Section K256.

Variable m : Z.
Hypothesis m_shape : m + EC.K256_k = 2 ^ 256.
Hypothesis m_large : 2 ^ 255 < m.

Lemma fold_step (r : Z) :
  0 <= r ->
  let r' := Z.shiftr r 256 * EC.K256_k + Z.land r (Z.ones 256) in
  0 <= r' /\ r' mod m = r mod m.
Proof.
  intros Hr. cbv zeta.
  rewrite Z.shiftr_div_pow2, Z.land_ones by lia.
  pose proof (Z.div_mod r (2 ^ 256) ltac:(lia)) as Hdm.
  pose proof (Z.mod_pos_bound r (2 ^ 256) ltac:(lia)) as Hlo.
  assert (Hhi : 0 <= r / 2 ^ 256) by (apply Z.div_pos; lia).
  assert (HK : 0 < EC.K256_k) by reflexivity.
  split; [nia|].
  replace r with (r / 2 ^ 256 * EC.K256_k + r mod 2 ^ 256 + r / 2 ^ 256 * m)
    at 3 by nia.
  rewrite Z.mod_add by lia. reflexivity.
Qed.

Lemma bitLength_small (r : Z) :
  0 <= r -> (256 <? EC.bitLength r) = false -> r < 2 ^ 256.
Proof.
  intros Hr H. apply Z.ltb_ge in H. unfold EC.bitLength in H.
  destruct (Z.eqb_spec r 0) as [->|Hz]; [lia|].
  apply Z.log2_lt_pow2; lia.
Qed.

Lemma ireduce_loop_mod (fuel : nat) (r : Z) :
  0 <= r ->
  0 <= EC.ireduce_loop m fuel r < 2 ^ 256
  /\ EC.ireduce_loop m fuel r mod m = r mod m.
Proof.
  revert r; induction fuel as [|fuel IH]; intros r Hr;
    cbn [EC.ireduce_loop]; cbv zeta;
    destruct (fold_step r Hr) as [Hpos Hmod];
    assert (HK : 0 < EC.K256_k) by reflexivity;
    destruct (256 <? EC.bitLength _) eqn:Hb.
  - pose proof (Z.mod_pos_bound
                  (Z.shiftr r 256 * EC.K256_k + Z.land r (Z.ones 256)) m
                  ltac:(lia)).
    split; [lia|]. rewrite Z.mod_mod by lia. exact Hmod.
  - split; [|exact Hmod]. split; [exact Hpos|].
    now apply bitLength_small.
  - destruct (IH _ Hpos) as [Hrange Hm]. split; [exact Hrange|].
    now rewrite Hm.
  - split; [|exact Hmod]. split; [exact Hpos|].
    now apply bitLength_small.
Qed.

Lemma ireduce_mod (z : Z) : 0 <= z -> EC.ireduce m z = z mod m.
Proof.
  intros Hz. unfold EC.ireduce. cbv zeta.
  destruct (ireduce_loop_mod 8 z Hz) as [Hrange Hm].
  assert (HK : 0 < EC.K256_k) by reflexivity.
  set (r := EC.ireduce_loop m 8 z) in *. rewrite <- Hm.
  destruct (Z.eqb_spec r m) as [->|Hne].
  - now rewrite Z.mod_same by lia.
  - destruct (Z.ltb_spec m r) as [Hgt|Hle].
    + apply (Z.mod_unique r m 1 (r - m)); lia.
    + symmetry. apply Z.mod_small. lia.
Qed.

End K256.

(** On secp256k1, [redMul] is the product modulo the field prime. *)
Lemma redMul_secp256k1 (x y : Z) :
  0 <= x -> 0 <= y ->
  EC.redMul EC.secp256k1 x y = (x * y) mod EC.p EC.secp256k1.
Proof.
  intros Hx Hy. unfold EC.redMul, EC.imod. cbn [EC.k256 EC.secp256k1].
  apply ireduce_mod; [reflexivity | reflexivity |].
  now apply Z.mul_nonneg_nonneg.
Qed.

(** The constants of the preset: the generator is on the curve and [n]
    times the generator is the point at infinity. *)
Lemma secp256k1_generator :
  on_curve EC.secp256k1 (EC.g EC.secp256k1) = true.
Proof. vm_compute. reflexivity. Qed.

Lemma secp256k1_order :
  EC.mul EC.secp256k1 (EC.g EC.secp256k1) (EC.n EC.secp256k1) = Inf.
Proof. rewrite FastFacts.mul_correct. vm_compute. reflexivity. Qed.

(** What is left to assume of secp256k1 for [GroupLaws]: the closure and
    the associativity of the addition, and that no smaller multiple of
    the generator is the point at infinity. *)
Lemma secp256k1_laws :
  (forall P Q,
      on_curve EC.secp256k1 P = true -> on_curve EC.secp256k1 Q = true ->
      on_curve EC.secp256k1 (EC.add EC.secp256k1 P Q) = true) ->
  (forall P Q R,
      on_curve EC.secp256k1 P = true -> on_curve EC.secp256k1 Q = true ->
      on_curve EC.secp256k1 R = true ->
      EC.add EC.secp256k1 (EC.add EC.secp256k1 P Q) R
      = EC.add EC.secp256k1 P (EC.add EC.secp256k1 Q R)) ->
  (forall k, 0 < k < EC.n EC.secp256k1 ->
             EC.mul EC.secp256k1 (EC.g EC.secp256k1) k <> Inf) ->
  GroupLaws EC.secp256k1.
Proof.
  intros Hclosed Hassoc Hmin. constructor.
  - vm_compute. split; [reflexivity | discriminate].
  - reflexivity.
  - exact secp256k1_generator.
  - exact Hclosed.
  - exact Hassoc.
  - exact secp256k1_order.
  - exact Hmin.
Qed.

End Secp256k1.

(** ** The scenario of the specification on secp256k1 *)

Module Scenario.

Lemma umod_scenario_s :
  BN.umod scenario_s (EC.n EC.secp256k1) = scenario_s.
Proof. vm_compute. reflexivity. Qed.

Lemma mul_G_scenario_s :
  EC.mul EC.secp256k1 (EC.g EC.secp256k1) scenario_s
  = Aff 65233107493625251600258740627929076761735765278815149854166920620089098951397
        4723120287967059722666154983770305274750370985862586667901475519919091214086.
Proof. rewrite FastFacts.mul_correct. vm_compute. reflexivity. Qed.

Lemma mul_G_scenario_e :
  EC.mul EC.secp256k1 (EC.g EC.secp256k1) scenario_e
  = Aff 39593364370563350292660036714458539398392956355769131907402995619106666723957
        46170598282298163316949518433864841608052147342623330043373714945531397621867.
Proof. rewrite FastFacts.mul_correct. vm_compute. reflexivity. Qed.

Lemma mul_G_shifted_e :
  EC.mul EC.secp256k1 (EC.g EC.secp256k1) shifted_e
  = Aff 39593364370563350292660036714458539398392956355769131907402995619106666723957
        46170598282298163316949518433864841608052147342623330043373714945531397621867.
Proof. rewrite FastFacts.mul_correct. vm_compute. reflexivity. Qed.

(** Private scalar 1, nonce 2, zero digest: the signature. *)
Lemma scenario_signs :
  schnorrSign EC.secp256k1 Keccak.keccak256
    1 (EC.mul EC.secp256k1 (EC.g EC.secp256k1) 1)
    2 (EC.mul EC.secp256k1 (EC.g EC.secp256k1) 2) zero_digest
  = Ret scenario_sig.
Proof. vm_compute. reflexivity. Qed.

Lemma scenario_challenge :
  recomputedChallenge EC.secp256k1 Keccak.keccak256
    (EC.g EC.secp256k1) zero_digest scenario_sig
  = Ret scenario_e.
Proof.
  unfold recomputedChallenge. cbv zeta. cbn [Sig.s Sig.e scenario_sig].
  rewrite umod_scenario_s, mul_G_scenario_s, mul_G_scenario_e.
  vm_compute. reflexivity.
Qed.

(** ... and it verifies. *)
Lemma scenario_verifies :
  schnorrVerify EC.secp256k1 Keccak.keccak256
    (KeyPoint (EC.g EC.secp256k1)) zero_digest (SigObject scenario_sig)
  = Ret true.
Proof.
  rewrite schnorrVerify_object, scenario_challenge. vm_compute. reflexivity.
Qed.

Lemma shifted_challenge :
  recomputedChallenge EC.secp256k1 Keccak.keccak256
    (EC.g EC.secp256k1) zero_digest shifted_sig
  = Ret scenario_e.
Proof.
  unfold recomputedChallenge. cbv zeta. cbn [Sig.s Sig.e shifted_sig].
  rewrite umod_scenario_s, mul_G_scenario_s, mul_G_shifted_e.
  vm_compute. reflexivity.
Qed.

Lemma shifted_rejected :
  schnorrVerify EC.secp256k1 Keccak.keccak256
    (KeyPoint (EC.g EC.secp256k1)) zero_digest (SigObject shifted_sig)
  = Ret false.
Proof.
  rewrite schnorrVerify_object, shifted_challenge. vm_compute. reflexivity.
Qed.

End Scenario.

(** * The claims of the specification *)

(** C2 (as the code has it). For every public key, message and signature
    text made of hexadecimal digits, with or without the [0x] prefix,
    whose digits are not exactly 128: [schnorrVerify] raises the decoder's
    error [invalid schnorr signature string]; the error is not turned
    into [false]. *)
Theorem schnorrVerify_malformed_text_raises :
  forall (curve : EC.t) (keccak : list byte -> list byte)
         (pk : key_arg) (msg : string) (prefixed : bool) (body : string),
    Str.forallb Hex.is_digit body = true ->
    String.length body <> 128%nat ->
    schnorrVerify curve keccak pk msg (SigString (with_prefix prefixed body))
    = Throw (ThrowString "invalid schnorr signature string").
Proof.
  intros curve keccak pk msg prefixed body Hd Hl.
  apply schnorrVerify_decode_error, Codec.splitSignature_malformed.
  now rewrite Codec.replace_first_with_prefix.
Qed.

Lemma schnorrVerify_malformed_text_raises_witness :
  Str.forallb Hex.is_digit "1234" = true
  /\ String.length "1234" <> 128%nat
  /\ schnorrVerify EC.secp256k1 Keccak.keccak256
       (KeyPoint (EC.g EC.secp256k1)) zero_digest
       (SigString (with_prefix true "1234"))
     = Throw (ThrowString "invalid schnorr signature string").
Proof.
  split; [reflexivity|]. split; [cbn; lia|].
  apply (schnorrVerify_malformed_text_raises EC.secp256k1 Keccak.keccak256
           (KeyPoint (EC.g EC.secp256k1)) zero_digest true "1234");
    [reflexivity | cbn; lia].
Defined.

(** C2, refuted as stated: with the generator as public key, a valid
    point, and the text [0x1234], whose body has four characters,
    [schnorrVerify] does not return [false]. *)
Lemma schnorrVerify_short_text_not_false :
  EC.validate EC.secp256k1 (EC.g EC.secp256k1) = true
  /\ String.length (Str.strip_0x short_text) <> 128%nat
  /\ schnorrVerify EC.secp256k1 Keccak.keccak256
       (KeyPoint (EC.g EC.secp256k1)) zero_digest (SigString short_text)
     <> Ret false.
Proof.
  split; [vm_compute; reflexivity|]. split; [cbn; lia|].
  vm_compute. discriminate.
Qed.

(** C3. [pointAdd] is total; on two points that pass validation it is
    the curve addition, and when either fails validation it is the
    generator. *)
Theorem pointAdd_cases :
  forall (curve : EC.t) (P1 P2 : point),
    (EC.validate curve P1 = true -> EC.validate curve P2 = true ->
     pointAdd curve P1 P2 = EC.add curve P1 P2)
    /\ (EC.validate curve P1 = false \/ EC.validate curve P2 = false ->
        pointAdd curve P1 P2 = EC.g curve).
Proof.
  intros curve P1 P2. unfold pointAdd. split.
  - intros -> ->. reflexivity.
  - intros [-> | ->]; [reflexivity|].
    now rewrite andb_false_r.
Qed.

Lemma pointAdd_cases_witness :
  EC.validate EC.secp256k1 (EC.g EC.secp256k1) = true
  /\ EC.validate EC.secp256k1 off_curve = false
  /\ pointAdd EC.secp256k1 (EC.g EC.secp256k1) (EC.g EC.secp256k1)
     = EC.add EC.secp256k1 (EC.g EC.secp256k1) (EC.g EC.secp256k1)
  /\ pointAdd EC.secp256k1 (EC.g EC.secp256k1) off_curve
     = EC.g EC.secp256k1.
Proof.
  assert (Hg : EC.validate EC.secp256k1 (EC.g EC.secp256k1) = true)
    by (vm_compute; reflexivity).
  assert (Ho : EC.validate EC.secp256k1 off_curve = false)
    by (vm_compute; reflexivity).
  split; [exact Hg|]. split; [exact Ho|]. split.
  - exact (proj1 (pointAdd_cases EC.secp256k1 (EC.g EC.secp256k1)
                    (EC.g EC.secp256k1)) Hg Hg).
  - exact (proj2 (pointAdd_cases EC.secp256k1 (EC.g EC.secp256k1)
                    off_curve) (or_intror Ho)).
Defined.

(** X20. With a digest of 32 bytes, the challenge that [schnorrSign]
    returns is the challenge hash read as a big-endian number, without
    reduction: it lies in [0, 2^256); the response is [(k - d.e) mod n].
    (Whether a challenge ever reaches [n] is a question about the
    digests of Keccak-256, which this leaves open.) *)
Theorem schnorrSign_challenge_unreduced :
  forall (curve : EC.t) (keccak : list byte -> list byte),
    (forall buf, List.length (keccak buf) = 32%nat) ->
    forall (d : Z) (P : point) (k : Z) (R : point) (msg : string)
           (sg : Sig.t),
      schnorrSign curve keccak d P k R msg = Ret sg ->
      (exists addr buf,
          pub2addr curve keccak R = Ret addr
          /\ schnorrHash keccak P addr msg = Ret (keccak256 keccak buf)
          /\ Sig.e sg = be_value (keccak buf))
      /\ 0 <= Sig.e sg < 2 ^ 256
      /\ Sig.s sg = (k - d * Sig.e sg) mod EC.n curve.
Proof.
  intros curve keccak Hlen d P k R msg sg H.
  destruct (schnorrSign_inv curve keccak d P k R msg sg H)
    as (addr & h & Haddr & Hh & He & Hs).
  destruct (schnorrHash_digest keccak P addr msg h Hh) as [buf ->].
  unfold keccak256 in He. rewrite BNFacts.toBN_keccak in He.
  injection He as He.
  split; [exists addr, buf; auto|]. split; [|exact Hs].
  rewrite <- He. pose proof (HexFacts.be_value_range (keccak buf)) as Hr.
  rewrite Hlen in Hr. change (256 ^ Z.of_nat 32) with (2 ^ 256) in Hr.
  exact Hr.
Qed.

Lemma schnorrSign_challenge_unreduced_witness :
  schnorrSign EC.secp256k1 Keccak.keccak256
    1 (EC.mul EC.secp256k1 (EC.g EC.secp256k1) 1)
    2 (EC.mul EC.secp256k1 (EC.g EC.secp256k1) 2) zero_digest
  = Ret scenario_sig
  /\ 0 <= Sig.e scenario_sig < 2 ^ 256
  /\ Sig.s scenario_sig
     = (2 - 1 * Sig.e scenario_sig) mod EC.n EC.secp256k1.
Proof.
  split; [exact Scenario.scenario_signs|].
  exact (proj2 (schnorrSign_challenge_unreduced EC.secp256k1 Keccak.keccak256
                  KeccakFacts.length_keccak256 _ _ _ _ _ _
                  Scenario.scenario_signs)).
Defined.

(** C5 (as the code has it). For every public key that passes
    validation, message and signature object: [schnorrVerify] returns
    [true] exactly when the challenge recomputed from [G.s + P.e] is the
    supplied [e] itself, as integers. *)
Theorem schnorrVerify_true_iff_equal :
  forall (curve : EC.t) (keccak : list byte -> list byte)
         (P : point) (msg : string) (sg : Sig.t),
    EC.validate curve P = true ->
    (schnorrVerify curve keccak (KeyPoint P) msg (SigObject sg) = Ret true
     <-> recomputedChallenge curve keccak P msg sg = Ret (Sig.e sg)).
Proof.
  intros curve keccak P msg sg Hv.
  rewrite schnorrVerify_object, Hv. cbn [negb].
  destruct (recomputedChallenge curve keccak P msg sg) as [e_v|x];
    cbn [bind].
  - split; intros H.
    + injection H as H. apply Z.eqb_eq in H. now subst.
    + injection H as ->. now rewrite Z.eqb_refl.
  - split; discriminate.
Qed.

Lemma schnorrVerify_true_iff_equal_witness :
  EC.validate EC.secp256k1 (EC.g EC.secp256k1) = true
  /\ (schnorrVerify EC.secp256k1 Keccak.keccak256
        (KeyPoint (EC.g EC.secp256k1)) zero_digest (SigObject scenario_sig)
      = Ret true
      <-> recomputedChallenge EC.secp256k1 Keccak.keccak256
            (EC.g EC.secp256k1) zero_digest scenario_sig
          = Ret (Sig.e scenario_sig)).
Proof.
  assert (Hg : EC.validate EC.secp256k1 (EC.g EC.secp256k1) = true)
    by (vm_compute; reflexivity).
  split; [exact Hg|].
  exact (schnorrVerify_true_iff_equal EC.secp256k1 Keccak.keccak256
           (EC.g EC.secp256k1) zero_digest scenario_sig Hg).
Defined.

(** C5, refuted as stated: on secp256k1 with Keccak-256, public key [G]
    and the zero digest, the signature [(scenario_e + n, scenario_s)] has
    a recomputed challenge congruent to its [e] modulo [n], and
    [schnorrVerify] returns [false]. *)
Lemma schnorrVerify_congruent_challenge_rejected :
  EC.validate EC.secp256k1 (EC.g EC.secp256k1) = true
  /\ recomputedChallenge EC.secp256k1 Keccak.keccak256
       (EC.g EC.secp256k1) zero_digest shifted_sig = Ret scenario_e
  /\ scenario_e mod EC.n EC.secp256k1
     = Sig.e shifted_sig mod EC.n EC.secp256k1
  /\ schnorrVerify EC.secp256k1 Keccak.keccak256
       (KeyPoint (EC.g EC.secp256k1)) zero_digest (SigObject shifted_sig)
     = Ret false.
Proof.
  split; [vm_compute; reflexivity|].
  split; [exact Scenario.shifted_challenge|].
  split; [vm_compute; reflexivity|].
  exact Scenario.shifted_rejected.
Qed.

(** C6. For every [e] and [s] in [0, n), with [n] the order of
    secp256k1, decoding the encoded signature gives [(e, s)] back. *)
Theorem codec_roundtrip :
  forall e s : Z,
    0 <= e < EC.n EC.secp256k1 -> 0 <= s < EC.n EC.secp256k1 ->
    splitSignature (stringifySignature {| Sig.s := s; Sig.e := e |})
    = Ret {| Sig.s := s; Sig.e := e |}.
Proof.
  intros e s He Hs.
  assert (EC.n EC.secp256k1 < 2 ^ 256) by (vm_compute; reflexivity).
  apply Codec.roundtrip_256; lia.
Qed.

Lemma codec_roundtrip_witness :
  0 <= scenario_e < EC.n EC.secp256k1
  /\ 0 <= scenario_s < EC.n EC.secp256k1
  /\ splitSignature (stringifySignature scenario_sig) = Ret scenario_sig.
Proof.
  assert (He : 0 <= scenario_e < EC.n EC.secp256k1)
    by (vm_compute; split; [discriminate | reflexivity]).
  assert (Hs : 0 <= scenario_s < EC.n EC.secp256k1)
    by (vm_compute; split; [discriminate | reflexivity]).
  split; [exact He|]. split; [exact Hs|].
  exact (codec_roundtrip scenario_e scenario_s He Hs).
Defined.

(** C7 (as the code has it). For every text made of hexadecimal
    digits, with or without the [0x] prefix: [splitSignature] fails with
    [invalid schnorr signature string] exactly when the digits are not
    128; when they are 128 it returns the numbers of the first and of
    the last 64 digits, each below [2^256]. *)
Theorem splitSignature_hex_text :
  forall (prefixed : bool) (body : string),
    Str.forallb Hex.is_digit body = true ->
    (splitSignature (with_prefix prefixed body)
     = Throw (ThrowString "invalid schnorr signature string")
     <-> String.length body <> 128%nat)
    /\ (String.length body = 128%nat ->
        exists e s,
          Hex.parse (Str.substr 0 64 body) = Some e
          /\ Hex.parse (Str.substr 64 64 body) = Some s
          /\ 0 <= e < 2 ^ 256 /\ 0 <= s < 2 ^ 256
          /\ splitSignature (with_prefix prefixed body)
             = Ret {| Sig.s := s; Sig.e := e |}).
Proof.
  intros prefixed body Hd. split.
  - rewrite Codec.splitSignature_malformed.
    now rewrite Codec.replace_first_with_prefix.
  - intros Hl. unfold Str.substr.
    destruct (StrFacts.substring_split 64 64 body Hl) as (E & HlA & HlB).
    set (A := String.substring 0 64 body) in *.
    set (B := String.substring 64 64 body) in *.
    rewrite E, StrFacts.forallb_append in Hd.
    apply andb_prop in Hd. destruct Hd as [HA HB].
    destruct (BNFacts.parse_digits A 0 HA ltac:(lia)) as (e & He & Her).
    destruct (BNFacts.parse_digits B 0 HB ltac:(lia)) as (s & Hs & Hsr).
    rewrite HlA in Her. rewrite HlB in Hsr.
    change ((0 + 1) * 16 ^ Z.of_nat 64) with (2 ^ 256) in Her, Hsr.
    exists e, s. repeat split; try assumption; try lia.
    rewrite E. now apply Codec.splitSignature_blocks.
Qed.

Lemma splitSignature_hex_text_witness :
  Str.forallb Hex.is_digit ab_body = true
  /\ String.length ab_body = 128%nat
  /\ exists e s,
       Hex.parse (Str.substr 0 64 ab_body) = Some e
       /\ Hex.parse (Str.substr 64 64 ab_body) = Some s
       /\ 0 <= e < 2 ^ 256 /\ 0 <= s < 2 ^ 256
       /\ splitSignature (with_prefix true ab_body)
          = Ret {| Sig.s := s; Sig.e := e |}.
Proof.
  assert (Hd : Str.forallb Hex.is_digit ab_body = true) by reflexivity.
  assert (Hl : String.length ab_body = 128%nat) by reflexivity.
  split; [exact Hd|]. split; [exact Hl|].
  exact (proj2 (splitSignature_hex_text true ab_body Hd) Hl).
Defined.

(** C7, refuted as stated: after the prefix, [z_text] has 128
    characters, none of them a digit.  [splitSignature] passes the length
    check and neither fails with its own error nor returns scalars: the
    error comes from [toBN]. *)
Lemma splitSignature_non_hex_body :
  String.length (Str.strip_0x z_text) = 128%nat
  /\ splitSignature z_text = Throw (LibError "invalid number value").
Proof. split; vm_compute; reflexivity. Qed.

(** The unanchored [replace]: a text of 130 characters without prefix,
    [0x] standing between two blocks of 64 digits.  Stripping a [0x]
    prefix leaves all 130 characters, yet [splitSignature] removes the
    inner [0x] and returns two scalars. *)
Lemma splitSignature_accepts_inner_0x :
  String.length (Str.strip_0x inner_0x_text) = 130%nat
  /\ splitSignature inner_0x_text
     = Ret {| Sig.s := 0xbbbbbbbbbbbbbbbbbbbbbbbbbbbbbbbbbbbbbbbbbbbbbbbbbbbbbbbbbbbbbbbb;
              Sig.e := 0xaaaaaaaaaaaaaaaaaaaaaaaaaaaaaaaaaaaaaaaaaaaaaaaaaaaaaaaaaaaaaaaa |}.
Proof. split; vm_compute; reflexivity. Qed.

(** C8. In a response of [runMuonApp], the signed-field list is the
    [appId] field, the [reqId] field, then the fields that the module's
    [signParams] returned, in their order; the message handed to
    [schnorrSign] is [soliditySha3] of that whole list, and the response
    carries the [s] of that signature. *)
Theorem runMuonApp_signed_fields :
  forall (curve : EC.t) (keccak : list byte -> list byte)
         (soliditySha3 : list sha3_arg -> result string)
         (env : Env.t) (request : Request.t) (r : Response.t),
    runMuonApp curve keccak soliditySha3 env request = Ret r ->
    exists muonApp response0 response1 response2 onRequestResult
           appSignParams reqId hashToBeSigned sg entry,
      Env.modules env ("./muon-apps/" ++ Request.app request ++ ".js")
        = Some muonApp
      /\ MuonApp.onRequest muonApp response0
         = Ret (onRequestResult, response1)
      /\ MuonApp.signParams muonApp response1 onRequestResult
         = Ret (appSignParams, response2)
      /\ Response.reqId r = Some reqId
      /\ Data.signParams (Response.data r)
         = Some (appId_field (Response.appId r) :: reqId_field reqId
                 :: appSignParams)
      /\ soliditySha3
           (List.map ArgField
              (appId_field (Response.appId r) :: reqId_field reqId
               :: appSignParams))
         = Ret hashToBeSigned
      /\ schnorrSign curve keccak
           (keyFromPrivate curve (Env.PRIVATE_KEY env))
           (getPublic curve (keyFromPrivate curve (Env.PRIVATE_KEY env)))
           (Env.random env 1%nat) (getPublic curve (Env.random env 1%nat))
           hashToBeSigned
         = Ret sg
      /\ Response.signatures r = Some [entry]
      /\ bn2hex (Sig.s sg) None = Ret (SignatureEntry.signature entry).
Proof.
  intros curve keccak soliditySha3 env request r H.
  destruct (runMuonApp_inv curve keccak soliditySha3 env request r H)
    as (muonApp & response0 & response1 & response2 & v & own & reqId & h
        & sg & entry
        & Hmod & _ & _ & Hreq & Hown & Hid & Hfields & Hh & Hsg
        & Hentry & Htext).
  exists muonApp, response0, response1, response2, v, own, reqId, h, sg,
    entry.
  repeat split; assumption.
Qed.

Lemma runMuonApp_signed_fields_witness :
  runMuonApp EC.secp256k1 Keccak.keccak256 soliditySha3_packed
    demo_env demo_request = Ret demo_response
  /\ exists muonApp response0 response1 response2 onRequestResult
            appSignParams reqId hashToBeSigned sg entry,
       Env.modules demo_env
         ("./muon-apps/" ++ Request.app demo_request ++ ".js")
         = Some muonApp
       /\ MuonApp.onRequest muonApp response0
          = Ret (onRequestResult, response1)
       /\ MuonApp.signParams muonApp response1 onRequestResult
          = Ret (appSignParams, response2)
       /\ Response.reqId demo_response = Some reqId
       /\ Data.signParams (Response.data demo_response)
          = Some (appId_field (Response.appId demo_response)
                  :: reqId_field reqId :: appSignParams)
       /\ soliditySha3_packed
            (List.map ArgField
               (appId_field (Response.appId demo_response)
                :: reqId_field reqId :: appSignParams))
          = Ret hashToBeSigned
       /\ schnorrSign EC.secp256k1 Keccak.keccak256
            (keyFromPrivate EC.secp256k1 (Env.PRIVATE_KEY demo_env))
            (getPublic EC.secp256k1
               (keyFromPrivate EC.secp256k1 (Env.PRIVATE_KEY demo_env)))
            (Env.random demo_env 1%nat)
            (getPublic EC.secp256k1 (Env.random demo_env 1%nat))
            hashToBeSigned
          = Ret sg
       /\ Response.signatures demo_response = Some [entry]
       /\ bn2hex (Sig.s sg) None = Ret (SignatureEntry.signature entry).
Proof.
  assert (H : runMuonApp EC.secp256k1 Keccak.keccak256 soliditySha3_packed
                demo_env demo_request = Ret demo_response)
    by (vm_compute; reflexivity).
  split; [exact H|].
  exact (runMuonApp_signed_fields EC.secp256k1 Keccak.keccak256
           soliditySha3_packed demo_env demo_request demo_response H).
Defined.

(** C9. For every public key, message and signature object: if
    [schnorrVerify] returns [true] on [(e, s)], it returns [true] on
    [(e, s + n)]. *)
Theorem schnorrVerify_response_shift :
  forall (curve : EC.t) (keccak : list byte -> list byte)
         (pk : key_arg) (msg : string) (e s : Z),
    schnorrVerify curve keccak pk msg
      (SigObject {| Sig.s := s; Sig.e := e |}) = Ret true ->
    schnorrVerify curve keccak pk msg
      (SigObject {| Sig.s := s + EC.n curve; Sig.e := e |}) = Ret true.
Proof.
  intros curve keccak pk msg e s H.
  unfold schnorrVerify in *. cbn [bind Sig.s Sig.e] in *.
  now rewrite umod_shift.
Qed.

Lemma schnorrVerify_response_shift_witness :
  schnorrVerify EC.tiny Keccak.keccak256
    (KeyPoint (EC.mul EC.tiny (EC.g EC.tiny) 3)) zero_digest
    (SigObject {| Sig.s := Sig.s tiny_sig; Sig.e := Sig.e tiny_sig |})
  = Ret true
  /\ schnorrVerify EC.tiny Keccak.keccak256
       (KeyPoint (EC.mul EC.tiny (EC.g EC.tiny) 3)) zero_digest
       (SigObject {| Sig.s := Sig.s tiny_sig + EC.n EC.tiny;
                     Sig.e := Sig.e tiny_sig |})
     = Ret true.
Proof.
  assert (H : schnorrVerify EC.tiny Keccak.keccak256
                (KeyPoint (EC.mul EC.tiny (EC.g EC.tiny) 3)) zero_digest
                (SigObject {| Sig.s := Sig.s tiny_sig;
                              Sig.e := Sig.e tiny_sig |}) = Ret true)
    by (vm_compute; reflexivity).
  split; [exact H|].
  exact (schnorrVerify_response_shift EC.tiny Keccak.keccak256 _ _ _ _ H).
Defined.

(** C10. In a response of [runMuonApp], the [signature] field is
    [bn2hex] of the response scalar alone, with no byte length: [0x]
    followed by two digits for each of its [max(1, byteLength)] bytes.
    When the scalar takes fewer than 32 bytes, the field has fewer than
    66 characters. *)
Theorem runMuonApp_signature_minimal :
  forall (curve : EC.t) (keccak : list byte -> list byte)
         (soliditySha3 : list sha3_arg -> result string)
         (env : Env.t) (request : Request.t) (r : Response.t),
    runMuonApp curve keccak soliditySha3 env request = Ret r ->
    exists hashToBeSigned sg entry,
      schnorrSign curve keccak
        (keyFromPrivate curve (Env.PRIVATE_KEY env))
        (getPublic curve (keyFromPrivate curve (Env.PRIVATE_KEY env)))
        (Env.random env 1%nat) (getPublic curve (Env.random env 1%nat))
        hashToBeSigned
      = Ret sg
      /\ Response.signatures r = Some [entry]
      /\ SignatureEntry.signature entry
         = "0x" ++ Hex.of_buffer
                     (BN.be_bytes (Nat.max 1 (BN.byteLength (Sig.s sg)))
                                  (Z.abs (Sig.s sg)) [])
      /\ String.length (SignatureEntry.signature entry)
         = (2 + 2 * Nat.max 1 (BN.byteLength (Sig.s sg)))%nat
      /\ ((BN.byteLength (Sig.s sg) < 32)%nat ->
          (String.length (SignatureEntry.signature entry) < 66)%nat).
Proof.
  intros curve keccak soliditySha3 env request r H.
  destruct (runMuonApp_inv curve keccak soliditySha3 env request r H)
    as (muonApp & response0 & response1 & response2 & v & own & reqId & h
        & sg & entry
        & _ & _ & _ & _ & _ & _ & _ & _ & Hsg & Hentry & Htext).
  exists h, sg, entry.
  pose proof (length_bn2hex _ _ Htext) as Hlen.
  rewrite bn2hex_minimal in Htext. injection Htext as Htext.
  repeat split; auto. intros Hshort. rewrite Hlen. lia.
Qed.

Lemma runMuonApp_signature_minimal_witness :
  runMuonApp EC.secp256k1 Keccak.keccak256 soliditySha3_packed
    short_env demo_request = Ret short_response
  /\ option_map
       (List.map (fun entry =>
                    String.length (SignatureEntry.signature entry)))
       (Response.signatures short_response)
     = Some [64%nat]
  /\ exists hashToBeSigned sg entry,
       schnorrSign EC.secp256k1 Keccak.keccak256
         (keyFromPrivate EC.secp256k1 (Env.PRIVATE_KEY short_env))
         (getPublic EC.secp256k1
            (keyFromPrivate EC.secp256k1 (Env.PRIVATE_KEY short_env)))
         (Env.random short_env 1%nat)
         (getPublic EC.secp256k1 (Env.random short_env 1%nat))
         hashToBeSigned
       = Ret sg
       /\ Response.signatures short_response = Some [entry]
       /\ SignatureEntry.signature entry
          = "0x" ++ Hex.of_buffer
                      (BN.be_bytes (Nat.max 1 (BN.byteLength (Sig.s sg)))
                                   (Z.abs (Sig.s sg)) [])
       /\ String.length (SignatureEntry.signature entry)
          = (2 + 2 * Nat.max 1 (BN.byteLength (Sig.s sg)))%nat
       /\ ((BN.byteLength (Sig.s sg) < 32)%nat ->
           (String.length (SignatureEntry.signature entry) < 66)%nat).
Proof.
  assert (H : runMuonApp EC.secp256k1 Keccak.keccak256 soliditySha3_packed
                short_env demo_request = Ret short_response)
    by (vm_compute; reflexivity).
  split; [exact H|]. split; [reflexivity|].
  exact (runMuonApp_signature_minimal EC.secp256k1 Keccak.keccak256
           soliditySha3_packed short_env demo_request short_response H).
Defined.

(** * Further properties of the code *)

(** ** Buffers and their hexadecimal text *)

Module BufferFacts.

Lemma Z_of_byte_of_Z (v : Z) :
  0 <= v < 256 -> Hex.Z_of_byte (Hex.byte_of_Z v) = v.
Proof.
  intros Hv. unfold Hex.Z_of_byte, Hex.byte_of_Z.
  rewrite Z.mod_small by lia.
  pose proof (Byte.to_of_N_option_map (Z.to_N v)) as H.
  destruct (Byte.of_N (Z.to_N v)) as [b|] eqn:E; cbn [option_map] in H.
  - destruct (N.leb_spec (Z.to_N v) 255) as [_|Hbig]; [|lia].
    injection H as ->. lia.
  - destruct (N.leb_spec (Z.to_N v) 255) as [_|Hbig]; [discriminate H | lia].
Qed.

Lemma byte_of_Z_of_byte (b : byte) : Hex.byte_of_Z (Hex.Z_of_byte b) = b.
Proof.
  unfold Hex.byte_of_Z, Hex.Z_of_byte.
  pose proof (Byte.to_N_bounded b).
  rewrite Z.mod_small by lia. rewrite N2Z.id, Byte.of_to_N. reflexivity.
Qed.

(** Decoding the hexadecimal text of a buffer gives the buffer back. *)
Lemma to_buffer_of_buffer (bs : list byte) :
  Hex.to_buffer (Hex.of_buffer bs) = bs.
Proof.
  induction bs as [|b bs IH]; [reflexivity|].
  pose proof (HexFacts.Z_of_byte_range b) as Hb.
  cbn [Hex.of_buffer Hex.to_buffer].
  rewrite !HexFacts.value_digit.
  - rewrite IH. f_equal.
    rewrite <- (byte_of_Z_of_byte b) at 3. f_equal.
    pose proof (Z.div_mod (Hex.Z_of_byte b) 16). lia.
  - apply Z.mod_pos_bound; lia.
  - split; [apply Z.div_pos; lia | apply Z.div_lt_upper_bound; lia].
Qed.

Lemma drop_of_buffer (k : nat) (bs : list byte) :
  Str.drop (2 * k) (Hex.of_buffer bs) = Hex.of_buffer (skipn k bs).
Proof.
  revert bs; induction k as [|k IH]; intros bs; [reflexivity|].
  replace (2 * S k)%nat with (S (S (2 * k))) by lia.
  destruct bs as [|b bs]; [reflexivity|].
  cbn [Hex.of_buffer Str.drop skipn]. apply IH.
Qed.

Lemma fold_be_bytes (len : nat) (z a : Z) (acc : list byte) :
  fold_left (fun a b => 256 * a + Hex.Z_of_byte b) (BN.be_bytes len z acc) a
  = fold_left (fun a b => 256 * a + Hex.Z_of_byte b) acc
      (a * 256 ^ Z.of_nat len + z mod 256 ^ Z.of_nat len).
Proof.
  revert z a acc; induction len as [|l IH]; intros z a acc.
  - simpl. rewrite Z.mod_1_r. f_equal; lia.
  - cbn [BN.be_bytes]. rewrite IH. cbn [fold_left].
    rewrite Z_of_byte_of_Z by (apply Z.mod_pos_bound; lia).
    f_equal. rewrite Nat2Z.inj_succ, Z.pow_succ_r by lia.
    rewrite (Z.rem_mul_r z 256 (256 ^ Z.of_nat l)) by lia. lia.
Qed.

Lemma be_value_be_bytes (len : nat) (z : Z) :
  0 <= z < 256 ^ Z.of_nat len -> be_value (BN.be_bytes len z []) = z.
Proof.
  intros H. unfold be_value. rewrite fold_be_bytes. cbn [fold_left].
  rewrite Z.mod_small by exact H. lia.
Qed.

(** A positive number needs exactly [byteLength] bytes. *)
Lemma byteLength_spec (z : Z) :
  0 < z ->
  256 ^ (Z.of_nat (BN.byteLength z) - 1) <= z
  < 256 ^ Z.of_nat (BN.byteLength z).
Proof.
  intros Hz. unfold BN.byteLength. rewrite Z.abs_eq by lia.
  destruct (Z.eqb_spec z 0) as [->|_]; [lia|].
  pose proof (Z.log2_nonneg z) as Hl.
  pose proof (Z.log2_spec z Hz) as [Hlo Hhi].
  pose proof (Z.div_mod (Z.log2 z) 8 ltac:(lia)) as Hdm.
  pose proof (Z.mod_pos_bound (Z.log2 z) 8 ltac:(lia)) as Hr.
  assert (Hq : 0 <= Z.log2 z / 8) by (apply Z.div_pos; lia).
  rewrite Z2Nat.id by lia.
  replace (Z.log2 z / 8 + 1 - 1) with (Z.log2 z / 8) by lia.
  change 256 with (2 ^ 8). rewrite <- !Z.pow_mul_r by lia.
  split.
  - apply Z.le_trans with (2 ^ Z.log2 z); [|exact Hlo].
    apply Z.pow_le_mono_r; lia.
  - apply Z.lt_le_trans with (2 ^ Z.succ (Z.log2 z)); [exact Hhi|].
    apply Z.pow_le_mono_r; lia.
Qed.

Lemma fits_minimal (z : Z) :
  0 <= z -> z < 256 ^ Z.of_nat (Nat.max 1 (BN.byteLength z)).
Proof.
  intros Hz. destruct (Z.eq_dec z 0) as [->|Hne].
  - apply Z.pow_pos_nonneg; lia.
  - pose proof (byteLength_spec z ltac:(lia)) as [_ Hhi].
    apply Z.lt_le_trans with (1 := Hhi).
    apply Z.pow_le_mono_r; lia.
Qed.

End BufferFacts.

(** X1. For a number that is not negative, [bn2hex] without a byte
    length never fails; its text has [max(1, byteLength)] bytes, and
    [toBN] reads the number back. *)
Theorem bn2hex_minimal_roundtrip :
  forall z : Z,
    0 <= z ->
    exists text,
      bn2hex z None = Ret text
      /\ String.length text = (2 + 2 * Nat.max 1 (BN.byteLength z))%nat
      /\ toBN text = Ret z.
Proof.
  intros z Hz. eexists. split; [apply bn2hex_minimal|].
  split.
  - apply length_bn2hex, bn2hex_minimal.
  - rewrite BNFacts.toBN_keccak. f_equal.
    rewrite Z.abs_eq by lia.
    apply BufferFacts.be_value_be_bytes. split; [lia|].
    now apply BufferFacts.fits_minimal.
Qed.

Lemma bn2hex_minimal_roundtrip_witness :
  0 <= scenario_s
  /\ exists text,
       bn2hex scenario_s None = Ret text
       /\ String.length text
          = (2 + 2 * Nat.max 1 (BN.byteLength scenario_s))%nat
       /\ toBN text = Ret scenario_s.
Proof.
  assert (H : 0 <= scenario_s) by (vm_compute; discriminate).
  split; [exact H|]. exact (bn2hex_minimal_roundtrip scenario_s H).
Defined.

(** X2. With a byte length [len > 0] and a number that is not negative,
    [bn2hex] returns exactly when the number is below [256^len]; the text
    then has [2 + 2.len] characters and [toBN] reads the number back. *)
Theorem bn2hex_fixed_width :
  forall (z : Z) (len : nat),
    0 <= z -> (0 < len)%nat ->
    ((exists text, bn2hex z (Some len) = Ret text)
     <-> z < 256 ^ Z.of_nat len)
    /\ (forall text,
           bn2hex z (Some len) = Ret text ->
           String.length text = (2 + 2 * len)%nat /\ toBN text = Ret z).
Proof.
  intros z len Hz Hlen.
  assert (Hfit : z < 256 ^ Z.of_nat len ->
                 bn2hex z (Some len)
                 = Ret ("0x" ++ Hex.of_buffer (BN.be_bytes len z []))).
  { intros Hlt. unfold bn2hex.
    rewrite BufFacts.toBuffer_fits;
      [reflexivity | lia | apply BufFacts.byteLength_le; lia | exact Hlen]. }
  assert (Hback : forall text, bn2hex z (Some len) = Ret text ->
                               z < 256 ^ Z.of_nat len).
  { intros text H. unfold bn2hex, BN.toBuffer in H.
    destruct len as [|l]; [lia|].
    destruct (Nat.leb_spec (BN.byteLength z) (S l)) as [Hle|Hgt];
      cbn [andb bind] in H; [|discriminate H].
    destruct (Z.eq_dec z 0) as [->|Hne]; [apply Z.pow_pos_nonneg; lia|].
    pose proof (BufferFacts.byteLength_spec z ltac:(lia)) as [_ Hhi].
    apply Z.lt_le_trans with (1 := Hhi). apply Z.pow_le_mono_r; lia. }
  split.
  - split; [intros [text H]; exact (Hback text H) | eauto].
  - intros text H. pose proof (Hback text H) as Hlt.
    rewrite (Hfit Hlt) in H. injection H as <-.
    split.
    + cbn [append String.length].
      rewrite HexFacts.length_of_buffer, BufFacts.length_be_bytes.
      cbn [List.length]. lia.
    + change (toBN ("0x" ++ Hex.of_buffer (BN.be_bytes len z [])) = Ret z).
      rewrite BNFacts.toBN_keccak. f_equal.
      apply BufferFacts.be_value_be_bytes. lia.
Qed.

Lemma bn2hex_fixed_width_witness :
  0 <= 258 /\ (0 < 2)%nat
  /\ ((exists text, bn2hex 258 (Some 2%nat) = Ret text)
      <-> 258 < 256 ^ Z.of_nat 2)
  /\ (forall text,
         bn2hex 258 (Some 2%nat) = Ret text ->
         String.length text = (2 + 2 * 2)%nat /\ toBN text = Ret 258).
Proof.
  split; [lia|]. split; [lia|].
  apply (bn2hex_fixed_width 258 2); lia.
Defined.

(** ** Addresses *)

Module AddressFacts.

Lemma value_upper (c : ascii) : Hex.value (Str.upper c) = Hex.value c.
Proof. destruct c as [[] [] [] [] [] [] [] []]; reflexivity. Qed.

Lemma value_lower (c : ascii) : Hex.value (Str.lower c) = Hex.value c.
Proof. destruct c as [[] [] [] [] [] [] [] []]; reflexivity. Qed.

Lemma digit_values_lower (s : string) :
  digit_values (Str.toLowerCase s) = digit_values s.
Proof.
  induction s as [|c s IH]; [reflexivity|].
  cbn. fold (Str.toLowerCase s). now rewrite value_lower, IH.
Qed.

Lemma digit_values_checksum (address addressHash : string) :
  digit_values (checksum_case address addressHash) = digit_values address.
Proof.
  revert addressHash; induction address as [|c a IH]; intros [|h hs];
    try reflexivity.
  cbn [checksum_case digit_values]. rewrite IH. f_equal.
  destruct (Hex.value h) as [v|]; [|reflexivity].
  destruct (v >? 7); [apply value_upper | reflexivity].
Qed.

Lemma length_checksum (address addressHash : string) :
  String.length (checksum_case address addressHash) = String.length address.
Proof.
  revert addressHash; induction address as [|c a IH]; intros [|h hs];
    try reflexivity.
  cbn [checksum_case String.length]. now rewrite IH.
Qed.

(** [Buffer.from(text, "hex")] sees the digit values only. *)
Lemma to_buffer_values (n : nat) :
  forall s t,
    (String.length s <= n)%nat ->
    digit_values s = digit_values t -> Hex.to_buffer s = Hex.to_buffer t.
Proof.
  induction n as [|n IH]; intros s t Hn Hv.
  - destruct s; [|cbn in Hn; lia]. destruct t; [reflexivity | discriminate Hv].
  - destruct s as [|c1 [|c2 s]], t as [|d1 [|d2 t]]; try discriminate Hv;
      try reflexivity.
    cbn [digit_values] in Hv. injection Hv as H1 H2 Hv.
    cbn [Hex.to_buffer]. rewrite H1, H2.
    destruct (Hex.value d1); [|reflexivity].
    destruct (Hex.value d2); [|reflexivity].
    f_equal. apply IH; [cbn in Hn; lia | exact Hv].
Qed.

Section Digest.

Variable keccak : list byte -> list byte.
Hypothesis keccak_length : forall buf, List.length (keccak buf) = 32%nat.

(** The checksummed address of a digest spells its last 20 bytes. *)
Lemma address_of_digest (buf : list byte) :
  exists addr,
    toChecksumAddress keccak
      ("0x" ++ Str.substr_last 40 (keccak256 keccak buf)) = Ret addr
    /\ String.length addr = 42%nat
    /\ Hex.to_buffer (Str.strip_0x addr) = skipn 12 (keccak buf).
Proof.
  destruct (address_digits keccak keccak_length buf) as [Hl Hd].
  cbv zeta in Hl, Hd.
  set (body := Str.substr_last 40 (keccak256 keccak buf)) in *.
  unfold toChecksumAddress.
  change (Str.strip_0x ("0x" ++ body)) with body.
  rewrite Hl, Hd. cbn [Nat.eqb andb]. eexists. split; [reflexivity|].
  split.
  - cbn [append String.length]. rewrite length_checksum.
    unfold Str.toLowerCase.
    assert (Hm : forall f s, String.length (Str.map f s) = String.length s)
      by (intros f s; induction s; cbn; congruence).
    now rewrite Hm, Hl.
  - match goal with
    | |- Hex.to_buffer (Str.strip_0x ("0x" ++ ?a)) = _ =>
        change (Str.strip_0x ("0x" ++ a)) with a
    end.
    rewrite (to_buffer_values _ _ (Str.toLowerCase body) (le_n _))
      by apply digit_values_checksum.
    rewrite (to_buffer_values _ _ body (le_n _))
      by apply digit_values_lower.
    unfold body, Str.substr_last, keccak256.
    rewrite StrFacts.length_append, HexFacts.length_of_buffer, keccak_length.
    change (String.length "0x" + 2 * 32 - 40)%nat with 26%nat.
    change (Str.drop 26 ("0x" ++ Hex.of_buffer (keccak buf)))
      with (Str.drop (2 * 12) (Hex.of_buffer (keccak buf))).
    now rewrite BufferFacts.drop_of_buffer, BufferFacts.to_buffer_of_buffer.
Qed.

End Digest.

Lemma encode_bytes (curve : EC.t) (x y : Z) :
  0 <= x < EC.p curve -> 0 <= y < EC.p curve ->
  encode curve (Aff x y) false
  = Ret (Hex.of_buffer
           (Hex.byte_of_Z 4
            :: (BN.be_bytes (BN.byteLength (EC.p curve)) x []
                ++ BN.be_bytes (BN.byteLength (EC.p curve)) y [])%list)).
Proof.
  intros Hx Hy. unfold encode. cbn [EC.getX EC.getY bind].
  rewrite !BufFacts.toBuffer_fits;
    try (apply BufFacts.byteLength_mono; lia);
    try (apply BufFacts.byteLength_pos; lia); try lia.
  reflexivity.
Qed.

End AddressFacts.

(** X3. For a point with reduced coordinates and a digest of 32 bytes,
    [pub2addr] returns a text of 42 characters that spells, whatever the
    case of its letters, the last 20 bytes of the digest of the two
    coordinates (the uncompressed encoding without its first byte). *)
Theorem pub2addr_last_20_bytes :
  forall (curve : EC.t) (keccak : list byte -> list byte),
    (forall buf, List.length (keccak buf) = 32%nat) ->
    forall x y : Z,
      0 <= x < EC.p curve -> 0 <= y < EC.p curve ->
      exists addr,
        pub2addr curve keccak (Aff x y) = Ret addr
        /\ String.length addr = 42%nat
        /\ Hex.to_buffer (Str.strip_0x addr)
           = skipn 12
               (keccak (BN.be_bytes (BN.byteLength (EC.p curve)) x []
                        ++ BN.be_bytes (BN.byteLength (EC.p curve)) y [])%list).
Proof.
  intros curve keccak Hlen x y Hx Hy.
  unfold pub2addr. rewrite (AddressFacts.encode_bytes curve x y Hx Hy).
  cbn [bind].
  match goal with
  | |- context [Hex.to_buffer (Str.substr_from 2 (Hex.of_buffer (_ :: ?bs)))] =>
      change (Str.substr_from 2 (Hex.of_buffer (Hex.byte_of_Z 4 :: bs)))
        with (Hex.of_buffer bs);
      rewrite (BufferFacts.to_buffer_of_buffer bs)
  end.
  apply (AddressFacts.address_of_digest keccak Hlen).
Qed.

Lemma pub2addr_last_20_bytes_witness :
  0 <= 7 < EC.p EC.tiny /\ 0 <= 5 < EC.p EC.tiny
  /\ exists addr,
       pub2addr EC.tiny Keccak.keccak256 (Aff 7 5) = Ret addr
       /\ String.length addr = 42%nat
       /\ Hex.to_buffer (Str.strip_0x addr)
          = skipn 12
              (Keccak.keccak256
                 (BN.be_bytes (BN.byteLength (EC.p EC.tiny)) 7 []
                  ++ BN.be_bytes (BN.byteLength (EC.p EC.tiny)) 5 [])%list).
Proof.
  split; [cbn; lia|]. split; [cbn; lia|].
  apply (pub2addr_last_20_bytes EC.tiny Keccak.keccak256
           KeccakFacts.length_keccak256); cbn; lia.
Defined.

(** X4. The challenge that [schnorrSign] returns, spelled out: the
    digest, read as a number, of the 32 bytes of the key's [x], one byte
    for the parity of its [y], the bytes of the message and the last 20
    bytes of the digest of the nonce point's coordinates; the response is
    [(k - d.e) mod n]. *)
Theorem schnorrSign_challenge_formula :
  forall (curve : EC.t) (keccak : list byte -> list byte),
    (forall buf, List.length (keccak buf) = 32%nat) ->
    EC.p curve <= 2 ^ 256 ->
    forall (d px py k rx ry : Z) (msg : string),
      0 <= px < EC.p curve ->
      0 <= rx < EC.p curve -> 0 <= ry < EC.p curve ->
      let R_bytes :=
        (BN.be_bytes (BN.byteLength (EC.p curve)) rx []
         ++ BN.be_bytes (BN.byteLength (EC.p curve)) ry [])%list in
      let e :=
        be_value
          (keccak (BN.be_bytes 32 px []
                   ++ [Hex.byte_of_Z (if Z.even py then 0 else 1)]
                   ++ Hex.to_buffer (Str.strip_0x msg)
                   ++ skipn 12 (keccak R_bytes))%list) in
      schnorrSign curve keccak d (Aff px py) k (Aff rx ry) msg
      = Ret {| Sig.s := (k - d * e) mod EC.n curve; Sig.e := e |}.
Proof.
  intros curve keccak Hlen Hp d px py k rx ry msg Hpx Hrx Hry.
  cbv zeta. unfold schnorrSign, pub2addr.
  rewrite (AddressFacts.encode_bytes curve rx ry Hrx Hry). cbn [bind].
  match goal with
  | |- context [Hex.to_buffer (Str.substr_from 2 (Hex.of_buffer (_ :: ?bs)))] =>
      change (Str.substr_from 2 (Hex.of_buffer (Hex.byte_of_Z 4 :: bs)))
        with (Hex.of_buffer bs);
      rewrite (BufferFacts.to_buffer_of_buffer bs)
  end.
  destruct (AddressFacts.address_of_digest keccak Hlen
              (BN.be_bytes (BN.byteLength (EC.p curve)) rx []
               ++ BN.be_bytes (BN.byteLength (EC.p curve)) ry [])%list)
    as (addr & -> & _ & Hbytes).
  cbn [bind]. unfold schnorrHash. cbn [EC.getX EC.getY bind].
  rewrite BufFacts.toBuffer_32 by lia. cbn [bind].
  rewrite Hbytes. unfold keccak256. rewrite BNFacts.toBN_keccak. cbn [bind].
  unfold BN.umod.
  destruct (Z.even py); reflexivity.
Qed.

Lemma schnorrSign_challenge_formula_witness :
  EC.p EC.tiny <= 2 ^ 256
  /\ 0 <= 7 < EC.p EC.tiny /\ 0 <= 8 < EC.p EC.tiny
  /\ 0 <= 5 < EC.p EC.tiny
  /\ exists e,
       schnorrSign EC.tiny Keccak.keccak256 1 (Aff 7 5) 6 (Aff 7 8)
         zero_digest
       = Ret {| Sig.s := (6 - 1 * e) mod EC.n EC.tiny; Sig.e := e |}.
Proof.
  split; [cbn; lia|]. split; [cbn; lia|]. split; [cbn; lia|].
  split; [cbn; lia|].
  eexists.
  apply (schnorrSign_challenge_formula EC.tiny Keccak.keccak256
           KeccakFacts.length_keccak256); cbn; lia.
Defined.

(** ** Verification: message bytes and keys *)

Module VerifyFacts.

(** Decoding stops at the first pair that is not hexadecimal. *)
Lemma to_buffer_stop (n : nat) :
  forall m junk,
    (String.length m <= n)%nat ->
    Str.forallb Hex.is_digit m = true ->
    Nat.even (String.length m) = true ->
    stops_hex junk = true ->
    Hex.to_buffer (m ++ junk) = Hex.to_buffer m.
Proof.
  induction n as [|n IH]; intros m junk Hn Hd He Hs.
  - destruct m; [|cbn in Hn; lia]. cbn [append Hex.to_buffer].
    destruct junk as [|c1 [|c2 r]]; try reflexivity.
    cbn [stops_hex] in Hs. unfold Hex.is_digit in Hs.
    cbn [Hex.to_buffer].
    destruct (Hex.value c1); [|reflexivity].
    destruct (Hex.value c2); [discriminate Hs | reflexivity].
  - destruct m as [|c1 [|c2 m]].
    + apply (IH EmptyString junk); [cbn; lia | reflexivity | reflexivity | exact Hs].
    + discriminate He.
    + cbn [Str.forallb] in Hd.
      apply andb_prop in Hd as [H1 Hd]. apply andb_prop in Hd as [H2 Hd].
      unfold Hex.is_digit in H1, H2.
      cbn [append Hex.to_buffer].
      destruct (Hex.value c1); [|discriminate H1].
      destruct (Hex.value c2); [|discriminate H2].
      f_equal. apply IH; [cbn in Hn; lia | exact Hd | exact He | exact Hs].
Qed.

Section Verify.

Variable curve : EC.t.
Variable keccak : list byte -> list byte.

(** The challenge reads the message through its decoded bytes only. *)
Lemma schnorrHash_message_bytes (P : point) (addr m1 m2 : string) :
  Hex.to_buffer (Str.strip_0x m1) = Hex.to_buffer (Str.strip_0x m2) ->
  schnorrHash keccak P addr m1 = schnorrHash keccak P addr m2.
Proof. intros H. unfold schnorrHash. now rewrite H. Qed.

Lemma schnorrVerify_message_bytes (pk : key_arg) (m1 m2 : string)
    (sig : sig_arg) :
  Hex.to_buffer (Str.strip_0x m1) = Hex.to_buffer (Str.strip_0x m2) ->
  schnorrVerify curve keccak pk m1 sig = schnorrVerify curve keccak pk m2 sig.
Proof.
  intros H. unfold schnorrVerify.
  destruct (match sig with
            | SigString text => splitSignature text
            | SigObject sg => Ret sg
            end) as [sg|]; cbn [bind]; [|reflexivity].
  destruct (validatePublicKey curve pk) as [valid|]; cbn [bind];
    [|reflexivity].
  destruct (negb valid); [reflexivity|].
  destruct pk as [key|P]; [reflexivity|].
  destruct (pub2addr curve keccak _) as [addr|]; cbn [bind]; [|reflexivity].
  now rewrite (schnorrHash_message_bytes P addr m1 m2 H).
Qed.

End Verify.

End VerifyFacts.

(** X5. [schnorrVerify] reads the message up to the first pair of
    characters that is not hexadecimal: whatever follows a 0x-prefixed
    even number of digits, starting with such a pair (or one character,
    or nothing), leaves the answer as it is, for every key and
    signature. *)
Theorem schnorrVerify_ignores_message_tail :
  forall (curve : EC.t) (keccak : list byte -> list byte)
         (pk : key_arg) (m junk : string) (sig : sig_arg),
    Str.forallb Hex.is_digit m = true ->
    Nat.even (String.length m) = true ->
    stops_hex junk = true ->
    schnorrVerify curve keccak pk ("0x" ++ m ++ junk) sig
    = schnorrVerify curve keccak pk ("0x" ++ m) sig.
Proof.
  intros curve keccak pk m junk sig Hd He Hs.
  apply VerifyFacts.schnorrVerify_message_bytes.
  change (Str.strip_0x ("0x" ++ m ++ junk)) with (m ++ junk).
  change (Str.strip_0x ("0x" ++ m)) with m.
  now apply (VerifyFacts.to_buffer_stop (String.length m)).
Qed.

Lemma schnorrVerify_ignores_message_tail_witness :
  Str.forallb Hex.is_digit "c0de" = true
  /\ Nat.even (String.length "c0de") = true
  /\ stops_hex "xyz" = true
  /\ schnorrVerify EC.tiny ones_digest (KeyPoint (Aff 7 5))
       ("0x" ++ "c0de" ++ "xyz") (SigObject tiny_sig)
     = schnorrVerify EC.tiny ones_digest (KeyPoint (Aff 7 5))
         ("0x" ++ "c0de") (SigObject tiny_sig).
Proof.
  split; [reflexivity|]. split; [reflexivity|]. split; [reflexivity|].
  apply (schnorrVerify_ignores_message_tail EC.tiny ones_digest
           (KeyPoint (Aff 7 5)) "c0de" "xyz" (SigObject tiny_sig));
    reflexivity.
Defined.

(** X6. [schnorrVerify] answers with a boolean only for a key that is a
    point with coordinates: a key given as text, or the point at
    infinity, ends in an exception whatever the signature.  And for a
    point that fails the curve equation the answer is [false]. *)
Theorem schnorrVerify_answers_only_for_affine_points :
  forall (curve : EC.t) (keccak : list byte -> list byte)
         (pk : key_arg) (msg : string) (sig : sig_arg) (answer : bool),
    schnorrVerify curve keccak pk msg sig = Ret answer ->
    exists x y,
      pk = KeyPoint (Aff x y)
      /\ (EC.validate curve (Aff x y) = false -> answer = false).
Proof.
  intros curve keccak pk msg sig answer H.
  unfold schnorrVerify in H.
  destruct (match sig with
            | SigString text => splitSignature text
            | SigObject sg => Ret sg
            end) as [sg|]; cbn [bind] in H; [|discriminate H].
  destruct pk as [key|P]; cbn [validatePublicKey bind] in H;
    [discriminate H|].
  destruct P as [|x y].
  - cbn [EC.validate negb] in H.
    destruct (pub2addr curve keccak _) as [addr|]; cbn [bind] in H;
      [|discriminate H].
    unfold schnorrHash in H. cbn [EC.getX bind] in H. discriminate H.
  - exists x, y. split; [reflexivity|]. intros Hv. rewrite Hv in H.
    cbn [negb] in H. now injection H as <-.
Qed.

Lemma schnorrVerify_answers_only_for_affine_points_witness :
  schnorrVerify EC.tiny ones_digest (KeyPoint off_curve) zero_digest
    (SigObject tiny_sig) = Ret false
  /\ exists x y,
       KeyPoint off_curve = KeyPoint (Aff x y)
       /\ (EC.validate EC.tiny (Aff x y) = false -> false = false).
Proof.
  assert (H : schnorrVerify EC.tiny ones_digest (KeyPoint off_curve)
                zero_digest (SigObject tiny_sig) = Ret false)
    by reflexivity.
  split; [exact H|].
  exact (schnorrVerify_answers_only_for_affine_points EC.tiny ones_digest
           (KeyPoint off_curve) zero_digest (SigObject tiny_sig) false H).
Defined.

(** X7. The signature made of zeros is not answered with [false]: for a
    key that passes the curve check, a challenge of 0 with a response
    that is a multiple of [n] makes both multiples the point at
    infinity, and [schnorrVerify] ends in the TypeError of reading a
    coordinate of that point. *)
Theorem schnorrVerify_zero_signature_raises :
  forall (curve : EC.t) (keccak : list byte -> list byte)
         (P : point) (msg : string) (s : Z),
    EC.validate curve P = true ->
    s mod EC.n curve = 0 ->
    schnorrVerify curve keccak (KeyPoint P) msg
      (SigObject {| Sig.s := s; Sig.e := 0 |})
    = Throw (TypeError "Cannot read properties of null (reading 'fromRed')").
Proof.
  intros curve keccak P msg s Hv Hs.
  unfold schnorrVerify. cbn [bind validatePublicKey Sig.s Sig.e].
  rewrite Hv. cbn [negb]. unfold BN.umod. rewrite Hs.
  assert (H1 : EC.mul curve (EC.g curve) 0 = Inf)
    by (destruct (EC.g curve); reflexivity).
  assert (H2 : EC.mul curve P 0 = Inf) by (destruct P; reflexivity).
  rewrite H1, H2. reflexivity.
Qed.

Lemma schnorrVerify_zero_signature_raises_witness :
  EC.validate EC.tiny (Aff 7 5) = true
  /\ 14 mod EC.n EC.tiny = 0
  /\ schnorrVerify EC.tiny ones_digest (KeyPoint (Aff 7 5)) zero_digest
       (SigObject {| Sig.s := 14; Sig.e := 0 |})
     = Throw (TypeError "Cannot read properties of null (reading 'fromRed')").
Proof.
  split; [reflexivity|]. split; [reflexivity|].
  apply (schnorrVerify_zero_signature_raises EC.tiny ones_digest
           (Aff 7 5) zero_digest 14); reflexivity.
Defined.

(** ** The addition formulas stay on the curve *)

Module ClosureFacts.

Section Closure.

Variable c : EC.t.
Hypothesis field : FieldLaws c.

#[local] Existing Instances
  eqm_setoid Zplus_eqm Zminus_eqm Zmult_eqm Zopp_eqm.

Local Notation "x == y" := (eqm (EC.p c) x y) (at level 70, no associativity).

Lemma redAdd_mod (x y : Z) :
  0 <= x < EC.p c -> 0 <= y < EC.p c ->
  0 <= EC.redAdd c x y < EC.p c /\ EC.redAdd c x y == x + y.
Proof.
  intros Hx Hy. unfold EC.redAdd. cbv zeta.
  destruct (Z.leb_spec (EC.p c) (x + y)) as [H|H].
  - split; [lia|]. unfold eqm.
    replace (x + y - EC.p c) with (x + y + (-1) * EC.p c) by ring.
    apply Z.mod_add. lia.
  - split; [lia | reflexivity].
Qed.

Lemma redSub_mod (x y : Z) :
  0 <= x < EC.p c -> 0 <= y < EC.p c ->
  0 <= EC.redSub c x y < EC.p c /\ EC.redSub c x y == x - y.
Proof.
  intros Hx Hy. unfold EC.redSub. cbv zeta.
  destruct (Z.ltb_spec (x - y) 0) as [H|H].
  - split; [lia|]. unfold eqm.
    replace (x - y + EC.p c) with (x - y + 1 * EC.p c) by ring.
    apply Z.mod_add. lia.
  - split; [lia | reflexivity].
Qed.

Lemma redMul_mod (x y : Z) :
  0 <= x < EC.p c -> 0 <= y < EC.p c ->
  0 <= EC.redMul c x y < EC.p c /\ EC.redMul c x y == x * y.
Proof.
  intros Hx Hy. rewrite (field_mul c field x y Hx Hy).
  split; [apply Z.mod_pos_bound; lia | apply Zmod_eqm].
Qed.

Lemma eqm_small (x y : Z) :
  0 <= x < EC.p c -> 0 <= y < EC.p c -> x == y -> x = y.
Proof.
  intros Hx Hy H. unfold eqm in H.
  now rewrite !Z.mod_small in H by assumption.
Qed.

(** [validate] is the curve equation modulo [p]. *)
Lemma validate_equation (x y : Z) :
  0 <= x < EC.p c -> 0 <= y < EC.p c ->
  (EC.validate c (Aff x y) = true
   <-> y * y == x * x * x + EC.a c * x + EC.b c).
Proof.
  intros Hx Hy. pose proof (field_a c field) as Ha.
  pose proof (field_b c field) as Hb.
  unfold EC.validate. cbv zeta.
  change (EC.redSqr c) with (fun z => EC.redMul c z z). cbv beta.
  destruct (redMul_mod y y Hy Hy) as [Ru Eu].
  set (u := EC.redMul c y y) in *.
  destruct (redMul_mod x x Hx Hx) as [Rxx Exx].
  set (xx := EC.redMul c x x) in *.
  destruct (redMul_mod xx x Rxx Hx) as [Rx3 Ex3].
  set (x3 := EC.redMul c xx x) in *.
  destruct (redMul_mod _ x Ha Hx) as [Rax Eax].
  set (ax := EC.redMul c (EC.a c) x) in *.
  destruct (redAdd_mod x3 ax Rx3 Rax) as [R1 E1].
  set (t := EC.redAdd c x3 ax) in *.
  destruct (redAdd_mod t _ R1 Hb) as [Rr Er].
  set (rhs := EC.redAdd c t (EC.b c)) in *.
  rewrite E1, Ex3, Exx, Eax in Er.
  rewrite <- Eu, <- Er, Z.eqb_eq.
  unfold EC.redSub. cbv zeta. split.
  - intros H0.
    destruct (Z.ltb_spec (u - rhs) 0); [lia|].
    replace u with rhs by lia. reflexivity.
  - intros H. apply (eqm_small u rhs Ru Rr) in H. rewrite H, Z.sub_diag.
    reflexivity.
Qed.

(** The tangent at a point of the curve meets the curve again. *)
Lemma tangent_identity (a b x1 y1 l : Z) :
  let x3 := l * l - (x1 + x1) in
  let y3 := l * (x1 - x3) - y1 in
  y3 * y3 - (x3 * x3 * x3 + a * x3 + b)
  = (y1 * y1 - (x1 * x1 * x1 + a * x1 + b))
    + (l * (y1 + y1) - (x1 * x1 + x1 * x1 + x1 * x1 + a)) * (x3 - x1).
Proof. cbv zeta. ring. Qed.

(** The chord through two points of the curve meets the curve again. *)
Lemma chord_identity (a b x1 y1 x2 l : Z) :
  let x3 := l * l - x1 - x2 in
  let y3 := l * (x1 - x3) - y1 in
  let y2 := y1 - l * (x1 - x2) in
  (x1 - x2) * (y3 * y3 - (x3 * x3 * x3 + a * x3 + b))
  = (y1 * y1 - (x1 * x1 * x1 + a * x1 + b)) * (x3 - x2)
    - (y2 * y2 - (x2 * x2 * x2 + a * x2 + b)) * (x3 - x1).
Proof. cbv zeta. ring. Qed.

Lemma eqm_sub_0 (u v : Z) : u == v <-> u - v == 0.
Proof.
  split; intros H.
  - rewrite H. now rewrite Z.sub_diag.
  - replace u with (u - v + v) by ring. rewrite H. reflexivity.
Qed.

Lemma reduced_range (x y : Z) :
  EC.reduced c (Aff x y) = true <-> 0 <= x < EC.p c /\ 0 <= y < EC.p c.
Proof.
  cbn [EC.reduced]. rewrite !andb_true_iff, !Z.leb_le, !Z.ltb_lt. lia.
Qed.

Lemma on_curve_affine (x y : Z) :
  on_curve c (Aff x y) = true
  <-> (0 <= x < EC.p c /\ 0 <= y < EC.p c)
      /\ y * y == x * x * x + EC.a c * x + EC.b c.
Proof.
  unfold on_curve. rewrite andb_true_iff, reduced_range. split.
  - intros [[Hx Hy] Hv]. split; [auto|]. now apply validate_equation.
  - intros [[Hx Hy] Hv]. split; [auto|]. now apply validate_equation.
Qed.

(** A product with the inverse of the denominator is a quotient. *)
Lemma quotient (num den q : Z) :
  0 < den < EC.p c ->
  q == num * EC.redInvm c den -> q * den == num.
Proof.
  intros Hden Hq. destruct (field_inv c field den Hden) as [_ Ei].
  rewrite Hq. rewrite <- Z.mul_assoc, (Z.mul_comm (EC.redInvm c den)).
  assert (E : den * EC.redInvm c den == 1)
    by (unfold eqm; rewrite Ei, Z.mod_1_l; [reflexivity|];
        pose proof (field_p c field); lia).
  rewrite E. now rewrite Z.mul_1_r.
Qed.

Lemma cancel (den F : Z) :
  0 < den < EC.p c -> den * F == 0 -> F == 0.
Proof.
  intros Hden H. destruct (field_inv c field den Hden) as [_ Ei].
  assert (E : den * EC.redInvm c den == 1)
    by (unfold eqm; rewrite Ei, Z.mod_1_l; [reflexivity|];
        pose proof (field_p c field); lia).
  replace F with (1 * F) by ring. rewrite <- E.
  replace (den * EC.redInvm c den * F)
    with (EC.redInvm c den * (den * F)) by ring.
  rewrite H. now rewrite Z.mul_0_r.
Qed.

Lemma dbl_closed (P : point) :
  on_curve c P = true -> on_curve c (EC.dbl c P) = true.
Proof.
  destruct P as [|x y]; [trivial|].
  intros H. apply on_curve_affine in H as [[Hx Hy] Hval].
  pose proof (field_a c field) as Ha.
  unfold EC.dbl. cbv zeta.
  change (EC.redSqr c) with (fun z => EC.redMul c z z). cbv beta.
  destruct (redAdd_mod y y Hy Hy) as [Rd Ed].
  set (den := EC.redAdd c y y) in *.
  destruct (Z.eqb_spec den 0) as [E0|N0]; [reflexivity|].
  assert (Hden : 0 < den < EC.p c) by lia.
  destruct (field_inv c field den Hden) as [Ri _].
  destruct (redMul_mod x x Hx Hx) as [Rxx Exx].
  set (xx := EC.redMul c x x) in *.
  destruct (redAdd_mod xx xx Rxx Rxx) as [R2 E2].
  set (t2 := EC.redAdd c xx xx) in *.
  destruct (redAdd_mod t2 xx R2 Rxx) as [R3 E3].
  set (t3 := EC.redAdd c t2 xx) in *.
  destruct (redAdd_mod t3 _ R3 Ha) as [Rn En].
  set (num := EC.redAdd c t3 (EC.a c)) in *.
  destruct (redMul_mod num _ Rn Ri) as [Rl El].
  set (l := EC.redMul c num (EC.redInvm c den)) in *.
  destruct (redMul_mod l l Rl Rl) as [Rll Ell].
  set (ll := EC.redMul c l l) in *.
  destruct (redAdd_mod x x Hx Hx) as [R2x E2x].
  set (x2 := EC.redAdd c x x) in *.
  destruct (redSub_mod ll x2 Rll R2x) as [Rnx Enx].
  set (nx := EC.redSub c ll x2) in *.
  destruct (redSub_mod x nx Hx Rnx) as [Rxn Exn].
  set (dx := EC.redSub c x nx) in *.
  destruct (redMul_mod l dx Rl Rxn) as [Rm Em].
  set (m := EC.redMul c l dx) in *.
  destruct (redSub_mod m y Rm Hy) as [Rny Eny].
  set (ny := EC.redSub c m y) in *.
  apply on_curve_affine. split; [auto|].
  pose proof (quotient num den l Hden El) as Hl.
  rewrite Ed, En, E3, E2, Exx in Hl.
  rewrite Ell, E2x in Enx. rewrite Em, Exn in Eny.
  rewrite Eny, Enx.
  apply eqm_sub_0. rewrite (tangent_identity (EC.a c) (EC.b c) x y l).
  apply eqm_sub_0 in Hval, Hl. rewrite Hval, Hl. reflexivity.
Qed.

Lemma add_closed (P Q : point) :
  on_curve c P = true -> on_curve c Q = true ->
  on_curve c (EC.add c P Q) = true.
Proof.
  intros HP HQ.
  destruct P as [|x1 y1]; [exact HQ|]. destruct Q as [|x2 y2]; [exact HP|].
  unfold EC.add.
  destruct (EC.eq (Aff x1 y1) (Aff x2 y2)); [now apply dbl_closed|].
  destruct (EC.eq (EC.neg c (Aff x1 y1)) (Aff x2 y2)); [reflexivity|].
  destruct (Z.eqb_spec x1 x2) as [Ex|Nx]; [reflexivity|].
  apply on_curve_affine in HP as [[Hx1 Hy1] Hv1].
  apply on_curve_affine in HQ as [[Hx2 Hy2] Hv2].
  cbv zeta.
  change (EC.redSqr c) with (fun z => EC.redMul c z z). cbv beta.
  destruct (redSub_mod y1 y2 Hy1 Hy2) as [Rc0 Ec0].
  set (c0 := EC.redSub c y1 y2) in *.
  destruct (redSub_mod x1 x2 Hx1 Hx2) as [Rd Ed].
  set (den := EC.redSub c x1 x2) in *.
  assert (Hden : 0 < den < EC.p c).
  { split; [|lia]. destruct (Z.eq_dec den 0) as [E|E]; [|lia].
    exfalso. apply Nx. apply (eqm_small x1 x2 Hx1 Hx2).
    apply eqm_sub_0. rewrite <- Ed, E. reflexivity. }
  destruct (field_inv c field den Hden) as [Ri _].
  destruct (redMul_mod c0 _ Rc0 Ri) as [Rq Eq].
  set (q := EC.redMul c c0 (EC.redInvm c den)) in *.
  set (l := if negb (c0 =? 0) then q else c0).
  assert (Rl : 0 <= l < EC.p c) by (unfold l; destruct (negb (c0 =? 0)); lia).
  assert (Hl : l * den == c0).
  { unfold l. destruct (Z.eqb_spec c0 0) as [E|E]; cbn [negb].
    - rewrite E. reflexivity.
    - apply quotient; assumption. }
  destruct (redMul_mod l l Rl Rl) as [Rll Ell].
  set (ll := EC.redMul c l l) in *.
  destruct (redSub_mod ll x1 Rll Hx1) as [R1 E1].
  set (t1 := EC.redSub c ll x1) in *.
  destruct (redSub_mod t1 x2 R1 Hx2) as [Rnx Enx].
  set (nx := EC.redSub c t1 x2) in *.
  destruct (redSub_mod x1 nx Hx1 Rnx) as [Rxn Exn].
  set (dx := EC.redSub c x1 nx) in *.
  destruct (redMul_mod l dx Rl Rxn) as [Rm Em].
  set (m := EC.redMul c l dx) in *.
  destruct (redSub_mod m y1 Rm Hy1) as [Rny Eny].
  set (ny := EC.redSub c m y1) in *.
  apply on_curve_affine. split; [auto|].
  rewrite Ed, Ec0 in Hl.
  rewrite E1, Ell in Enx. rewrite Em, Exn in Eny.
  rewrite Eny, Enx.
  apply eqm_sub_0.
  apply (cancel den); [exact Hden|]. rewrite Ed.
  rewrite (chord_identity (EC.a c) (EC.b c) x1 y1 x2 l).
  assert (Hy2' : y1 - l * (x1 - x2) == y2).
  { rewrite Hl. replace (y1 - (y1 - y2)) with y2 by ring. reflexivity. }
  rewrite Hy2'.
  apply eqm_sub_0 in Hv1, Hv2. rewrite Hv1, Hv2. reflexivity.
Qed.

End Closure.

(** The laws of the field of the small curve, and what is left to assume
    of secp256k1: that [redInvm] inverts. *)
Lemma tiny_field : FieldLaws EC.tiny.
Proof.
  constructor.
  - cbn. lia.
  - cbn. lia.
  - cbn. lia.
  - intros x y _ _. reflexivity.
  - intros x Hx. cbn [EC.p EC.tiny] in Hx |- *.
    destruct x as [|q|q]; try lia.
    repeat (try lia;
            match goal with
            | q' : positive |- _ => destruct q' as [q'|q'|]
            end);
      vm_compute; (split; [split; [discriminate | reflexivity] | reflexivity]).
Qed.

Lemma secp256k1_field :
  (forall x,
      0 < x < EC.p EC.secp256k1 ->
      0 <= EC.redInvm EC.secp256k1 x < EC.p EC.secp256k1
      /\ (x * EC.redInvm EC.secp256k1 x) mod EC.p EC.secp256k1 = 1) ->
  FieldLaws EC.secp256k1.
Proof.
  intros Hinv. constructor.
  - vm_compute. reflexivity.
  - vm_compute. split; [discriminate | reflexivity].
  - vm_compute. split; [discriminate | reflexivity].
  - intros x y Hx Hy. apply Secp256k1.redMul_secp256k1; lia.
  - exact Hinv.
Qed.

End ClosureFacts.

(** X8. On a curve whose reduction context computes modulo [p] with
    inverses, and whose generator is on the curve, [pointAdd] of two
    point objects with reduced coordinates is always a point of the
    curve: when both operands pass the curve check it is their sum, which
    the chord and tangent formulas keep on the curve, and otherwise it is
    the generator. *)
Theorem pointAdd_on_curve :
  forall curve : EC.t,
    FieldLaws curve ->
    on_curve curve (EC.g curve) = true ->
    forall P Q : point,
      EC.reduced curve P = true -> EC.reduced curve Q = true ->
      on_curve curve (pointAdd curve P Q) = true.
Proof.
  intros curve field Hg P Q HP HQ. unfold pointAdd.
  destruct (EC.validate curve P) eqn:Hv1;
    destruct (EC.validate curve Q) eqn:Hv2; cbn [andb Bool.eqb];
    try exact Hg.
  apply (ClosureFacts.add_closed curve field); unfold on_curve;
    [rewrite HP, Hv1 | rewrite HQ, Hv2]; reflexivity.
Qed.

Lemma pointAdd_on_curve_witness :
  on_curve EC.tiny (EC.g EC.tiny) = true
  /\ EC.reduced EC.tiny (Aff 7 5) = true
  /\ EC.reduced EC.tiny (Aff 8 5) = true
  /\ EC.validate EC.tiny (Aff 7 5) = true
  /\ EC.validate EC.tiny (Aff 8 5) = true
  /\ pointAdd EC.tiny (Aff 7 5) (Aff 8 5) = EC.add EC.tiny (Aff 7 5) (Aff 8 5)
  /\ on_curve EC.tiny (pointAdd EC.tiny (Aff 7 5) (Aff 8 5)) = true
  /\ on_curve EC.tiny (pointAdd EC.tiny (Aff 7 5) (Aff 7 5)) = true.
Proof.
  assert (Hg : on_curve EC.tiny (EC.g EC.tiny) = true) by reflexivity.
  assert (HP : EC.reduced EC.tiny (Aff 7 5) = true) by reflexivity.
  assert (HQ : EC.reduced EC.tiny (Aff 8 5) = true) by reflexivity.
  split; [exact Hg|]. split; [exact HP|]. split; [exact HQ|].
  split; [reflexivity|]. split; [reflexivity|]. split; [reflexivity|].
  split.
  - exact (pointAdd_on_curve EC.tiny ClosureFacts.tiny_field Hg
             (Aff 7 5) (Aff 8 5) HP HQ).
  - exact (pointAdd_on_curve EC.tiny ClosureFacts.tiny_field Hg
             (Aff 7 5) (Aff 7 5) HP HP).
Defined.

(** ** The text of a signature *)

Module TextFacts.

Lemma length_map (f : ascii -> ascii) (s : string) :
  String.length (Str.map f s) = String.length s.
Proof. induction s as [|c s IH]; cbn; congruence. Qed.

Lemma map_append (f : ascii -> ascii) (a b : string) :
  Str.map f (a ++ b) = Str.map f a ++ Str.map f b.
Proof. induction a as [|c a IH]; cbn; congruence. Qed.

Lemma value_range (c : ascii) (d : Z) :
  Hex.value c = Some d -> 0 <= d < 16.
Proof.
  intros Hc. unfold Hex.value in Hc.
  repeat match type of Hc with
         | (if ?b then _ else _) = _ => destruct b eqn:?
         end; try discriminate Hc; injection Hc as <-; lia.
Qed.

(** A digit string read from the accumulator [a] lands in the block of
    [a]. *)
Lemma parse_block (h : string) :
  forall a v,
    0 <= a -> Hex.parse_from a h = Some v ->
    a * 16 ^ Z.of_nat (String.length h) <= v
      < (a + 1) * 16 ^ Z.of_nat (String.length h).
Proof.
  induction h as [|c h IH]; intros a v Ha H.
  - cbn in H. injection H as <-. cbn. lia.
  - cbn [Hex.parse_from] in H.
    destruct (Hex.value c) as [d|] eqn:Hc; [|discriminate H].
    pose proof (value_range c d Hc) as Hd.
    apply IH in H; [|lia].
    cbn [String.length]. rewrite Nat2Z.inj_succ, Z.pow_succ_r by lia.
    nia.
Qed.

(** Lower-case digit strings of one length are told apart by their
    value. *)
Lemma parse_injective (A : string) :
  forall B a,
    lowhex A = true -> lowhex B = true ->
    String.length A = String.length B -> 0 <= a ->
    Hex.parse_from a A = Hex.parse_from a B -> A = B.
Proof.
  induction A as [|c1 A IH]; intros [|c2 B] a HA HB Hl Ha H;
    try discriminate Hl; [reflexivity|].
  cbn [lowhex Str.forallb] in HA, HB. fold (lowhex A) in HA.
  fold (lowhex B) in HB.
  apply andb_prop in HA as [H1 HA]. apply andb_prop in HB as [H2 HB].
  unfold is_lowhex in H1, H2.
  cbn [Hex.parse_from] in H.
  destruct (Hex.value c1) as [d1|] eqn:Hc1; [|discriminate H1].
  destruct (Hex.value c2) as [d2|] eqn:Hc2; [|discriminate H2].
  apply Ascii.eqb_eq in H1, H2.
  pose proof (value_range c1 d1 Hc1) as Hd1.
  pose proof (value_range c2 d2 Hc2) as Hd2.
  injection Hl as Hl.
  destruct (BNFacts.parse_digits A (16 * a + d1)
              (HexFacts.lowhex_is_digit A HA) ltac:(lia)) as (v & Hv & _).
  pose proof (parse_block A (16 * a + d1) v ltac:(lia) Hv) as R1.
  rewrite Hv in H. symmetry in H.
  pose proof (parse_block B (16 * a + d2) v ltac:(lia) H) as R2.
  rewrite <- Hl in R2.
  assert (Hpow : 0 < 16 ^ Z.of_nat (String.length A))
    by (apply Z.pow_pos_nonneg; lia).
  assert (E : d1 = d2) by nia.
  subst d2. f_equal; [congruence|].
  apply (IH B (16 * a + d1)); try assumption; [lia | congruence].
Qed.

(** Printing the value of a block of digits gives the block back in
    lower case. *)
Lemma fixed_parse (A : string) (v : Z) :
  Str.forallb Hex.is_digit A = true ->
  Hex.parse A = Some v ->
  Hex.fixed (String.length A) v EmptyString = Str.toLowerCase A.
Proof.
  intros Hd Hv.
  pose proof (parse_block A 0 v ltac:(lia) Hv) as R.
  apply (parse_injective _ _ 0).
  - now apply HexFacts.lowhex_fixed.
  - now apply BNFacts.lowhex_lower.
  - rewrite HexFacts.length_fixed. unfold Str.toLowerCase.
    rewrite length_map. cbn. lia.
  - lia.
  - rewrite BNFacts.parse_lower by exact Hd.
    fold (Hex.parse A). rewrite Hv.
    apply HexFacts.parse_fixed_small. lia.
Qed.

Lemma hexLength_spec (z : Z) :
  0 <= z -> z < 16 ^ Z.of_nat (BN.hexLength z).
Proof.
  intros Hz. unfold BN.hexLength. rewrite Z.abs_eq by lia.
  destruct (z =? 0) eqn:E.
  - apply Z.eqb_eq in E. subst z. reflexivity.
  - apply Z.eqb_neq in E.
    pose proof (Z.log2_nonneg z) as Hl.
    assert (Hq : 0 <= Z.log2 z / 4) by (apply Z.div_pos; lia).
    rewrite Z2Nat.id by lia.
    replace 16 with (2 ^ 4) by reflexivity.
    rewrite <- Z.pow_mul_r by lia.
    apply Z.log2_lt_pow2; [lia|].
    pose proof (Z.mul_div_le (Z.log2 z) 4 ltac:(lia)).
    pose proof (Z.mod_pos_bound (Z.log2 z) 4 ltac:(lia)).
    pose proof (Z.div_mod (Z.log2 z) 4 ltac:(lia)). lia.
Qed.

Lemma hexLength_large (z : Z) :
  2 ^ 256 <= z -> (65 <= BN.hexLength z)%nat.
Proof.
  intros Hz. unfold BN.hexLength.
  assert (H0 : 0 < 2 ^ 256) by reflexivity.
  rewrite Z.abs_eq by lia.
  destruct (z =? 0) eqn:E; [apply Z.eqb_eq in E; lia|].
  assert (Hl : 256 <= Z.log2 z) by (apply Z.log2_le_pow2; lia).
  assert (Hq : 64 <= Z.log2 z / 4)
    by (apply Z.div_le_lower_bound; lia).
  lia.
Qed.

Lemma round_up_le (len padding : nat) :
  (len <= BN.round_up len padding)%nat.
Proof.
  unfold BN.round_up. destruct padding as [|q]; [lia|].
  set (p := S q).
  pose proof (Nat.div_mod (len + p - 1) p ltac:(lia)) as E.
  pose proof (Nat.mod_upper_bound (len + p - 1) p ltac:(lia)) as B.
  nia.
Qed.

Lemma round_up_multiple (len padding : nat) :
  (0 < padding)%nat ->
  exists q, BN.round_up len padding = (q * padding)%nat.
Proof.
  intros H. unfold BN.round_up. destruct padding as [|q]; [lia|].
  eexists. reflexivity.
Qed.

Lemma length_toString16 (z : Z) (padding : nat) :
  0 <= z ->
  String.length (BN.toString16 z padding)
  = BN.round_up (BN.hexLength z) padding.
Proof.
  intros Hz. unfold BN.toString16.
  destruct (z <? 0) eqn:E; [apply Z.ltb_lt in E; lia|].
  rewrite HexFacts.length_fixed. cbn. lia.
Qed.

(** What [toString(16, padding)] prints reads back as the number. *)
Lemma toBN_toString16 (z : Z) (padding : nat) :
  0 <= z -> toBN ("0x" ++ BN.toString16 z padding) = Ret z.
Proof.
  intros Hz. unfold BN.toString16.
  destruct (z <? 0) eqn:E; [apply Z.ltb_lt in E; lia|].
  rewrite Z.abs_eq by lia.
  apply BNFacts.toBN_hex; [now apply HexFacts.lowhex_fixed|].
  apply HexFacts.parse_fixed_small. split; [lia|].
  eapply Z.lt_le_trans; [apply (hexLength_spec z Hz)|].
  apply Z.pow_le_mono_r; [lia|].
  apply inj_le, round_up_le.
Qed.

(** A block of 64 digits is enough exactly below [2^256]. *)
Lemma length_toString16_64 (z : Z) :
  0 <= z ->
  (64 <= String.length (BN.toString16 z 64))%nat
  /\ (2 ^ 256 <= z -> (128 <= String.length (BN.toString16 z 64))%nat).
Proof.
  intros Hz. rewrite (length_toString16 z 64 Hz).
  destruct (round_up_multiple (BN.hexLength z) 64 ltac:(lia)) as [q Hq].
  pose proof (round_up_le (BN.hexLength z) 64) as Hle.
  assert (H1 : (1 <= BN.hexLength z)%nat).
  { unfold BN.hexLength. destruct (Z.abs z =? 0); [lia|].
    pose proof (Z.log2_nonneg (Z.abs z)).
    assert (0 <= Z.log2 (Z.abs z) / 4) by (apply Z.div_pos; lia). lia. }
  split; [lia|]. intros Hbig.
  pose proof (hexLength_large z Hbig). lia.
Qed.

End TextFacts.

(** X9. The text of a signature reads back as the signature exactly when
    both numbers are below [2^256]: from [2^256] on, a number takes 128
    digits or more and [splitSignature] refuses the text. *)
Theorem codec_roundtrip_iff_256 :
  forall e s : Z,
    0 <= e -> 0 <= s ->
    (splitSignature (stringifySignature {| Sig.s := s; Sig.e := e |})
       = Ret {| Sig.s := s; Sig.e := e |}
     <-> e < 2 ^ 256 /\ s < 2 ^ 256)
    /\ (2 ^ 256 <= e \/ 2 ^ 256 <= s ->
        splitSignature (stringifySignature {| Sig.s := s; Sig.e := e |})
          = Throw (ThrowString "invalid schnorr signature string")).
Proof.
  intros e s He Hs.
  assert (Hbig : 2 ^ 256 <= e \/ 2 ^ 256 <= s ->
            splitSignature (stringifySignature {| Sig.s := s; Sig.e := e |})
            = Throw (ThrowString "invalid schnorr signature string")).
  { intros Hor. apply Codec.splitSignature_malformed.
    unfold stringifySignature. cbn [Sig.e Sig.s].
    rewrite Codec.replace_first_prefixed, StrFacts.length_append.
    destruct (TextFacts.length_toString16_64 e He) as [He1 He2].
    destruct (TextFacts.length_toString16_64 s Hs) as [Hs1 Hs2].
    destruct Hor as [H|H]; [specialize (He2 H) | specialize (Hs2 H)]; lia. }
  split; [|exact Hbig]. split.
  - intros Hok.
    destruct (Z_lt_le_dec e (2 ^ 256)) as [He'|He'];
      [|rewrite Hbig in Hok by (left; exact He'); discriminate Hok].
    destruct (Z_lt_le_dec s (2 ^ 256)) as [Hs'|Hs'];
      [|rewrite Hbig in Hok by (right; exact Hs'); discriminate Hok].
    split; assumption.
  - intros [He' Hs']. apply Codec.roundtrip_256; lia.
Qed.

Lemma codec_roundtrip_iff_256_witness :
  0 <= 2 ^ 256 /\ 0 <= 1
  /\ (splitSignature (stringifySignature {| Sig.s := 1; Sig.e := 2 ^ 256 |})
        = Ret {| Sig.s := 1; Sig.e := 2 ^ 256 |}
      <-> 2 ^ 256 < 2 ^ 256 /\ 1 < 2 ^ 256)
  /\ (2 ^ 256 <= 2 ^ 256 \/ 2 ^ 256 <= 1 ->
      splitSignature (stringifySignature {| Sig.s := 1; Sig.e := 2 ^ 256 |})
        = Throw (ThrowString "invalid schnorr signature string")).
Proof.
  split; [lia|]. split; [lia|].
  apply (codec_roundtrip_iff_256 (2 ^ 256) 1); lia.
Defined.

(** X10. Decoding then encoding puts a signature text in canonical
    form: for 128 hexadecimal digits in either case, with or without the
    prefix, [splitSignature] returns a signature of two numbers in
    [0, 2^256) whose text is the prefix followed by the same digits in
    lower case. *)
Theorem stringifySignature_splitSignature :
  forall (prefixed : bool) (body : string),
    String.length body = 128%nat ->
    Str.forallb Hex.is_digit body = true ->
    exists sg,
      splitSignature (with_prefix prefixed body) = Ret sg
      /\ 0 <= Sig.e sg < 2 ^ 256 /\ 0 <= Sig.s sg < 2 ^ 256
      /\ stringifySignature sg = "0x" ++ Str.toLowerCase body.
Proof.
  intros prefixed body Hlen Hd.
  destruct (StrFacts.substring_split 64 64 body Hlen) as (Hsplit & HlA & HlB).
  set (A := String.substring 0 64 body) in *.
  set (B := String.substring 64 64 body) in *.
  rewrite Hsplit in Hd. rewrite StrFacts.forallb_append in Hd.
  apply andb_prop in Hd as [HdA HdB].
  destruct (BNFacts.parse_digits A 0 HdA ltac:(lia)) as (a & Ha & Ra).
  destruct (BNFacts.parse_digits B 0 HdB ltac:(lia)) as (b & Hb & Rb).
  rewrite HlA in Ra. rewrite HlB in Rb.
  change (16 ^ Z.of_nat 64) with (2 ^ 256) in Ra, Rb.
  exists {| Sig.s := b; Sig.e := a |}. split.
  - rewrite Hsplit. now apply Codec.splitSignature_blocks.
  - cbn [Sig.e Sig.s]. split; [lia|]. split; [lia|].
    rewrite Codec.stringifySignature_blocks by lia.
    assert (Hlow : Str.toLowerCase body
                   = Str.toLowerCase A ++ Str.toLowerCase B)
      by (rewrite Hsplit at 1; apply TextFacts.map_append).
    rewrite Hlow.
    rewrite <- (TextFacts.fixed_parse A a HdA Ha).
    rewrite <- (TextFacts.fixed_parse B b HdB Hb).
    now rewrite HlA, HlB.
Qed.

Lemma stringifySignature_splitSignature_witness :
  String.length ab_body = 128%nat
  /\ Str.forallb Hex.is_digit ab_body = true
  /\ exists sg,
       splitSignature (with_prefix false ab_body) = Ret sg
       /\ 0 <= Sig.e sg < 2 ^ 256 /\ 0 <= Sig.s sg < 2 ^ 256
       /\ stringifySignature sg = "0x" ++ Str.toLowerCase ab_body.
Proof.
  split; [reflexivity|]. split; [reflexivity|].
  apply (stringifySignature_splitSignature false ab_body); reflexivity.
Defined.

(** X11. [splitSignature] removes the first [0x] wherever it stands:
    after any run of hexadecimal digits it is taken out just as at the
    front, so both texts decode alike (or fail alike). *)
Theorem splitSignature_prefix_anywhere :
  forall pre post : string,
    Str.forallb Hex.is_digit pre = true ->
    splitSignature (pre ++ "0x" ++ post) = splitSignature ("0x" ++ pre ++ post).
Proof.
  intros pre post Hd.
  assert (H : Str.replace_first "0x" (pre ++ "0x" ++ post) = pre ++ post).
  { induction pre as [|c pre IH];
      [apply Codec.replace_first_prefixed|].
    cbn [Str.forallb] in Hd. apply andb_prop in Hd as [Hc Hd].
    change ((String c pre) ++ "0x" ++ post)
      with (String c (pre ++ "0x" ++ post)).
    cbn [Str.replace_first].
    assert (String.prefix "0x" (String c (pre ++ "0x" ++ post)) = false)
      as ->.
    { destruct (ascii_dec "0" c) as [E|E];
        [|now apply StrFacts.prefix_head_neq].
      subst c. rewrite StrFacts.prefix_head_eq.
      destruct pre as [|c' pre];
        [now apply StrFacts.prefix_head_neq|].
      apply StrFacts.prefix_head_neq. intros E'. subst c'.
      cbn in Hd. discriminate Hd. }
    rewrite (IH Hd). reflexivity. }
  unfold splitSignature.
  rewrite H, (Codec.replace_first_prefixed (pre ++ post)). reflexivity.
Qed.

Lemma splitSignature_prefix_anywhere_witness :
  Str.forallb Hex.is_digit "c0de" = true
  /\ splitSignature ("c0de" ++ "0x" ++ ab_body)
     = splitSignature ("0x" ++ "c0de" ++ ab_body).
Proof.
  split; [reflexivity|].
  apply (splitSignature_prefix_anywhere "c0de" ab_body). reflexivity.
Defined.

(** ** Signatures made by [schnorrSign] *)

Module SignFacts.

Section Sign.

Variable curve : EC.t.
Variable keccak : list byte -> list byte.
Hypothesis keccak_length : forall buf, List.length (keccak buf) = 32%nat.

(** Both numbers of a signature fit 32 bytes. *)
Lemma schnorrSign_range (d : Z) (P : point) (k : Z) (R : point)
    (msg : string) (sg : Sig.t) :
  0 < EC.n curve <= 2 ^ 256 ->
  schnorrSign curve keccak d P k R msg = Ret sg ->
  0 <= Sig.e sg < 2 ^ 256 /\ 0 <= Sig.s sg < 2 ^ 256.
Proof.
  intros Hn H.
  destruct (schnorrSign_inv curve keccak d P k R msg sg H)
    as (addr & h & _ & Hh & He & Hs).
  destruct (schnorrHash_digest keccak P addr msg h Hh) as [buf ->].
  unfold keccak256 in He. rewrite BNFacts.toBN_keccak in He.
  injection He as He.
  pose proof (HexFacts.be_value_range (keccak buf)) as Hr.
  rewrite keccak_length in Hr.
  change (256 ^ Z.of_nat 32) with (2 ^ 256) in Hr.
  split; [lia|]. rewrite Hs.
  pose proof (Z.mod_pos_bound (k - d * Sig.e sg) (EC.n curve) ltac:(lia)).
  lia.
Qed.

Hypothesis laws : GroupLaws curve.

(** With the public and nonce points of the scalars, a signature
    comes back. *)
Lemma schnorrSign_returns (d k : Z) (msg : string) :
  0 < d < EC.n curve -> 0 < k < EC.n curve ->
  exists sg,
    schnorrSign curve keccak d (EC.mul curve (EC.g curve) d)
      k (EC.mul curve (EC.g curve) k) msg = Ret sg.
Proof.
  intros Hd Hk.
  pose proof (p_range curve laws) as Hp.
  destruct (mul_G_affine curve laws d Hd) as (px & py & HP & Hpx & Hpy).
  destruct (mul_G_affine curve laws k Hk) as (rx & ry & HR & Hrx & Hry).
  destruct (pub2addr_affine curve keccak keccak_length Hp rx ry Hrx Hry)
    as [addr Haddr].
  destruct (schnorrHash_affine curve keccak Hp px py addr msg Hpx)
    as [buf Hhash].
  unfold schnorrSign. rewrite HP, HR, Haddr. cbn [bind].
  rewrite Hhash. cbn [bind]. unfold keccak256.
  rewrite BNFacts.toBN_keccak. cbn [bind]. eauto.
Qed.

(** What [schnorrSign] returned for the scalars [d] and [k] is
    accepted under the public point of [d]. *)
Lemma schnorrVerify_signed (d k : Z) (msg : string) (sg : Sig.t) :
  0 <= d -> 0 <= k < EC.n curve ->
  schnorrSign curve keccak d (EC.mul curve (EC.g curve) d)
    k (EC.mul curve (EC.g curve) k) msg = Ret sg ->
  schnorrVerify curve keccak (KeyPoint (EC.mul curve (EC.g curve) d)) msg
    (SigObject sg) = Ret true.
Proof.
  intros Hd Hk H.
  pose proof (n_pos curve laws) as Hn.
  pose proof (g_on_curve curve laws) as HG.
  destruct (schnorrSign_inv curve keccak d _ k _ msg sg H)
    as (addr & h & Haddr & Hh & He & Hs).
  assert (He0 : 0 <= Sig.e sg).
  { destruct (schnorrHash_digest keccak _ addr msg h Hh) as [buf ->].
    unfold keccak256 in He. rewrite BNFacts.toBN_keccak in He.
    injection He as <-. apply HexFacts.be_value_range. }
  rewrite schnorrVerify_object.
  rewrite (on_curve_validate curve _ (mul_on_curve curve laws d _ HG Hd)).
  cbn [negb]. unfold recomputedChallenge, pointAdd.
  rewrite Hs. unfold BN.umod. rewrite Z.mod_mod by lia.
  rewrite (on_curve_validate curve _
             (mul_on_curve curve laws _ _ HG
                (proj1 (Z.mod_pos_bound (k - d * Sig.e sg) (EC.n curve) Hn)))).
  rewrite (on_curve_validate curve _
             (mul_on_curve curve laws (Sig.e sg) _
                (mul_on_curve curve laws d _ HG Hd) He0)).
  cbn [andb Bool.eqb].
  rewrite (rebuild_nonce_point curve laws d k (Sig.e sg) Hd Hk He0).
  rewrite Haddr. cbn [bind]. rewrite Hh. cbn [bind]. rewrite He.
  cbn [bind]. now rewrite Z.eqb_refl.
Qed.

End Sign.

End SignFacts.

(** X12. With a digest of 32 bytes and an order of at most 256 bits, a
    signature that [schnorrSign] returns, for whatever scalars and
    points, has both numbers below [2^256]; its text has 130 characters
    and [splitSignature] reads the signature back from it. *)
Theorem schnorrSign_text_roundtrip :
  forall (curve : EC.t) (keccak : list byte -> list byte),
    (forall buf, List.length (keccak buf) = 32%nat) ->
    0 < EC.n curve <= 2 ^ 256 ->
    forall (d : Z) (P : point) (k : Z) (R : point) (msg : string)
           (sg : Sig.t),
      schnorrSign curve keccak d P k R msg = Ret sg ->
      String.length (stringifySignature sg) = 130%nat
      /\ splitSignature (stringifySignature sg) = Ret sg.
Proof.
  intros curve keccak Hlen Hn d P k R msg sg H.
  destruct (SignFacts.schnorrSign_range curve keccak Hlen d P k R msg sg Hn H)
    as [He Hs].
  destruct sg as [s e]. cbn [Sig.e Sig.s] in He, Hs. split.
  - rewrite Codec.stringifySignature_blocks by assumption.
    cbn [with_prefix]. rewrite !StrFacts.length_append.
    rewrite !HexFacts.length_fixed. reflexivity.
  - now apply Codec.roundtrip_256.
Qed.

Lemma schnorrSign_text_roundtrip_witness :
  (forall buf, List.length (ones_digest buf) = 32%nat)
  /\ 0 < EC.n EC.tiny <= 2 ^ 256
  /\ schnorrSign EC.tiny ones_digest 3 (Aff 7 5) 5 (Aff 7 8) zero_digest
     = Ret {| Sig.s := 2; Sig.e := 2 ^ 256 - 1 |}
  /\ String.length
       (stringifySignature {| Sig.s := 2; Sig.e := 2 ^ 256 - 1 |}) = 130%nat
  /\ splitSignature
       (stringifySignature {| Sig.s := 2; Sig.e := 2 ^ 256 - 1 |})
     = Ret {| Sig.s := 2; Sig.e := 2 ^ 256 - 1 |}.
Proof.
  assert (Hlen : forall buf, List.length (ones_digest buf) = 32%nat)
    by (intros buf; reflexivity).
  assert (Hn : 0 < EC.n EC.tiny <= 2 ^ 256) by (cbn; lia).
  assert (H : schnorrSign EC.tiny ones_digest 3 (Aff 7 5) 5 (Aff 7 8)
                zero_digest
              = Ret {| Sig.s := 2; Sig.e := 2 ^ 256 - 1 |})
    by (vm_compute; reflexivity).
  split; [exact Hlen|]. split; [exact Hn|]. split; [exact H|].
  exact (schnorrSign_text_roundtrip EC.tiny ones_digest Hlen Hn
           3 (Aff 7 5) 5 (Aff 7 8) zero_digest _ H).
Defined.

(** X13. On a curve whose points form a group in which the generator
    has an order [n] of at most 256 bits, and with a digest of 32 bytes:
    for scalars [d] and [k] in [1, n), the text of the signature that
    [schnorrSign] returns is accepted by [schnorrVerify] under the
    public point of [d]. *)
Theorem schnorrVerify_accepts_signature_text :
  forall (curve : EC.t) (keccak : list byte -> list byte),
    GroupLaws curve ->
    (forall buf, List.length (keccak buf) = 32%nat) ->
    EC.n curve <= 2 ^ 256 ->
    forall (d k : Z) (msg : string),
      1 <= d < EC.n curve -> 1 <= k < EC.n curve ->
      exists sg,
        schnorrSign curve keccak d (EC.mul curve (EC.g curve) d)
          k (EC.mul curve (EC.g curve) k) msg = Ret sg
        /\ schnorrVerify curve keccak
             (KeyPoint (EC.mul curve (EC.g curve) d)) msg
             (SigString (stringifySignature sg))
           = Ret true.
Proof.
  intros curve keccak laws Hlen Hn d k msg Hd Hk.
  destruct (SignFacts.schnorrSign_returns curve keccak Hlen laws d k msg
              ltac:(lia) ltac:(lia)) as [sg Hsg].
  exists sg. split; [exact Hsg|].
  pose proof (SignFacts.schnorrVerify_signed curve keccak laws d k msg sg
                ltac:(lia) ltac:(lia) Hsg) as Hok.
  destruct (SignFacts.schnorrSign_range curve keccak Hlen d _ k _ msg sg
              ltac:(pose proof (n_pos curve laws); lia) Hsg) as [He Hs].
  destruct sg as [s e]. cbn [Sig.e Sig.s] in He, Hs.
  unfold schnorrVerify in Hok |- *.
  rewrite (Codec.roundtrip_256 e s He Hs). exact Hok.
Qed.

Lemma schnorrVerify_accepts_signature_text_witness :
  (forall buf, List.length (Keccak.keccak256 buf) = 32%nat)
  /\ EC.n EC.tiny <= 2 ^ 256
  /\ 1 <= 3 < EC.n EC.tiny /\ 1 <= 5 < EC.n EC.tiny
  /\ exists sg,
       schnorrSign EC.tiny Keccak.keccak256 3 (EC.mul EC.tiny (EC.g EC.tiny) 3)
         5 (EC.mul EC.tiny (EC.g EC.tiny) 5) zero_digest = Ret sg
       /\ schnorrVerify EC.tiny Keccak.keccak256
            (KeyPoint (EC.mul EC.tiny (EC.g EC.tiny) 3)) zero_digest
            (SigString (stringifySignature sg))
          = Ret true.
Proof.
  split; [exact KeccakFacts.length_keccak256|].
  split; [cbn; lia|]. split; [cbn; lia|]. split; [cbn; lia|].
  apply (schnorrVerify_accepts_signature_text EC.tiny Keccak.keccak256
           Tiny.laws KeccakFacts.length_keccak256); cbn; lia.
Defined.

(** ** The JSON view of a key and the response of [runMuonApp] *)

Module ResponseFacts.

Section View.

Variable curve : EC.t.
Variable keccak : list byte -> list byte.

(** The minimal view of a point whose [x] fits 32 bytes. *)
Lemma pub2json_minimal_view (x y : Z) :
  0 <= x < 2 ^ 256 ->
  pub2json curve keccak (Aff x y) true
  = Ret {| PubJson.address := None;
           PubJson.encoded := None;
           PubJson.x := "0x" ++ Hex.of_buffer (BN.be_bytes 32 x []);
           PubJson.yParity := if Z.even y then "0" else "1" |}.
Proof.
  intros Hx. unfold pub2json. cbn [bind EC.getX EC.getY fst snd].
  rewrite BufFacts.toBuffer_32 by exact Hx. cbn [bind].
  rewrite Zmod_even. destruct (Z.even y); reflexivity.
Qed.

Lemma x_text (x : Z) :
  0 <= x < 2 ^ 256 ->
  String.length ("0x" ++ Hex.of_buffer (BN.be_bytes 32 x [])) = 66%nat
  /\ toBN ("0x" ++ Hex.of_buffer (BN.be_bytes 32 x [])) = Ret x.
Proof.
  intros Hx. split.
  - cbn [append String.length].
    now rewrite HexFacts.length_of_buffer, BufFacts.length_be_bytes.
  - rewrite BNFacts.toBN_keccak. f_equal.
    apply BufferFacts.be_value_be_bytes.
    change (256 ^ Z.of_nat 32) with (2 ^ 256). exact Hx.
Qed.

Variable soliditySha3 : list sha3_arg -> result string.

(** The parts of a returned response that the code sets after the
    module's callbacks, and the contents the callbacks left. *)
Lemma runMuonApp_frame (env : Env.t) (request : Request.t) (r : Response.t) :
  runMuonApp curve keccak soliditySha3 env request = Ret r ->
  let pub := getPublic curve (keyFromPrivate curve (Env.PRIVATE_KEY env)) in
  exists entry,
    Response.signatures r = Some [entry]
    /\ pub2addr curve keccak pub = Ret (SignatureEntry.owner entry)
    /\ pub2json curve keccak pub true = Ret (SignatureEntry.ownerPubKey entry)
    /\ Response.reqId r
       = Some ("0x" ++ getPrivate_hex (Env.random env 0%nat))
    /\ forall muonApp,
         Env.modules env ("./muon-apps/" ++ Request.app request ++ ".js")
           = Some muonApp ->
         keeps_response muonApp ->
         Response.app r = Request.app request
         /\ Response.method r = Request.method request
         /\ Data.timestamp (Response.data r) = Env.now env / 1000
         /\ Data.params (Response.data r)
            = match Request.params request with
              | Some v => v
              | None => JObj []
              end.
Proof.
  unfold runMuonApp, moduleIsAvailable, require. intros H. cbv zeta.
  destruct (Env.modules env _) as [muonApp|]; cbn [negb] in H;
    [|discriminate H].
  destruct (soliditySha3 [ArgString _]) as [idHash|]; cbn [bind] in H;
    [|discriminate H].
  destruct (BigInt idHash) as [idNumber|]; cbn [bind] in H; [|discriminate H].
  match type of H with
  | context [MuonApp.onRequest muonApp ?resp] => set (response0 := resp) in *
  end.
  destruct (MuonApp.onRequest muonApp response0) as [[v response1]|] eqn:Hreq;
    cbn [bind fst snd] in H; [|discriminate H].
  destruct (MuonApp.signParams muonApp response1 v) as [[own response2]|]
    eqn:Hown; cbn [bind fst snd] in H; [|discriminate H].
  destruct (soliditySha3 (List.map ArgField own)) as [h0|]; cbn [bind] in H;
    [|discriminate H].
  match type of H with
  | context [soliditySha3 (List.map ArgField ?fs)] =>
      destruct (soliditySha3 (List.map ArgField fs)) as [h|];
      cbn [bind] in H; [|discriminate H]
  end.
  destruct (schnorrSign curve keccak _ _ _ _ h) as [sg|];
    cbn [bind] in H; [|discriminate H].
  destruct (pub2addr curve keccak _) as [owner|] eqn:Howner; cbn [bind] in H;
    [|discriminate H].
  destruct (pub2json curve keccak _ true) as [view|] eqn:Hview;
    cbn [bind] in H; [|discriminate H].
  destruct (bn2hex (Sig.s sg) None) as [text|]; cbn [bind] in H;
    [|discriminate H].
  injection H as <-.
  exists {| SignatureEntry.owner := owner;
            SignatureEntry.ownerPubKey := view;
            SignatureEntry.signature := text |}.
  cbn [Response.reqId Response.app Response.method Response.data
       Response.signatures Data.timestamp Data.params
       SignatureEntry.owner SignatureEntry.ownerPubKey].
  repeat (split; [reflexivity|]).
  intros muonApp' Hsome [Hkeep1 Hkeep2].
  injection Hsome as <-.
  pose proof (Hkeep1 _ _ _ Hreq) as E1. subst response1.
  pose proof (Hkeep2 _ _ _ _ Hown) as E2. subst response2.
  repeat split; reflexivity.
Qed.

End View.

End ResponseFacts.

(** X14. The JSON view of a point with reduced coordinates, on a field
    of at most 256 bits: [x] is a text of 66 characters that reads back
    as the coordinate, [yParity] is the parity of [y] as text; the
    minimal view has no address and no encoding, the full view has the
    address of [pub2addr] and the compressed encoding. *)
Theorem pub2json_fields :
  forall (curve : EC.t) (keccak : list byte -> list byte),
    (forall buf, List.length (keccak buf) = 32%nat) ->
    1 < EC.p curve <= 2 ^ 256 ->
    forall (minimal : bool) (x y : Z),
      0 <= x < EC.p curve -> 0 <= y < EC.p curve ->
      exists view,
        pub2json curve keccak (Aff x y) minimal = Ret view
        /\ String.length (PubJson.x view) = 66%nat
        /\ toBN (PubJson.x view) = Ret x
        /\ PubJson.yParity view = (if Z.even y then "0" else "1")
        /\ (if minimal
            then PubJson.address view = None /\ PubJson.encoded view = None
            else
              (exists addr,
                 pub2addr curve keccak (Aff x y) = Ret addr
                 /\ PubJson.address view = Some addr)
              /\ (exists enc,
                    encode curve (Aff x y) true = Ret enc
                    /\ PubJson.encoded view = Some enc)).
Proof.
  intros curve keccak Hlen Hp minimal x y Hx Hy.
  assert (Hx' : 0 <= x < 2 ^ 256) by lia.
  destruct (ResponseFacts.x_text x Hx') as [Hl Hv].
  destruct minimal.
  - rewrite (ResponseFacts.pub2json_minimal_view curve keccak x y Hx').
    eexists. split; [reflexivity|].
    cbn [PubJson.x PubJson.yParity PubJson.address PubJson.encoded].
    repeat split; assumption || reflexivity.
  - destruct (pub2addr_affine curve keccak Hlen Hp x y Hx Hy) as [addr Ha].
    assert (He : exists enc, encode curve (Aff x y) true = Ret enc).
    { unfold encode. cbn [EC.getX EC.getY bind].
      rewrite BufFacts.toBuffer_fits;
        [cbn [bind]; eauto | lia | apply BufFacts.byteLength_mono; lia
        | apply BufFacts.byteLength_pos; lia]. }
    destruct He as [enc He].
    unfold pub2json. rewrite Ha. cbn [bind]. rewrite He.
    cbn [bind EC.getX EC.getY fst snd].
    rewrite BufFacts.toBuffer_32 by exact Hx'. cbn [bind].
    eexists. split; [reflexivity|].
    cbn [PubJson.x PubJson.yParity PubJson.address PubJson.encoded].
    split; [exact Hl|]. split; [exact Hv|]. split.
    + rewrite Zmod_even. destruct (Z.even y); reflexivity.
    + split; eauto.
Qed.

Lemma pub2json_fields_witness :
  (forall buf, List.length (Keccak.keccak256 buf) = 32%nat)
  /\ 1 < EC.p EC.secp256k1 <= 2 ^ 256
  /\ 0 <= 1 < EC.p EC.secp256k1 /\ 0 <= 2 < EC.p EC.secp256k1
  /\ exists view,
       pub2json EC.secp256k1 Keccak.keccak256 (Aff 1 2) false = Ret view
       /\ String.length (PubJson.x view) = 66%nat
       /\ toBN (PubJson.x view) = Ret 1
       /\ PubJson.yParity view = (if Z.even 2 then "0" else "1")
       /\ (exists addr,
             pub2addr EC.secp256k1 Keccak.keccak256 (Aff 1 2) = Ret addr
             /\ PubJson.address view = Some addr)
          /\ (exists enc,
                encode EC.secp256k1 (Aff 1 2) true = Ret enc
                /\ PubJson.encoded view = Some enc).
Proof.
  assert (Hp : 1 < EC.p EC.secp256k1 <= 2 ^ 256)
    by (split; vm_compute; [reflexivity | discriminate]).
  assert (H1 : 0 <= 1 < EC.p EC.secp256k1) by (split; vm_compute; [discriminate | reflexivity]).
  assert (H2 : 0 <= 2 < EC.p EC.secp256k1) by (split; vm_compute; [discriminate | reflexivity]).
  split; [exact KeccakFacts.length_keccak256|].
  split; [exact Hp|]. split; [exact H1|]. split; [exact H2|].
  exact (pub2json_fields EC.secp256k1 Keccak.keccak256
           KeccakFacts.length_keccak256 Hp false 1 2 H1 H2).
Defined.

(** X15. A request that names an application with no module under
    [./muon-apps/] ends in the thrown object [{message: "App not found
    on optimistic node"}], whatever the method, the parameters, the
    clock, the key and the draws. *)
Theorem runMuonApp_unknown_app :
  forall (curve : EC.t) (keccak : list byte -> list byte)
         (soliditySha3 : list sha3_arg -> result string)
         (env : Env.t) (request : Request.t),
    Env.modules env ("./muon-apps/" ++ Request.app request ++ ".js") = None ->
    runMuonApp curve keccak soliditySha3 env request
    = Throw (ThrowObject "App not found on optimistic node").
Proof.
  intros curve keccak soliditySha3 env request H.
  unfold runMuonApp, moduleIsAvailable. now rewrite H.
Qed.

Lemma runMuonApp_unknown_app_witness :
  Env.modules demo_env
    ("./muon-apps/" ++ "Price" ++ ".js") = None
  /\ runMuonApp EC.secp256k1 Keccak.keccak256 soliditySha3_packed demo_env
       {| Request.app := "Price"; Request.method := JStr "get";
          Request.params := None |}
     = Throw (ThrowObject "App not found on optimistic node").
Proof.
  split; [reflexivity|].
  apply (runMuonApp_unknown_app EC.secp256k1 Keccak.keccak256
           soliditySha3_packed demo_env
           {| Request.app := "Price"; Request.method := JStr "get";
              Request.params := None |}).
  reflexivity.
Defined.

(** X16. With a private key that is a multiple of the order, no response
    comes back: the public point is the point at infinity, and reading its
    coordinate for the challenge raises. *)
Theorem runMuonApp_zero_key_never_returns :
  forall (curve : EC.t) (keccak : list byte -> list byte)
         (soliditySha3 : list sha3_arg -> result string)
         (env : Env.t) (request : Request.t),
    Env.PRIVATE_KEY env mod EC.n curve = 0 ->
    forall r : Response.t,
      runMuonApp curve keccak soliditySha3 env request <> Ret r.
Proof.
  intros curve keccak soliditySha3 env request Hkey r H.
  destruct (runMuonApp_inv curve keccak soliditySha3 env request r H)
    as (muonApp & response0 & response1 & response2 & v & own & reqId & h
        & sg & entry
        & _ & _ & _ & _ & _ & _ & _ & _ & Hsg & _).
  destruct (schnorrSign_inv curve keccak _ _ _ _ h sg Hsg)
    as (addr & dg & _ & Hh & _).
  unfold keyFromPrivate, BN.umod, getPublic in Hh. rewrite Hkey in Hh.
  assert (E : EC.mul curve (EC.g curve) 0 = Inf)
    by (destruct (EC.g curve); reflexivity).
  rewrite E in Hh. discriminate Hh.
Qed.

Lemma runMuonApp_zero_key_never_returns_witness :
  Env.PRIVATE_KEY zero_key_env mod EC.n EC.tiny = 0
  /\ forall r : Response.t,
       runMuonApp EC.tiny ones_digest soliditySha3_packed zero_key_env
         demo_request <> Ret r.
Proof.
  split; [reflexivity|].
  apply (runMuonApp_zero_key_never_returns EC.tiny ones_digest
           soliditySha3_packed zero_key_env demo_request).
  reflexivity.
Defined.

(** X17. On a curve whose points form a group, with the nonce draw in
    [0, n): the signature text of a returned response is the response
    scalar of a signature that [schnorrVerify] accepts, under the public
    point of the node's key, for the digest of the response's signed
    fields. *)
Theorem runMuonApp_response_verifies :
  forall (curve : EC.t) (keccak : list byte -> list byte)
         (soliditySha3 : list sha3_arg -> result string),
    GroupLaws curve ->
    forall (env : Env.t) (request : Request.t) (r : Response.t),
      0 <= Env.random env 1%nat < EC.n curve ->
      runMuonApp curve keccak soliditySha3 env request = Ret r ->
      exists fields digest entry sg,
        Data.signParams (Response.data r) = Some fields
        /\ soliditySha3 (List.map ArgField fields) = Ret digest
        /\ Response.signatures r = Some [entry]
        /\ toBN (SignatureEntry.signature entry) = Ret (Sig.s sg)
        /\ schnorrVerify curve keccak
             (KeyPoint
                (getPublic curve (keyFromPrivate curve (Env.PRIVATE_KEY env))))
             digest (SigObject sg)
           = Ret true.
Proof.
  intros curve keccak soliditySha3 laws env request r Hk H.
  pose proof (n_pos curve laws) as Hn.
  destruct (runMuonApp_inv curve keccak soliditySha3 env request r H)
    as (muonApp & response0 & response1 & response2 & v & own & reqId & h
        & sg & entry
        & _ & _ & _ & _ & _ & _ & Hfields & Hh & Hsg & Hentry & Htext).
  exists (appId_field (Response.appId r) :: reqId_field reqId :: own),
    h, entry, sg.
  assert (Hd : 0 <= keyFromPrivate curve (Env.PRIVATE_KEY env))
    by (apply Z.mod_pos_bound; lia).
  assert (Hs : 0 <= Sig.s sg).
  { destruct (schnorrSign_inv curve keccak _ _ _ _ h sg Hsg)
      as (_ & _ & _ & _ & _ & ->).
    apply Z.mod_pos_bound; lia. }
  repeat split; try assumption.
  - assert (E : SignatureEntry.signature entry
                 = "0x" ++ Hex.of_buffer
                             (BN.be_bytes (Nat.max 1 (BN.byteLength (Sig.s sg)))
                                (Z.abs (Sig.s sg)) []))
      by (rewrite bn2hex_minimal in Htext; congruence).
    rewrite E, BNFacts.toBN_keccak, Z.abs_eq by exact Hs. f_equal.
    apply BufferFacts.be_value_be_bytes. split; [exact Hs|].
    apply BufferFacts.fits_minimal. exact Hs.
  - apply (SignFacts.schnorrVerify_signed curve keccak laws _ _ h sg Hd Hk).
    exact Hsg.
Qed.

Lemma runMuonApp_response_verifies_witness :
  0 <= Env.random demo_env 1%nat < EC.n EC.tiny
  /\ runMuonApp EC.tiny Keccak.keccak256 soliditySha3_packed demo_env
       demo_request = Ret tiny_response
  /\ exists fields digest entry sg,
       Data.signParams (Response.data tiny_response) = Some fields
       /\ soliditySha3_packed (List.map ArgField fields) = Ret digest
       /\ Response.signatures tiny_response = Some [entry]
       /\ toBN (SignatureEntry.signature entry) = Ret (Sig.s sg)
       /\ schnorrVerify EC.tiny Keccak.keccak256
            (KeyPoint
               (getPublic EC.tiny
                  (keyFromPrivate EC.tiny (Env.PRIVATE_KEY demo_env))))
            digest (SigObject sg)
          = Ret true.
Proof.
  assert (Hk : 0 <= Env.random demo_env 1%nat < EC.n EC.tiny)
    by (cbn; lia).
  assert (H : runMuonApp EC.tiny Keccak.keccak256 soliditySha3_packed
                demo_env demo_request = Ret tiny_response)
    by (vm_compute; reflexivity).
  split; [exact Hk|]. split; [exact H|].
  exact (runMuonApp_response_verifies EC.tiny Keccak.keccak256
           soliditySha3_packed Tiny.laws demo_env demo_request
           tiny_response Hk H).
Defined.

(** X18. The request id of a returned response is the first draw,
    printed as a 0x text with an even number of digits that reads back
    as the draw, and the same text is the [reqId] among the signed
    fields, whatever the module wrote to the response object.  For a
    module that does not write to it, the response repeats the
    application and the method of the request and carries the clock in
    whole seconds. *)
Theorem runMuonApp_request_id :
  forall (curve : EC.t) (keccak : list byte -> list byte)
         (soliditySha3 : list sha3_arg -> result string)
         (env : Env.t) (request : Request.t) (r : Response.t),
    0 <= Env.random env 0%nat ->
    runMuonApp curve keccak soliditySha3 env request = Ret r ->
    (exists reqId rest,
        Response.reqId r = Some reqId
        /\ Data.signParams (Response.data r)
           = Some (appId_field (Response.appId r) :: reqId_field reqId
                   :: rest)
        /\ Nat.even (String.length reqId) = true
        /\ toBN reqId = Ret (Env.random env 0%nat))
    /\ (forall muonApp,
          Env.modules env ("./muon-apps/" ++ Request.app request ++ ".js")
            = Some muonApp ->
          keeps_response muonApp ->
          Response.app r = Request.app request
          /\ Response.method r = Request.method request
          /\ Data.timestamp (Response.data r) = Env.now env / 1000).
Proof.
  intros curve keccak soliditySha3 env request r Hdraw H.
  destruct (ResponseFacts.runMuonApp_frame curve keccak soliditySha3
              env request r H)
    as (entry & _ & _ & _ & Hid & Hecho).
  destruct (runMuonApp_inv curve keccak soliditySha3 env request r H)
    as (muonApp & response0 & response1 & response2 & v & own & reqId & h
        & sg & entry'
        & _ & _ & _ & _ & _ & Hid' & Hfields & _).
  split.
  - exists reqId, own. rewrite Hid in Hid'. injection Hid' as <-.
    repeat (split; [assumption|]). unfold getPrivate_hex. split.
    + cbn [append String.length].
      rewrite (TextFacts.length_toString16 _ 2 Hdraw).
      destruct (TextFacts.round_up_multiple
                  (BN.hexLength (Env.random env 0%nat)) 2 ltac:(lia))
        as [q ->].
      cbn [Nat.even]. rewrite Nat.even_mul. cbn. apply orb_true_r.
    + now apply TextFacts.toBN_toString16.
  - intros m Hm Hkeep.
    destruct (Hecho m Hm Hkeep) as (Happ & Hmeth & Hts & _).
    repeat split; assumption.
Qed.

Lemma runMuonApp_request_id_witness :
  0 <= Env.random demo_env 0%nat
  /\ runMuonApp EC.tiny Keccak.keccak256 soliditySha3_packed demo_env
       demo_request = Ret tiny_response
  /\ (exists reqId rest,
         Response.reqId tiny_response = Some reqId
         /\ Data.signParams (Response.data tiny_response)
            = Some (appId_field (Response.appId tiny_response)
                    :: reqId_field reqId :: rest)
         /\ Nat.even (String.length reqId) = true
         /\ toBN reqId = Ret (Env.random demo_env 0%nat))
  /\ keeps_response price_app
  /\ Response.app tiny_response = Request.app demo_request
  /\ Response.method tiny_response = Request.method demo_request
  /\ Data.timestamp (Response.data tiny_response) = Env.now demo_env / 1000.
Proof.
  assert (Hdraw : 0 <= Env.random demo_env 0%nat) by (cbn; lia).
  assert (H : runMuonApp EC.tiny Keccak.keccak256 soliditySha3_packed
                demo_env demo_request = Ret tiny_response)
    by (vm_compute; reflexivity).
  assert (Hkeep : keeps_response price_app).
  { split.
    - intros response v response' E. cbn in E. now injection E.
    - intros response v own response' E. cbn in E. now injection E. }
  destruct (runMuonApp_request_id EC.tiny Keccak.keccak256
              soliditySha3_packed demo_env demo_request tiny_response Hdraw H)
    as [Hid Hecho].
  split; [exact Hdraw|]. split; [exact H|]. split; [exact Hid|].
  split; [exact Hkeep|].
  exact (Hecho price_app eq_refl Hkeep).
Defined.

(** X19. On a curve whose points form a group, the one signature entry
    of a returned response names the node's key: the public point has
    coordinates, [owner] is its address, and [ownerPubKey] is its
    minimal view, whose [x] reads back as the coordinate. *)
Theorem runMuonApp_owner :
  forall (curve : EC.t) (keccak : list byte -> list byte)
         (soliditySha3 : list sha3_arg -> result string),
    GroupLaws curve ->
    forall (env : Env.t) (request : Request.t) (r : Response.t),
      runMuonApp curve keccak soliditySha3 env request = Ret r ->
      exists entry x y,
        Response.signatures r = Some [entry]
        /\ getPublic curve (keyFromPrivate curve (Env.PRIVATE_KEY env))
           = Aff x y
        /\ pub2addr curve keccak (Aff x y) = Ret (SignatureEntry.owner entry)
        /\ toBN (PubJson.x (SignatureEntry.ownerPubKey entry)) = Ret x
        /\ PubJson.yParity (SignatureEntry.ownerPubKey entry)
           = (if Z.even y then "0" else "1")
        /\ PubJson.address (SignatureEntry.ownerPubKey entry) = None
        /\ PubJson.encoded (SignatureEntry.ownerPubKey entry) = None.
Proof.
  intros curve keccak soliditySha3 laws env request r H.
  pose proof (n_pos curve laws) as Hn.
  pose proof (p_range curve laws) as Hp.
  destruct (ResponseFacts.runMuonApp_frame curve keccak soliditySha3
              env request r H)
    as (entry & Hentry & Howner & Hview & _).
  assert (Hon : on_curve curve
                  (getPublic curve
                     (keyFromPrivate curve (Env.PRIVATE_KEY env))) = true).
  { apply (mul_on_curve curve laws); [apply (g_on_curve curve laws)|].
    apply Z.mod_pos_bound; lia. }
  destruct (getPublic curve (keyFromPrivate curve (Env.PRIVATE_KEY env)))
    as [|x y]; [discriminate Hview|].
  unfold on_curve in Hon. apply andb_prop in Hon as [Hred _].
  cbn [EC.reduced] in Hred.
  apply andb_prop in Hred as [Hred _]. apply andb_prop in Hred as [Hred _].
  apply andb_prop in Hred as [Hx0 Hx1].
  apply Z.leb_le in Hx0. apply Z.ltb_lt in Hx1.
  assert (Hx : 0 <= x < 2 ^ 256) by lia.
  rewrite (ResponseFacts.pub2json_minimal_view curve keccak x y Hx) in Hview.
  injection Hview as Hview.
  exists entry, x, y. rewrite <- Hview.
  cbn [PubJson.x PubJson.yParity PubJson.address PubJson.encoded].
  repeat split; try assumption || reflexivity.
  apply (ResponseFacts.x_text x Hx).
Qed.

Lemma runMuonApp_owner_witness :
  runMuonApp EC.tiny Keccak.keccak256 soliditySha3_packed demo_env
    demo_request = Ret tiny_response
  /\ exists entry x y,
       Response.signatures tiny_response = Some [entry]
       /\ getPublic EC.tiny (keyFromPrivate EC.tiny (Env.PRIVATE_KEY demo_env))
          = Aff x y
       /\ pub2addr EC.tiny Keccak.keccak256 (Aff x y)
          = Ret (SignatureEntry.owner entry)
       /\ toBN (PubJson.x (SignatureEntry.ownerPubKey entry)) = Ret x
       /\ PubJson.yParity (SignatureEntry.ownerPubKey entry)
          = (if Z.even y then "0" else "1")
       /\ PubJson.address (SignatureEntry.ownerPubKey entry) = None
       /\ PubJson.encoded (SignatureEntry.ownerPubKey entry) = None.
Proof.
  assert (H : runMuonApp EC.tiny Keccak.keccak256 soliditySha3_packed
                demo_env demo_request = Ret tiny_response)
    by (vm_compute; reflexivity).
  split; [exact H|].
  exact (runMuonApp_owner EC.tiny Keccak.keccak256 soliditySha3_packed
           Tiny.laws demo_env demo_request tiny_response H).
Defined.
